(** * symphony: web articles to AsciiDoc

    A shallow embedding of [main.py]: the content cache
    ([compute_image_path], [download_image], [load_file_content]), the
    extractors, the passes of the [Transformer], the tag-dispatch [Renderer],
    the per-site factory functions, [download_content] and [main], followed
    by the properties proved about them.

    Library calls whose result the program only passes on ([urlparse],
    [urljoin], the HTML parser and its serialisers, the HTTP client) are
    variables of the sections that use them; [hashlib.sha256], [os.path] and
    the one regular expression of the renderer are written out.

    Python strings are sequences of Unicode code points and are modelled as
    [list N].  The interpreter's effects are made explicit: the file system,
    the log of HTTP requests and the standard output are threaded through a
    state monad whose computations end normally, by [exit] or by a raised
    exception. *)

From Stdlib Require Import ZArith NArith Ascii Lia.
From stdpp Require Import base option list strings gmap.

Local Open Scope N_scope.

(** ** Python strings *)

Abbreviation str := (list N).

(** A literal of the source, one code point per character. *)
Fixpoint lit (s : String.string) : str :=
  match s with
  | String.EmptyString => []
  | String.String a s' => N_of_ascii a :: lit s'
  end.
Arguments lit s%_string : simpl never.

(** The newline character, which a literal of this file cannot hold. *)
Definition nl : str := [10].

Module Str.

(** [str.isspace] on one character, the table of [_PyUnicode_IsWhitespace];
    [str.strip()] and the [\s] class of [re] both use it. *)
Definition isspace (c : N) : bool :=
  ((0x09 <=? c) && (c <=? 0x0D)) || ((0x1C <=? c) && (c <=? 0x20))
  || (c =? 0x85) || (c =? 0xA0) || (c =? 0x1680)
  || ((0x2000 <=? c) && (c <=? 0x200A))
  || (c =? 0x2028) || (c =? 0x2029) || (c =? 0x202F) || (c =? 0x205F)
  || (c =? 0x3000).

Fixpoint lstrip (s : str) : str :=
  match s with
  | c :: s' => if isspace c then lstrip s' else s
  | [] => []
  end.

Definition rstrip (s : str) : str := reverse (lstrip (reverse s)).

(** [s.strip()] *)
Definition strip (s : str) : str := rstrip (lstrip s).

(** [s.rstrip(c)] for a one-character argument *)
Fixpoint lstrip_char (c : N) (s : str) : str :=
  match s with
  | d :: s' => if d =? c then lstrip_char c s' else s
  | [] => []
  end.

Definition rstrip_char (c : N) (s : str) : str :=
  reverse (lstrip_char c (reverse s)).

(** [s.split(sep)] for a one-character separator: every occurrence
    separates, so the result is never empty and may hold empty pieces. *)
Fixpoint split (sep : N) (s : str) : list str :=
  match s with
  | [] => [[]]
  | c :: s' =>
      if c =? sep then [] :: split sep s'
      else match split sep s' with
           | piece :: pieces => (c :: piece) :: pieces
           | [] => [[c]]
           end
  end.

(** [c in s] for a one-character [c] *)
Definition has_char (c : N) (s : str) : bool := existsb (N.eqb c) s.

(** [s.replace(c, '')] for a one-character [c] *)
Definition remove_char (c : N) (s : str) : str :=
  filter (λ d, d ≠ c) s.

Fixpoint startswith (p s : str) : bool :=
  match p, s with
  | [], _ => true
  | a :: p', b :: s' => (a =? b) && startswith p' s'
  | _ :: _, [] => false
  end.

(** [needle in hay] *)
Fixpoint contains (needle hay : str) : bool :=
  startswith needle hay ||
  match hay with
  | [] => false
  | _ :: hay' => contains needle hay'
  end.

(** The order of [str]: lexicographic on code points, a proper prefix
    first. *)
Fixpoint compare (a b : str) : comparison :=
  match a, b with
  | [], [] => Eq
  | [], _ :: _ => Lt
  | _ :: _, [] => Gt
  | x :: a', y :: b' =>
      match x ?= y with
      | Eq => compare a' b'
      | c => c
      end
  end.

Definition leb (a b : str) : bool :=
  match compare a b with Gt => false | _ => true end.

(** [sorted(l)] on strings: insertion sort, stable like the interpreter's. *)
Fixpoint insert_sorted (x : str) (l : list str) : list str :=
  match l with
  | [] => [x]
  | y :: l' => if leb x y then x :: l else y :: insert_sorted x l'
  end.

Definition sorted (l : list str) : list str :=
  foldr insert_sorted [] l.

(** [sep.join(l)] *)
Fixpoint join (sep : str) (l : list str) : str :=
  match l with
  | [] => []
  | [x] => x
  | x :: l' => x ++ sep ++ join sep l'
  end.

(** What reading a file in text mode makes of its line ends (the default
    [newline=None] of [open]): a carriage return, together with the line
    feed that follows it when there is one, is read as one line feed. *)
Fixpoint universal_newlines (s : str) : str :=
  match s with
  | [] => []
  | c :: s' =>
      if c =? 13
      then 10 :: match s' with
                 | d :: s'' =>
                     if d =? 10 then universal_newlines s''
                     else universal_newlines s'
                 | [] => []
                 end
      else c :: universal_newlines s'
  end.

(** [str(n)] / the [:d] format of a non-negative integer *)
Definition digit (n : N) : N := 48 + n.

Fixpoint decimal_fuel (fuel : nat) (n : N) (acc : str) : str :=
  match fuel with
  | O => acc
  | S fuel' =>
      let acc' := digit (n mod 10) :: acc in
      if n / 10 =? 0 then acc' else decimal_fuel fuel' (n / 10) acc'
  end.

Definition decimal (n : N) : str := decimal_fuel (S (N.to_nat (N.log2 n))) n [].

End Str.

(** ** The regular expression of [render_tag_pre]

    [code_pattern], compiled with [re.MULTILINE | re.DOTALL], reads: start
    of a line; the characters [[code]; one or more white-space characters;
    the characters [lang=]; the group [lang], any characters, greedy; a
    closing bracket; the group [content], any characters, greedy; the
    characters [[/code]]; end of a line.  The matcher below is the
    backtracking search of [re] written out for this pattern: each greedy
    quantifier tries its longest repetition first and gives characters back
    one at a time until the rest of the pattern matches. *)

Module Re.

Record match_object := Match {
  group_lang : str;
  group_content : str;
  match_length : nat
}.

(** [^] under [MULTILINE]: at the start of the text or after a newline;
    [prev] is the character before the position. *)
Definition at_line_start (prev : option N) : bool :=
  match prev with
  | None => true
  | Some c => c =? 10
  end.

(** [$] under [MULTILINE]: at the end of the text or before a newline. *)
Definition at_line_end (rest : str) : bool :=
  match rest with
  | [] => true
  | c :: _ => c =? 10
  end.

(** A literal: the rest of the text after it, when it is there. *)
Fixpoint literal (p s : str) : option str :=
  match p, s with
  | [], _ => Some s
  | a :: p', b :: s' => if a =? b then literal p' s' else None
  | _ :: _, [] => None
  end.

(** The ways of cutting [s] in two, the longest first part first: the order
    in which a greedy dot-star (under [DOTALL] every character matches [.])
    offers its repetitions. *)
Fixpoint greedy_splits (s : str) : list (str * str) :=
  match s with
  | [] => [([], [])]
  | c :: s' => (prod_map (cons c) id <$> greedy_splits s') ++ [([], s)]
  end.

(** The same for [\s+]: one or more white-space characters. *)
Fixpoint greedy_spaces (s : str) : list (str * str) :=
  match s with
  | c :: s' =>
      if Str.isspace c
      then (prod_map (cons c) id <$> greedy_spaces s') ++ [([c], s')]
      else []
  | [] => []
  end.

(** The first alternative on which the rest of the pattern succeeds. *)
Fixpoint first_success {A B} (k : A → option B) (l : list A) : option B :=
  match l with
  | [] => None
  | x :: l' =>
      match k x with
      | Some r => Some r
      | None => first_success k l'
      end
  end.

(** The group [content] and what follows it: [[/code]] and the line end. *)
Definition match_content (s : str) : option (str * str) :=
  first_success
    (λ '(content, rest),
       rest' ← literal (lit "[/code]") rest;
       if at_line_end rest' then Some (content, rest') else None)
    (greedy_splits s).

(** The group [lang] and what follows it: the bracket and the above. *)
Definition match_lang (s : str) : option (str * str * str) :=
  first_success
    (λ '(lang, rest),
       rest' ← literal (lit "]") rest;
       '(content, rest'') ← match_content rest';
       Some (lang, content, rest''))
    (greedy_splits s).

(** An attempt of the whole pattern at one position. *)
Definition match_at (prev : option N) (s : str) : option match_object :=
  if at_line_start prev then
    rest ← literal (lit "[code") s;
    first_success
      (λ '(_, rest'),
         rest'' ← literal (lit "lang=") rest';
         '(lang, content, rest''') ← match_lang rest'';
         Some (Match lang content (length s - length rest''')))
      (greedy_spaces rest)
  else None.

(** The scan of [re.finditer]: positions from left to right; after a match
    the search resumes where it ended ([skip] counts the characters of the
    last match still to be passed; a match of this pattern is never
    empty). *)
Fixpoint scan (prev : option N) (skip : nat) (s : str) : list match_object :=
  match skip with
  | S skip' =>
      match s with
      | c :: s' => scan (Some c) skip' s'
      | [] => []
      end
  | O =>
      match match_at prev s with
      | Some m =>
          m :: match s with
               | c :: s' => scan (Some c) (match_length m - 1) s'
               | [] => []
               end
      | None =>
          match s with
          | c :: s' => scan (Some c) 0 s'
          | [] => []
          end
      end
  end.

(** [re.finditer(code_pattern, text, re.MULTILINE | re.DOTALL)].  A Python
    reference is [None] or an object; [re.finditer] hands back an iterator
    object whatever the text, here the matches it will yield. *)
Definition finditer_code_pattern (text : str) : option (list match_object) :=
  Some (scan None 0 text).

End Re.

(** ** SHA-256 and UTF-8

    [hashlib.sha256] as FIPS 180-4 defines it, on bytes; words are numbers
    below [2^32] and every addition wraps. *)

Module Sha256.

Definition mask32 : N := 0xFFFFFFFF.
Definition add32 (a b : N) : N := (a + b) mod 2 ^ 32.
Definition rotr (n x : N) : N :=
  N.lor (N.shiftr x n) (N.land (N.shiftl x (32 - n)) mask32).
Definition shr (n x : N) : N := N.shiftr x n.
Definition not32 (x : N) : N := N.lxor x mask32.

Definition Ch (x y z : N) : N := N.lxor (N.land x y) (N.land (not32 x) z).
Definition Maj (x y z : N) : N :=
  N.lxor (N.lxor (N.land x y) (N.land x z)) (N.land y z).
Definition Sigma0 (x : N) : N :=
  N.lxor (N.lxor (rotr 2 x) (rotr 13 x)) (rotr 22 x).
Definition Sigma1 (x : N) : N :=
  N.lxor (N.lxor (rotr 6 x) (rotr 11 x)) (rotr 25 x).
Definition sigma0 (x : N) : N :=
  N.lxor (N.lxor (rotr 7 x) (rotr 18 x)) (shr 3 x).
Definition sigma1 (x : N) : N :=
  N.lxor (N.lxor (rotr 17 x) (rotr 19 x)) (shr 10 x).

(** The constants are "the first thirty-two bits of the fractional parts"
    of the square roots ([H0]) and cube roots ([K]) of the first primes:
    the whole root of the prime scaled by [2^64] (by [2^96]), modulo
    [2^32]. *)
Definition is_prime (n : nat) : bool :=
  forallb (λ d, negb (n `mod` d =? 0)%nat) (seq 2 (n - 2)).

Definition primes (count : nat) : list nat :=
  take count (filter (λ n, is_prime n = true) (seq 2 400)).

(** The whole cube root, one bit at a time from the top. *)
Fixpoint cube_root_bits (bits : nat) (n root : N) : N :=
  match bits with
  | O => root
  | S bits' =>
      let candidate := root + 2 ^ N.of_nat bits' in
      cube_root_bits bits' n
        (if candidate * candidate * candidate <=? n then candidate else root)
  end.

Definition fractional_sqrt (p : nat) : N :=
  N.sqrt (N.of_nat p * 2 ^ 64) mod 2 ^ 32.

Definition fractional_cbrt (p : nat) : N :=
  cube_root_bits 36 (N.of_nat p * 2 ^ 96) 0 mod 2 ^ 32.

Definition K : list N := Eval vm_compute in fractional_cbrt <$> primes 64.

(** The eight working words. *)
Record words := Words { wa : N; wb : N; wc : N; wd : N;
                        we : N; wf : N; wg : N; wh : N }.

Definition H0 : words :=
  Eval vm_compute in
    match fractional_sqrt <$> primes 8 with
    | [a; b; c; d; e; f; g; h] => Words a b c d e f g h
    | _ => Words 0 0 0 0 0 0 0 0
    end.

(** Padding: the byte [0x80], zero bytes up to 56 modulo 64, then the
    length in bits on eight bytes, the most significant first. *)
Definition be_bytes (width : nat) (n : N) : list N :=
  (λ i, N.shiftr n (8 * N.of_nat i) mod 256) <$> reverse (seq 0%nat width).

Definition pad (msg : list N) : list N :=
  let len := length msg in
  let zeros := ((64 - (len + 9) `mod` 64) `mod` 64)%nat in
  msg ++ [0x80] ++ replicate zeros 0 ++ be_bytes 8%nat (8 * N.of_nat len).

Fixpoint chunks {A} (size count : nat) (l : list A) : list (list A) :=
  match count with
  | O => []
  | S count' => take size l :: chunks size count' (drop size l)
  end.

Definition be_word (bytes : list N) : N :=
  foldl (λ acc b, acc * 256 + b) 0 bytes.

(** The message schedule: sixteen words of the block, then forty-eight
    derived ones. *)
Fixpoint extend (count : nat) (w : list N) : list N :=
  match count with
  | O => w
  | S count' =>
      let t := length w in
      let at_ (back : nat) : N := w !!! (t - back)%nat in
      extend count'
        (w ++ [add32 (add32 (sigma1 (at_ 2%nat)) (at_ 7%nat))
                     (add32 (sigma0 (at_ 15%nat)) (at_ 16%nat))])
  end.

Definition schedule (block : list N) : list N :=
  extend 48%nat (be_word <$> chunks 4%nat 16%nat block).

Definition round (s : words) (kw : N * N) : words :=
  let t1 := add32 (add32 (add32 (wh s) (Sigma1 (we s)))
                         (add32 (Ch (we s) (wf s) (wg s)) kw.1)) kw.2 in
  let t2 := add32 (Sigma0 (wa s)) (Maj (wa s) (wb s) (wc s)) in
  Words (add32 t1 t2) (wa s) (wb s) (wc s)
        (add32 (wd s) t1) (we s) (wf s) (wg s).

Definition compress (h : words) (block : list N) : words :=
  let s := foldl round h (zip K (schedule block)) in
  Words (add32 (wa h) (wa s)) (add32 (wb h) (wb s))
        (add32 (wc h) (wc s)) (add32 (wd h) (wd s))
        (add32 (we h) (we s)) (add32 (wf h) (wf s))
        (add32 (wg h) (wg s)) (add32 (wh h) (wh s)).

Definition digest_words (msg : list N) : words :=
  let padded := pad msg in
  foldl compress H0 (chunks 64%nat (length padded / 64)%nat padded).

Definition hex_digit (d : N) : N :=
  if d <? 10 then 48 + d else 87 + d.

Definition hex_word (w : N) : str :=
  (λ i, hex_digit (N.shiftr w (4 * N.of_nat i) mod 16))
  <$> reverse (seq 0%nat 8%nat).

(** [m.hexdigest()] after [m.update(msg)] on a fresh [hashlib.sha256()] *)
Definition hexdigest (msg : list N) : str :=
  let h := digest_words msg in
  hex_word (wa h) ++ hex_word (wb h) ++ hex_word (wc h) ++ hex_word (wd h)
  ++ hex_word (we h) ++ hex_word (wf h) ++ hex_word (wg h) ++ hex_word (wh h).

End Sha256.

(** [s.encode('utf-8')]: [None] stands for the [UnicodeEncodeError] that a
    surrogate code point raises. *)
Definition utf8_char (c : N) : option (list N) :=
  if c <? 0x80 then Some [c]
  else if c <? 0x800 then Some [0xC0 + c / 64; 0x80 + c mod 64]
  else if (0xD800 <=? c) && (c <=? 0xDFFF) then None
  else if c <? 0x10000 then
    Some [0xE0 + c / 4096; 0x80 + (c / 64) mod 64; 0x80 + c mod 64]
  else if c <? 0x110000 then
    Some [0xF0 + c / 262144; 0x80 + (c / 4096) mod 64;
          0x80 + (c / 64) mod 64; 0x80 + c mod 64]
  else None.

Definition encode_utf8 (s : str) : option (list N) :=
  bytes ← mapM utf8_char s; Some (concat bytes).

(** ** The parsed page

    A [BeautifulSoup] tree: a [NavigableString] carries text and has no name
    ([name] is [None]); a [Tag] has a name, its attributes and its children. *)

#[local] Set Warnings "-register-all".

Inductive node :=
  | NavigableString (s : str)
  | Tag (name : str) (attrs : gmap str str) (contents : list node).

(** [tag.name] *)
Definition name (n : node) : option str :=
  match n with
  | NavigableString _ => None
  | Tag nm _ _ => Some nm
  end.

(** [tag.attrs]; a string has none. *)
Definition attrs (n : node) : gmap str str :=
  match n with
  | NavigableString _ => ∅
  | Tag _ a _ => a
  end.

(** The children a [for child in tag] loop visits. *)
Definition contents (n : node) : list node :=
  match n with
  | NavigableString _ => []
  | Tag _ _ cs => cs
  end.

(** [tag.text]: the strings below the node, in document order, joined. *)
Fixpoint text (n : node) : str :=
  match n with
  | NavigableString s => s
  | Tag _ _ cs => concat (text <$> cs)
  end.

(** [tag.string]: the string of a node with one child only, looking through
    single-child tags; [None] otherwise. *)
Fixpoint string (n : node) : option str :=
  match n with
  | NavigableString s => Some s
  | Tag _ _ [c] => string c
  | Tag _ _ _ => None
  end.

(** How an f-string shows a value that may be [None]. *)
Definition format_optional (o : option str) : str :=
  match o with
  | Some s => s
  | None => lit "None"
  end.

(** ** What a run writes

    The text handed to [file_out.write] and the lines handed to [print], in
    the order of the calls. *)

Record output := Output {
  written : str;
  printed : list str
}.

Definition nothing : output := Output [] [].
Definition write (s : str) : output := Output s [].
Definition print (s : str) : output := Output [] [s].

Definition output_app (a b : output) : output :=
  Output (written a ++ written b) (printed a ++ printed b).
Infix "+++" := output_app (at level 60, right associativity).

Definition output_concat (l : list output) : output :=
  foldr output_app nothing l.

(** ** Renderer *)

Inductive renderer := Renderer | UntoolsRenderer.

(** The methods a dispatch table can name. *)
Inductive handler :=
  | render_tag_p | render_tag_h1 | render_tag_h2 | render_tag_h3
  | render_tag_h4 | render_tag_ul | render_tag_ol | render_tag_div
  | render_tag_blockquote | render_tag_table | render_tag_pre.

(** The [handlers] dictionary of [render_tags]. *)
Definition handlers : gmap str handler :=
  list_to_map
    [ (lit "p", render_tag_p); (lit "h1", render_tag_h1);
      (lit "h2", render_tag_h2); (lit "h3", render_tag_h3);
      (lit "h4", render_tag_h4); (lit "ul", render_tag_ul);
      (lit "ol", render_tag_ol); (lit "div", render_tag_div);
      (lit "blockquote", render_tag_blockquote);
      (lit "figure", render_tag_p); (lit "table", render_tag_table);
      (lit "pre", render_tag_pre) ].

Section Renderer.

(** Serialisation is the parser library's: [str(tag)], which [print(tag)]
    shows, and [tag.prettify()]. *)
Variable tag_str : node → str.
Variable prettify : node → str.

Definition render_p (tag : node) : output :=
  write (text tag) +++ write (nl ++ nl).

Definition render_heading (marker : str) (tag : node) : output :=
  write (marker ++ lit " " ++ format_optional (string tag) ++ nl ++ nl).

(** The loop shared by [render_tag_ul] and [render_tag_ol]. *)
Definition render_items (bullet : str) (tag : node) : output :=
  output_concat
    ((λ li, if decide (name li = Some (lit "li"))
            then write (bullet ++ lit " " ++ text li ++ nl)
            else nothing) <$> contents tag)
  +++ write (nl ++ nl).

Definition render_table (tag : node) : output :=
  write (lit "++++" ++ nl) +++ write (prettify tag)
  +++ write (lit "++++" ++ nl).

Definition render_source (m : Re.match_object) : output :=
  write (lit "[source, " ++ Re.group_lang m ++ lit "]" ++ nl
         ++ lit "----" ++ nl
         ++ Re.group_content m ++ nl
         ++ lit "----" ++ nl).

Definition render_listing (tag : node) : output :=
  write (lit "[listing]" ++ nl
         ++ lit "...." ++ nl
         ++ text tag ++ nl
         ++ lit "...." ++ nl
         ++ nl).

(** [render_tag_pre]: a block per match, then the test [matches is None]. *)
Definition render_pre (tag : node) : output :=
  let matches := Re.finditer_code_pattern (text tag) in
  output_concat (render_source <$> default [] matches)
  +++ (if decide (matches = None) then render_listing tag else nothing).

(** One turn of the loop of [render_tags]: a node without a name is
    skipped, a name of the table is dispatched, any other tag is printed.
    [render_tag_div] and [render_tag_blockquote] call [render_tags] on the
    tag they are given. *)
Fixpoint render_child (self : renderer) (tag : node) : output :=
  match tag with
  | NavigableString _ => nothing
  | Tag nm _ cs =>
      match handlers !! nm with
      | Some render_tag_p => render_p tag
      | Some render_tag_h1 => render_heading (lit "===") tag
      | Some render_tag_h2 => render_heading (lit "===") tag
      | Some render_tag_h3 => render_heading (lit "====") tag
      | Some render_tag_h4 => render_heading (lit "=====") tag
      | Some render_tag_ul => render_items (lit "-") tag
      | Some render_tag_ol => render_items (lit "*") tag
      | Some render_tag_div =>
          match self with
          | Renderer => output_concat (render_child self <$> cs)
          | UntoolsRenderer => write (text tag) +++ write (nl ++ nl)
          end
      | Some render_tag_blockquote =>
          write (lit "[quote]" ++ nl) +++ write (lit "____" ++ nl)
          +++ output_concat (render_child self <$> cs)
          +++ write (lit "____" ++ nl)
      | Some render_tag_table => render_table tag
      | Some render_tag_pre => render_pre tag
      | None => print (lit "=============") +++ print (tag_str tag)
      end
  end.

Definition render_tags (self : renderer) (site : node) : output :=
  output_concat (render_child self <$> contents site).

End Renderer.

(** ** Paths ([os.path] on POSIX) *)

Module Path.

Definition sep : N := 47.
Definition extsep : N := 46.

Definition endswith_sep (p : str) : bool :=
  match last p with
  | Some c => c =? sep
  | None => false
  end.

(** One step of the loop of [os.path.join]: a component that starts with
    the separator restarts the path; an empty path or one that ends with
    the separator takes the component as it is. *)
Definition join2 (path b : str) : str :=
  if Str.startswith [sep] b then b
  else if bool_decide (path = []) || endswith_sep path then path ++ b
  else path ++ [sep] ++ b.

(** [os.path.join(a, *p)] *)
Definition join (a : str) (p : list str) : str := foldl join2 a p.

(** [s.rfind(c)]: the last index of [c], or [-1]. *)
Fixpoint rfind_from (c : N) (s : str) (i : Z) (found : Z) : Z :=
  match s with
  | [] => found
  | d :: s' => rfind_from c s' (i + 1)%Z (if d =? c then i else found)
  end.

Definition rfind (c : N) (s : str) : Z := rfind_from c s 0%Z (-1)%Z.

(** [p[i:j]] for indices that are not negative *)
Definition slice (p : str) (i j : Z) : str :=
  take (Z.to_nat j - Z.to_nat i) (drop (Z.to_nat i) p).

(** [os.path.splitext]: the extension starts at the last dot of the last
    component, unless only dots come before it there. *)
Definition splitext (p : str) : str * str :=
  let sepIndex := rfind sep p in
  let dotIndex := rfind extsep p in
  if (sepIndex <? dotIndex)%Z
     && existsb (λ c, negb (c =? extsep)) (slice p (sepIndex + 1) dotIndex)
  then (take (Z.to_nat dotIndex) p, drop (Z.to_nat dotIndex) p)
  else (p, []).

(** [os.path.basename] *)
Definition basename (p : str) : str :=
  drop (Z.to_nat (rfind sep p + 1)) p.

End Path.

(** ** The interpreter's state and the ways a computation ends *)

(** What a path names. *)
Inductive entry :=
  | File (content : str)
  | Directory.

(** The store of the file-system collaborator, keyed by path string; the log
    of the URLs requested from the HTTP client; the lines printed. *)
Record state := State {
  fs : gmap str entry;
  requests : list str;
  stdout : list str
}.

Inductive exception :=
  | KeyError (key : str)
  | IndexError
  | ValueError
  | UnicodeEncodeError
  | TypeError
  | AttributeError
  | IsADirectoryError
  | FileNotFoundError
  | FileExistsError
  | RequestException
  | re_error.

(** A call returns, leaves through [exit(code)], or raises. *)
Inductive result (A : Type) :=
  | Return (a : A)
  | Exit (code : N)
  | Raise (e : exception).
Arguments Return {A} a.
Arguments Exit {A} code.
Arguments Raise {A} e.

Definition M (A : Type) : Type := state → result A * state.

Definition ret {A} (a : A) : M A := λ σ, (Return a, σ).

Definition bind {A B} (m : M A) (k : A → M B) : M B :=
  λ σ, match m σ with
       | (Return a, σ') => k a σ'
       | (Exit code, σ') => (Exit code, σ')
       | (Raise e, σ') => (Raise e, σ')
       end.

#[global] Instance M_ret : MRet M := @ret.
#[global] Instance M_bind : MBind M := λ A B k m, bind m k.

Definition raise {A} (e : exception) : M A := λ σ, (Raise e, σ).
Definition exit {A} (code : N) : M A := λ σ, (Exit code, σ).

(** Code that touches no state: its result alone. *)
Definition result_bind {A B} (r : result A) (k : A → result B) : result B :=
  match r with
  | Return a => k a
  | Exit code => Exit code
  | Raise e => Raise e
  end.

#[global] Instance result_ret : MRet result := @Return.
#[global] Instance result_mbind : MBind result := λ A B k r, result_bind r k.

Definition lift {A} (r : result A) : M A := λ σ, (r, σ).

(** A library call that raises when it has no result. *)
Definition or_raise {A} (e : exception) (o : option A) : M A :=
  match o with
  | Some a => ret a
  | None => raise e
  end.

Definition put_line (line : str) : M unit :=
  λ σ, (Return (), State (fs σ) (requests σ) (stdout σ ++ [line])).

(** [os.path.exists] *)
Definition path_exists (path : str) : M bool :=
  λ σ, (Return (bool_decide (is_Some (fs σ !! path))), σ).

(** [os.makedirs(path, exist_ok=True)]; the store does not record the
    directories above [path]. *)
Definition makedirs (path : str) : M unit :=
  λ σ, match fs σ !! path with
       | Some (File _) => (Raise FileExistsError, σ)
       | _ => (Return (),
               State (<[path := Directory]> (fs σ)) (requests σ) (stdout σ))
       end.

(** [open(path, 'rt').read()]: the text of the file, its line ends read
    the way text mode reads them. *)
Definition read_file (path : str) : M str :=
  λ σ, match fs σ !! path with
       | Some (File content) => (Return (Str.universal_newlines content), σ)
       | Some Directory => (Raise IsADirectoryError, σ)
       | None => (Raise FileNotFoundError, σ)
       end.

(** [open(path, 'w')] followed by the writes that make up [content]; on
    POSIX, writing in text mode leaves every character as it is. *)
Definition write_file (path content : str) : M unit :=
  λ σ, match fs σ !! path with
       | Some Directory => (Raise IsADirectoryError, σ)
       | _ => (Return (),
               State (<[path := File content]> (fs σ)) (requests σ) (stdout σ))
       end.

(** [file.write(text)] on a file opened for writing at [path]. *)
Definition append_file (path text : str) : M unit :=
  λ σ, match fs σ !! path with
       | Some (File content) =>
           (Return (),
            State (<[path := File (content ++ text)]> (fs σ))
                  (requests σ) (stdout σ))
       | Some Directory => (Raise IsADirectoryError, σ)
       | None => (Raise FileNotFoundError, σ)
       end.

(** ** The content cache *)

(** What [requests.get] hands back. *)
Record response := Response {
  status_code : N;
  body : str
}.

Section Cache.

(** The HTTP collaborator: the answer to a URL, which may depend on how
    many requests came before; [None] when the client raises. *)
Variable http_get : nat → str → option response.

(** [urlparse(url).path]; [None] when the library rejects the URL. *)
Variable urlparse_path : str → option str.

Definition requests_get (url_path : str) : M response :=
  λ σ, let σ' := State (fs σ) (requests σ ++ [url_path]) (stdout σ) in
       match http_get (length (requests σ)) url_path with
       | Some r => (Return r, σ')
       | None => (Raise RequestException, σ')
       end.

(** [m = hashlib.sha256(); m.update(s.encode('utf-8'))], read later through
    [m.hexdigest()]. *)
Definition sha256_of (s : str) : M str :=
  bytes ← or_raise UnicodeEncodeError (encode_utf8 s);
  ret (Sha256.hexdigest bytes).

Definition compute_image_path (url_path root : str) : M (str * str) :=
  m ← sha256_of url_path;
  makedirs (Path.join root [lit ".cached"]);;
  u_path ← or_raise ValueError (urlparse_path url_path);
  let output_path := Path.splitext u_path in
  let image_name := m ++ output_path.2 in
  let file_path := Path.join root [lit "images"; image_name] in
  ret (file_path, image_name).

Definition cannot_make_request (r : response) : str :=
  lit "Cannot make request. Result: " ++ Str.decimal (status_code r).

Definition download_image (url_path root : str) : M str :=
  '(image_path, image_name) ← compute_image_path url_path root;
  cached ← path_exists image_path;
  if cached : bool then ret image_name
  else
    req ← requests_get url_path;
    if negb (status_code req =? 200)
    then put_line (cannot_make_request req);; exit 1
    else write_file image_path (body req);; ret image_name.

Definition load_file_content (url_path file_path : str) : M str :=
  cached ← path_exists file_path;
  if cached : bool then read_file file_path
  else
    req ← requests_get url_path;
    if negb (status_code req =? 200)
    then put_line (cannot_make_request req);; exit 1
    else write_file file_path (body req);; ret (body req).

End Cache.

(** ** Transformer: the image pass *)

(** The [config] dictionary of [create_transformer]. *)
Record config := Config {
  src_url : str;
  output_dir : str
}.

(** [tag[key]] *)
Definition getitem (tag : node) (key : str) : result str :=
  match attrs tag !! key with
  | Some v => Return v
  | None => Raise (KeyError key)
  end.

(** [tag.get(key, default)] *)
Definition get (tag : node) (key : str) (default : str) : str :=
  match attrs tag !! key with
  | Some v => v
  | None => default
  end.

(** [l[i]] *)
Definition index {A} (l : list A) (i : nat) : result A :=
  match l !! i with
  | Some x => Return x
  | None => Raise IndexError
  end.

(** One turn of the loop over [srcs]: [ss = s.strip().split(' ')] and
    [imgs[ss[1]] = ss[0]]. *)
Definition add_candidate (imgs : gmap str str) (s : str)
  : result (gmap str str) :=
  let ss := Str.split 32 (Str.strip s) in
  url ← index ss 0;
  descriptor ← index ss 1;
  Return (<[descriptor := url]> imgs).

Fixpoint add_candidates (imgs : gmap str str) (srcs : list str)
  : result (gmap str str) :=
  match srcs with
  | [] => Return imgs
  | s :: srcs' => imgs' ← add_candidate imgs s; add_candidates imgs' srcs'
  end.

(** [imgs.keys()] *)
Definition keys (imgs : gmap str str) : list str := (map_to_list imgs).*1.

(** The block under [if srcset is not None]: the descriptor called
    [largest], then [src], [width] and [height] after it. *)
Definition choose_from_srcset (srcset width height : str)
  : result (str * str * str * str) :=
  let srcs := Str.split 44 srcset in
  imgs ← add_candidates ∅ srcs;
  largest ← index (Str.sorted (keys imgs)) 0;
  src ← match imgs !! largest with
        | Some v => Return v
        | None => Raise (KeyError largest)
        end;
  let width := if Str.has_char 119 largest
               then Str.remove_char 119 largest else width in
  let height := if Str.has_char 104 largest
                then Str.remove_char 104 largest else height in
  Return (largest, src, width, height).

(** What the body of the loop of [transform_img] reads from one [img]:
    [alt], [width], [height] and the source to fetch. *)
Definition image_fields (img : node) : result (str * str * str * str) :=
  alt ← getitem img (lit "alt");
  let height := get img (lit "height") [] in
  let width := get img (lit "width") [] in
  src ← getitem img (lit "src");
  match attrs img !! lit "srcset" with
  | Some srcset =>
      '(_, src, width, height) ← choose_from_srcset srcset width height;
      Return (alt, width, height, src)
  | None => Return (alt, width, height, src)
  end.

(** The f-string of the replacement. *)
Definition image_macro (image_name alt width height : str) : str :=
  lit "image:" ++ image_name ++ lit "[" ++ alt ++ lit "," ++ width
  ++ lit "," ++ height ++ lit "]".

Section ImagePass.

Variable http_get : nat → str → option response.
Variable urlparse_path : str → option str.

(** [requests.compat.urljoin(base, url)]; [None] when the library rejects
    its arguments. *)
Variable urljoin : str → str → option str.

(** The body of the loop of [transform_img]: the text put in place of
    [img]. *)
Definition transform_img_repl (self : config) (img : node) : M str :=
  '(alt, width, height, src) ← lift (image_fields img);
  url_path ← or_raise ValueError (urljoin (src_url self) src);
  image_name ← download_image http_get urlparse_path url_path
                 (output_dir self);
  mret (image_macro image_name alt width height).

End ImagePass.

(** ** Searching the tree ([find], [find_all])

    What the program asks of [BeautifulSoup]: a tag name, a list of names or
    no name, together with conditions on [class] and [id].  A condition is a
    string, matched exactly, or a compiled regular expression; those of the
    program are plain words, for which [search] is a substring test. *)

Inductive matcher :=
  | exactly (s : str)
  | re_compile (s : str).

Definition matches (against : matcher) (value : str) : bool :=
  match against with
  | exactly s => bool_decide (value = s)
  | re_compile s => Str.contains s value
  end.

(** The values of a multi-valued attribute: the runs of characters that are
    not white space. *)
Fixpoint nonwhitespace (s : str) (run : str) : list str :=
  match s with
  | [] => if bool_decide (run = []) then [] else [reverse run]
  | c :: s' =>
      if Str.isspace c
      then (if bool_decide (run = []) then [] else [reverse run])
           ++ nonwhitespace s' []
      else nonwhitespace s' (c :: run)
  end.

(** [class] is kept as the list of its values: a condition holds of one of
    them or of the values joined with a space.  Any other attribute the program
    searches by is one string.  A missing attribute matches no condition. *)
Definition matches_attr (key : str) (against : matcher) (tag : node) : bool :=
  match attrs tag !! key with
  | None => false
  | Some value =>
      if bool_decide (key = lit "class") then
        let values := nonwhitespace value [] in
        existsb (matches against) values
        || matches against (Str.join (lit " ") values)
      else matches against value
  end.

Record strainer := Strainer {
  names : option (list str);
  conditions : list (str * matcher)
}.

Definition search_tag (sel : strainer) (n : node) : bool :=
  match n with
  | NavigableString _ => false
  | Tag nm _ _ =>
      match names sel with
      | None => true
      | Some l => bool_decide (nm ∈ l)
      end
      && forallb (λ c, matches_attr c.1 c.2 n) (conditions sel)
  end.

(** [tag.descendants]: the nodes below a node, in document order. *)
Fixpoint descendants (n : node) : list node :=
  match n with
  | NavigableString _ => []
  | Tag _ _ cs => concat ((λ c, c :: descendants c) <$> cs)
  end.

Definition find_all (sel : strainer) (n : node) : list node :=
  filter (λ d, search_tag sel d = true) (descendants n).

Definition find (sel : strainer) (n : node) : option node :=
  head (find_all sel n).

(** In-place surgery on the first match below a node: [f] gives the nodes
    that take its place ([extract]: none; [unwrap]: its children).  [None]
    when nothing matches. *)
Fixpoint rewrite_first (sel : strainer) (f : node → list node) (n : node)
  : option node :=
  match n with
  | NavigableString _ => None
  | Tag nm a cs =>
      Tag nm a <$>
        (fix go (cs : list node) : option (list node) :=
           match cs with
           | [] => None
           | c :: cs' =>
               if search_tag sel c then Some (f c ++ cs')
               else match rewrite_first sel f c with
                    | Some c' => Some (c' :: cs')
                    | None => cons c <$> go cs'
                    end
           end) cs
  end.

(** A loop [for a in site.find_all(...): a.replace_with(text)]: [repls]
    holds one text per match, in the order of [find_all].  A match inside a
    match is replaced in a subtree already cut off the tree, so its text is
    passed over. *)
Fixpoint replace_with (sel : strainer) (n : node) (repls : list str)
  : node * list str :=
  match n with
  | NavigableString _ => (n, repls)
  | Tag nm a cs =>
      let '(cs', repls') :=
        (fix go (cs : list node) (repls : list str) : list node * list str :=
           match cs with
           | [] => ([], repls)
           | c :: cs0 =>
               if search_tag sel c then
                 match repls with
                 | r :: repls0 =>
                     let '(cs1, repls1) :=
                       go cs0 (drop (length (find_all sel c)) repls0) in
                     (NavigableString r :: cs1, repls1)
                 | [] => (cs, [])
                 end
               else
                 let '(c', repls1) := replace_with sel c repls in
                 let '(cs1, repls2) := go cs0 repls1 in
                 (c' :: cs1, repls2)
           end) cs repls in
      (Tag nm a cs', repls')
  end.

(** ** Extractor *)

Inductive extractor_class :=
  | Extractor
  | Untools
  | UnintendedConsequences
  | TheMorningPaperExtractor.

(** An extractor object: its class, the parsed page [bs] and the working
    root [site], [None] until [cleanup] sets it. *)
Record extractor := MkExtractor {
  class_of : extractor_class;
  bs : node;
  site : option node
}.

(** A method call on a reference that may be [None]. *)
Definition on_tag {A} (o : option node) (f : node → A) : result A :=
  match o with
  | Some n => Return (f n)
  | None => Raise AttributeError
  end.

Definition by_name (nm : str) : strainer := Strainer (Some [nm]) [].
Definition by_class (nm : option str) (against : matcher) : strainer :=
  Strainer (option_map (λ n, [n]) nm) [(lit "class", against)].
Definition by_id (nm : option str) (against : matcher) : strainer :=
  Strainer (option_map (λ n, [n]) nm) [(lit "id", against)].

Definition article_top : strainer :=
  by_class (Some (lit "div")) (re_compile (lit "article-module--top--")).

(** [get_title]; the method of the base class is [pass]: it returns
    [None]. *)
Definition get_title (self : extractor) : result (option str) :=
  match class_of self with
  | Extractor => Return None
  | Untools =>
      let header := find article_top (bs self) in
      h2 ← on_tag header (find (by_name (lit "h2")));
      title ← on_tag h2 text;
      Return (Some title)
  | UnintendedConsequences =>
      title ← on_tag (find (by_name (lit "h1")) (bs self)) text;
      Return (Some title)
  | TheMorningPaperExtractor =>
      let header :=
        find (by_class (Some (lit "h1")) (exactly (lit "entry-title")))
             (bs self) in
      title ← on_tag header text;
      Return (Some title)
  end.

(** [get_published], the same in every class. *)
Definition get_published (self : extractor) : option str :=
  let time_published :=
    find (by_class (Some (lit "time"))
                   (exactly (lit "entry-date published"))) (bs self) in
  match time_published with
  | Some t => Some (text t)
  | None => None
  end.

Definition get_metadata (self : extractor) : result str :=
  match class_of self with
  | Untools =>
      let header := find article_top (bs self) in
      span ← on_tag header
               (find (by_class (Some (lit "span"))
                               (re_compile (lit "tag-module--tag--"))));
      tag ← on_tag span text;
      div ← on_tag header
              (find (by_class (Some (lit "div"))
                      (re_compile (lit "article-module--when-useful--"))));
      usage ← on_tag div text;
      Return (lit "." ++ tag ++ nl ++ lit "****" ++ nl ++ usage ++ nl
              ++ lit "****" ++ nl ++ nl)
  | _ => Return []
  end.

(** [remove_tag]: the first match, when there is one, is taken out. *)
Definition remove_tag (site : node) (sel : strainer) : node :=
  match rewrite_first sel (λ _, []) site with
  | Some site' => site'
  | None => site
  end.

(** The eight calls of [Extractor.cleanup], in order. *)
Definition boilerplate : list strainer :=
  [ by_class (Some (lit "div")) (exactly (lit "site-branding"));
    by_class (Some (lit "div")) (exactly (lit "navigation-top"));
    by_class (Some (lit "footer")) (exactly (lit "site-footer"));
    by_class (Some (lit "div")) (exactly (lit "searchsettings"));
    by_id (Some (lit "section")) (exactly (lit "ajaxsearchlitewidget-2"));
    by_id (Some (lit "aside")) (exactly (lit "secondary"));
    by_class (Some (lit "nav")) (exactly (lit "post-navigation"));
    by_id (Some (lit "header")) (exactly (lit "masthead")) ].

(** [Extractor.cleanup]: [remove_tag] calls [site.find], which a [site] that
    is [None] does not have. *)
Definition base_cleanup (self : extractor) : result extractor :=
  site' ← on_tag (site self) (λ s, foldl remove_tag s boilerplate);
  Return (MkExtractor (class_of self) (bs self) (Some site')).

Definition cleanup (self : extractor) : result extractor :=
  let narrowed :=
    match class_of self with
    | Extractor => site self
    | Untools =>
        find (by_class None (re_compile (lit "article-module--content--")))
             (bs self)
    | UnintendedConsequences => find (by_id None (exactly (lit "page"))) (bs self)
    | TheMorningPaperExtractor =>
        find (by_class (Some (lit "div")) (exactly (lit "entry-content")))
             (bs self)
    end in
  base_cleanup (MkExtractor (class_of self) (bs self) narrowed).

Definition entry_content : strainer :=
  by_class None (exactly (lit "entry-content")).

Definition get_content (self : extractor) : result (option node) :=
  match class_of self with
  | UnintendedConsequences => on_tag (site self) (find entry_content)
  | _ => Return (site self)
  end.

(** The transformer works in place on the node [get_content] returned, which
    is part of [site]: the extractor as it is once that node has become
    [content]. *)
Definition set_content (self : extractor) (content : node) : extractor :=
  match class_of self with
  | UnintendedConsequences =>
      MkExtractor (class_of self) (bs self)
        (s ← site self; rewrite_first entry_content (λ _, [content]) s)
  | _ => MkExtractor (class_of self) (bs self) (Some content)
  end.

Definition create_extractor (url_path : str) (bs : node) : extractor :=
  if Str.contains (lit "untools.co") url_path
  then MkExtractor Untools bs None
  else if Str.contains (lit "unintendedconsequenc") url_path
  then MkExtractor UnintendedConsequences bs None
  else if Str.contains (lit "blog.acolyer.org") url_path
  then MkExtractor TheMorningPaperExtractor bs None
  else MkExtractor Extractor bs None.

(** ** Transformer *)

(** The configuration file, as [read_configuration] loads it. *)
Module Conf.
Record t := Make {
  title : str;
  author : str;
  version : str;
  homepage : str;
  output_dir : str;
  urls : list str
}.
End Conf.

Inductive transformer_class := Transformer | UntoolsTransformer.

Record transformer := MkTransformer {
  transformer_class_of : transformer_class;
  transformer_config : config;
  doc : node;
  transformer_site : option node
}.

Definition create_transformer (url_path : str) (bs : node)
    (content : option node) (root : str) : transformer :=
  let config := Config url_path root in
  if Str.contains (lit "untools.co") url_path
  then MkTransformer UntoolsTransformer config bs content
  else if Str.contains (lit "unintendedconsequenc") url_path
  then MkTransformer Transformer config bs content
  else if Str.contains (lit "blog.acolyer.org") url_path
  then MkTransformer Transformer config bs content
  else MkTransformer Transformer config bs content.

Definition create_renderer (url_path : str) : renderer :=
  if Str.contains (lit "untools.co") url_path then UntoolsRenderer
  else if Str.contains (lit "unintendedconsequenc") url_path then Renderer
  else if Str.contains (lit "blog.acolyer.org") url_path then Renderer
  else Renderer.

Definition strong_tags : strainer := Strainer (Some [lit "strong"; lit "b"]) [].
Definition italic_tags : strainer :=
  Strainer (Some [lit "italic"; lit "i"; lit "em"]) [].

(** [transform_strong] and [transform_italic]: each match becomes its text
    between two markers. *)
Definition wrap_text (sel : strainer) (marker : str) (site : node) : node :=
  (replace_with sel site
     ((λ a, marker ++ text a ++ marker) <$> find_all sel site)).1.

Definition transform_strong : node → node := wrap_text strong_tags (lit "**").
Definition transform_italic : node → node := wrap_text italic_tags (lit "__").

(** [transform_a]: every [a] below the site must have an [href]. *)
Definition transform_a (site : node) : result node :=
  let sel := by_name (lit "a") in
  repls ← mapM (M := result)
            (λ a, href ← getitem a (lit "href");
                  Return (lit "link:" ++ href ++ lit "[" ++ text a ++ lit "]"))
            (find_all sel site);
  Return (replace_with sel site repls).1.

(** [transform_sources]: the first matching [div] is unwrapped. *)
Definition transform_sources (site : node) : result node :=
  let sel := by_class (Some (lit "div"))
               (re_compile (lit "article-module--sources--")) in
  match rewrite_first sel contents site with
  | Some site' => Return site'
  | None => Raise AttributeError
  end.

Section Pipeline.

Variable http_get : nat → str → option response.
Variable urlparse_path : str → option str.
Variable urljoin : str → str → option str.

(** [BeautifulSoup(content, 'html.parser')] and the two serialisers. *)
Variable html_parser : str → node.
Variable tag_str : node → str.
Variable prettify : node → str.

(** [re.sub('^' + root + '/', '', path)]: [root] is read as a pattern;
    [None] when it does not compile. *)
Variable re_sub_root : str → str → option str.

Definition transform_img (self : config) (site : node) : M node :=
  let sel := by_name (lit "img") in
  repls ← mapM (transform_img_repl http_get urlparse_path urljoin self)
            (find_all sel site);
  mret (replace_with sel site repls).1.

(** [transform]; the passes call [find_all] on [self.site]. *)
Definition transform (self : transformer) : M node :=
  site ← or_raise AttributeError (transformer_site self);
  let site := transform_strong site in
  let site := transform_italic site in
  site ← transform_img (transformer_config self) site;
  site ← lift (transform_a site);
  match transformer_class_of self with
  | Transformer => mret site
  | UntoolsTransformer => lift (transform_sources site)
  end.

(** [download_content].  The output file is opened before anything is
    written to it, and what has been written stays when the block is left
    by an exception. *)
Definition download_content (url_path root : str) : M str :=
  m ← sha256_of url_path;
  let file_path := Path.join root [lit ".cached"; m ++ lit ".html"] in
  output_path ← or_raise ValueError (urlparse_path url_path);
  let output_path := Str.rstrip_char 47 output_path in
  let output_path := Path.join root [Path.basename output_path] in
  makedirs output_path;;
  let output_path := Path.join output_path [lit "index.asciidoc"] in
  put_line output_path;;
  content ← load_file_content http_get url_path file_path;
  let bs := html_parser content in
  write_file output_path [];;
  let extractor := create_extractor url_path bs in
  title ← lift (get_title extractor);
  append_file output_path (lit "== " ++ format_optional title ++ nl ++ nl);;
  let time_published := get_published extractor in
  let published_info :=
    match time_published with
    | Some t => lit "published on " ++ t
    | None => []
    end in
  metadata ← lift (get_metadata extractor);
  let article_metadata :=
    lit "link:" ++ url_path ++ lit "[original article] " ++ published_info
    ++ nl ++ nl ++ metadata in
  append_file output_path article_metadata;;
  extractor ← lift (cleanup extractor);
  content ← lift (get_content extractor);
  let transformer := create_transformer url_path bs content root in
  content ← transform transformer;
  let extractor := set_content extractor content in
  let renderer := create_renderer url_path in
  content ← lift (get_content extractor);
  content ← or_raise TypeError content;
  let rendered := render_tags tag_str prettify renderer content in
  append_file output_path (written rendered);;
  mapM put_line (printed rendered);;
  mret output_path.

Definition tab : str := [9].

Definition makefile_template : str :=
  lit "html:" ++ nl
  ++ tab ++ lit "asciidoctor index.asciidoc -d book -b html5 -D output" ++ nl
  ++ tab ++ lit "cp -r images output/" ++ nl
  ++ nl
  ++ lit "epub:" ++ nl
  ++ tab ++ lit "asciidoctor-epub3 index.asciidoc -d book -D output" ++ nl.

Definition generate_makefile (output_dir : str) : M unit :=
  write_file (Path.join output_dir [lit "Makefile"]) makefile_template.

(** The master index document. *)
Definition index_document (config : Conf.t) (files : list str) : str :=
  let included_files :=
    Str.join nl ((λ x, lit "include::" ++ x ++ lit "[]") <$> files) in
  lit "= " ++ Conf.title config ++ nl
  ++ Conf.author config ++ nl
  ++ Conf.version config ++ nl
  ++ lit ":toc:" ++ nl
  ++ lit ":imagesdir: images" ++ nl
  ++ lit ":homepage: " ++ Conf.homepage config ++ nl
  ++ nl
  ++ included_files ++ nl.

(** [main] once the configuration has been read. *)
Definition main (config : Conf.t) : M unit :=
  let paths := Conf.urls config in
  let root := Conf.output_dir config in
  makedirs (Path.join root [lit ".cached"]);;
  makedirs (Path.join root [lit "images"]);;
  generate_makefile root;;
  files ← mapM (λ url_path,
                  output_path ← download_content url_path root;
                  or_raise re_error (re_sub_root root output_path))
            paths;
  write_file (Path.join root [lit "index.asciidoc"])
             (index_document config files).

End Pipeline.

(** The triple of classes the three factory functions give one URL. *)
Definition strategy_triple (url_path : str) (bs : node)
    (content : option node) (root : str)
  : extractor_class * transformer_class * renderer :=
  (class_of (create_extractor url_path bs),
   transformer_class_of (create_transformer url_path bs content root),
   create_renderer url_path).

(** [needle in hay] as a statement: [needle] occurs in [hay]. *)
Definition occurs_in (needle hay : str) : Prop :=
  ∃ before after, hay = before ++ needle ++ after.

(** One entry of a [srcset], read the way the loop of [transform_img] reads
    it: the first two words of [s.strip().split(' ')], a URL and its
    descriptor.  [None] when there is no second word. *)
Definition candidate (s : str) : option (str * str) :=
  match Str.split 32 (Str.strip s) with
  | url :: descriptor :: _ => Some (url, descriptor)
  | _ => None
  end.

(** An image element with the three descriptors of the specification's
    example. *)
Definition responsive_img : node :=
  Tag (lit "img")
    (list_to_map [ (lit "alt", lit "A"); (lit "src", lit "s.png");
                   (lit "width", lit "100"); (lit "height", lit "50");
                   (lit "srcset",
                    lit "a.png 320w, b.png 640w, c.png 1024w") ]) [].

(** What [os.path.join] puts before a component that is relative: the
    first path, with a separator unless it is empty or ends with one. *)
Definition dir_prefix (root : str) : str :=
  if bool_decide (root = []) || Path.endswith_sep root then root
  else root ++ [Path.sep].

(** The file name [compute_image_path] derives from a URL: the hexadecimal
    SHA-256 of its UTF-8 bytes, then the extension of its path component. *)
Definition image_name_of (bytes : list N) (u_path : str) : str :=
  Sha256.hexdigest bytes ++ (Path.splitext u_path).2.



(** ** A small article, for the examples

    One URL of a known site, a page with a heading, a paragraph that holds
    an image, and a tag the renderer does not know; stand-ins for the
    library calls on just these. *)

Definition example_url : str :=
  lit "https://unintendedconsequenc.es/post/article-1/".

Definition example_photo : str := lit "https://example.com/images/photo.png".

Definition example_urlparse_path (url : str) : option str :=
  if bool_decide (url = example_photo) then Some (lit "/images/photo.png")
  else if bool_decide (url = example_url) then Some (lit "/post/article-1/")
  else None.

Definition example_urljoin (base url : str) : option str := Some url.

Definition example_page : node :=
  Tag (lit "[document]") ∅
    [ Tag (lit "h1") ∅ [NavigableString (lit "Article one")];
      Tag (lit "div") {[ lit "id" := lit "page" ]}
        [ Tag (lit "div") {[ lit "class" := lit "entry-content" ]}
            [ Tag (lit "p") ∅
                [ NavigableString (lit "Hello ");
                  Tag (lit "b") ∅ [NavigableString (lit "world")];
                  Tag (lit "img")
                    (list_to_map [ (lit "alt", lit "A photo");
                                   (lit "src", example_photo) ]) [] ];
              Tag (lit "video") ∅ [] ] ] ].

Definition example_html_parser (content : str) : node := example_page.

Definition example_tag_str (tag : node) : str := lit "<video></video>".

Definition example_prettify (tag : node) : str := [].

(** [re.sub] for a root that holds no special character. *)
Definition example_re_sub_root (root path : str) : option str :=
  if Str.startswith (root ++ lit "/") path
  then Some (drop (length root + 1) path) else Some path.

Definition example_config : Conf.t :=
  Conf.Make (lit "A book") (lit "An author") (lit "v1.0")
            (lit "https://example.com") (lit "out") [example_url].

(** A cache that holds the page and the image of the article. *)
Definition example_cache : state :=
  State
    (list_to_map
       [ (Path.join (lit "out")
            [lit ".cached";
             Sha256.hexdigest (default [] (encode_utf8 example_url))
             ++ lit ".html"],
          File (lit "<html>"));
         (Path.join (lit "out")
            [lit "images";
             image_name_of (default [] (encode_utf8 example_photo))
                           (lit "/images/photo.png")],
          File (lit "PNG")) ])
    [] [].

Definition example_main : M () :=
  main (λ _ _, None) example_urlparse_path example_urljoin
       example_html_parser example_tag_str example_prettify
       example_re_sub_root example_config.

(** The paths a run writes below a root: those of one component, and the
    [index.asciidoc] of a directory of one component. *)
Definition own_path (root path : str) : Prop :=
  ∃ b, (Path.sep ∉ b)
       ∧ (path = dir_prefix root ++ b
          ∨ path = dir_prefix (dir_prefix root ++ b) ++ lit "index.asciidoc").

(** ** Two runs side by side

    To compare a second run with a first one that made no request, the
    states of the two are related at each point of the program.  [own] is
    the set of paths the program writes; [σ1] is the state the first run
    ended in, from which the second starts. *)

(** What stands at a path: a file, a directory, or nothing. *)
Definition kind_at (σ : state) (path : str) : option bool :=
  match fs σ !! path with
  | Some (File _) => Some true
  | Some Directory => Some false
  | None => None
  end.

(** What a path names in [s] it still names at the end of the first run. *)
Definition future (σ1 s : state) : Prop :=
  ∀ path k, kind_at s path = Some k → kind_at σ1 path = Some k.

(** The second run, in [t], sees at each path what the first saw in [s], or
    what the first run left there; and only what the first saw at a path the
    program does not write. *)
Definition sim (own : str → Prop) (σ1 s t : state) : Prop :=
  ∀ path, (¬ own path → fs t !! path = fs s !! path)
          ∧ (fs t !! path = fs s !! path ∨ fs t !! path = fs σ1 !! path).

(** The two runs agree on the paths of [synced]. *)
Definition agree (synced : str → Prop) (s t : state) : Prop :=
  ∀ path, synced path → fs t !! path = fs s !! path.

(** A value a computation can return. *)
Definition returns {A} (m : M A) (a : A) : Prop :=
  ∃ s s', m s = (Return a, s').

(** Requests are only ever added to the log. *)
Definition grows {A} (m : M A) : Prop :=
  ∀ s r s', m s = (r, s') → ∃ l, requests s' = requests s ++ l.

(** A computation the second run repeats: requests are only ever added to
    the log; and when it returns without a request, it has kept what every
    path names, it has written to [own] paths only, and run again from a
    related state it returns the same value, makes no request and leaves
    related states. *)
Definition repeatable (own pre post : str → Prop) {A} (m : M A) : Prop :=
  grows m
  ∧ ∀ s a s', m s = (Return a, s') → requests s' = requests s →
      future s' s
      ∧ (∀ path, ¬ own path → fs s' !! path = fs s !! path)
      ∧ ∀ σ1 t, future σ1 s' → sim own σ1 s t → agree pre s t →
          ∃ t', m t = (Return a, t')
                ∧ requests t' = requests t
                ∧ sim own σ1 s' t'
                ∧ agree post s' t'.

(** A literal holds no separator: by inspection of its characters. *)
Ltac no_sep :=
  vm_compute;
  let H := fresh in
  intros H; repeat (apply elem_of_cons in H as [[=]|H]);
  by apply elem_of_nil in H.

Arguments Sha256.hexdigest : simpl never.
Arguments image_name_of : simpl never.
Arguments Path.join : simpl never.

(** ** Definitions for the further properties *)

(** A character of a hexadecimal digest: a digit or a letter from [a] to
    [f]. *)
Definition is_hex_digit (c : N) : bool :=
  ((48 <=? c) && (c <=? 57)) || ((97 <=? c) && (c <=? 102)).

(** One step back through a sequence that returned: its first part
    returned too. *)
Ltac bind_inv H :=
  match type of H with
  | (?m ≫= ?k) ?σ = (Return _, _) =>
      let a := fresh "a" in
      let s := fresh "s" in
      let Ha := fresh "Ha" in
      change ((m ≫= k) σ) with (bind m k σ) in H;
      unfold bind in H;
      destruct (m σ) as [[a|?|?] s] eqn:Ha; [|discriminate H..];
      cbv beta zeta in H
  end.

(** A client that answers every request with a page; a reading of URLs that
    gives every URL but the photo's the path [path]; an output directory
    as [main] prepares it. *)
Definition example_http_get (n : nat) (url : str) : option response :=
  Some (Response 200 (lit "<html>")).

Definition example_urlparse_as (path url : str) : option str :=
  if bool_decide (url = example_photo) then Some (lit "/images/photo.png")
  else Some path.

Definition example_fresh : state :=
  State (list_to_map [ (lit "out/.cached", Directory);
                       (lit "out/images", Directory) ]) [] [].



(** The file of an article below a root: the [index.asciidoc] of a
    directory of one component. *)
Definition article_path (root path : str) : Prop :=
  ∃ b, (Path.sep ∉ b)
       ∧ path = Path.join (Path.join root [b]) [lit "index.asciidoc"].

(** What a computation leaves in place, however it ends: what a path names
    it still names afterwards, and a file at a path outside [written] keeps
    its content. *)
Definition keeps (written : str → Prop) {A} (m : M A) : Prop :=
  ∀ s r s', m s = (r, s') →
    future s' s
    ∧ ∀ path content, ¬ written path →
        fs s !! path = Some (File content) →
        fs s' !! path = Some (File content).

(** A node and the nodes below it, in document order. *)
Definition subtree (n : node) : list node := n :: descendants n.

(** A node without what lies below it: a tag with its name and attributes,
    a string as it is. *)
Definition shallow (n : node) : node :=
  match n with
  | NavigableString _ => n
  | Tag nm a _ => Tag nm a []
  end.

(** The tree written out in document order: every node of [subtree n],
    without what lies below it, with its depth. *)
Fixpoint outline (depth : nat) (n : node) : list (nat * node) :=
  (depth, shallow n)
  :: match n with
     | NavigableString _ => []
     | Tag _ _ cs => concat (outline (S depth) <$> cs)
     end.

(** The entries of an outline that the selector passes over. *)
Definition unmatched (sel : strainer) (l : list (nat * node)) : Prop :=
  Forall (λ x, search_tag sel x.2 = false) l.

(** A list of entries that does not go on below [depth]. *)
Definition closes (depth : nat) (l : list (nat * node)) : Prop :=
  match l with
  | [] => True
  | x :: _ => (x.1 ≤ depth)%nat
  end.


(** The text a match of [code_pattern] covers: the wrapper around a language
    and a content, with white space [ws] after [[code]. *)
Definition wrapper (ws lang content : str) : str :=
  lit "[code" ++ ws ++ lit "lang=" ++ lang ++ lit "]" ++ content
  ++ lit "[/code]".

(** The nodes below [n] that a loop over the matches of [sel] leaves in the
    tree: those that are no match and lie below none. *)
Fixpoint kept (sel : strainer) (n : node) : list node :=
  match n with
  | NavigableString _ => []
  | Tag _ _ cs =>
      concat ((λ c, if search_tag sel c then [] else c :: kept sel c) <$> cs)
  end.

(** The line of one list item. *)
Definition item_line (bullet : str) (li : node) : str :=
  bullet ++ lit " " ++ text li ++ nl.

(** Whether a child of a list is an item. *)
Definition is_li (n : node) : bool :=
  bool_decide (name n = Some (lit "li")).

(** * Properties *)

(** ** Strings *)

Lemma startswith_spec (p s : str) :
  Str.startswith p s = true ↔ ∃ after, s = p ++ after.
Proof.
  revert s. induction p as [|a p IH]; intros s; simpl.
  - split; [eauto | done].
  - destruct s as [|b s]; simpl.
    + split; [done | intros [? ?]; discriminate].
    + rewrite andb_true_iff, N.eqb_eq, IH. split.
      * intros [-> [after ->]]. eauto.
      * intros [after [= -> ->]]. eauto.
Qed.

Lemma contains_spec (needle hay : str) :
  Str.contains needle hay = true ↔ occurs_in needle hay.
Proof.
  unfold occurs_in. induction hay as [|c hay IH].
  - simpl. rewrite orb_false_r, startswith_spec. split.
    + intros [after H]. exists [], after. done.
    + intros (before & after & H). symmetry in H.
      apply app_eq_nil in H as [-> H]. eauto.
  - simpl. rewrite orb_true_iff, startswith_spec, IH. split.
    + intros [[after H] | (before & after & H)].
      * exists [], after. done.
      * exists (c :: before), after. by rewrite H.
    + intros (before & after & H). destruct before as [|b before].
      * left. eauto.
      * right. injection H as -> ->. eauto.
Qed.

Lemma contains_false (needle hay : str) :
  Str.contains needle hay = false ↔ ¬ occurs_in needle hay.
Proof.
  rewrite <- contains_spec. destruct (Str.contains needle hay); split; done.
Qed.

(** ** Site strategy *)

(** C8: the (Extractor, Transformer, Renderer) triple of a URL is chosen by
    substring match against 'untools.co', then 'unintendedconsequenc', then
    'blog.acolyer.org'; the first identifier that occurs wins, and a URL in
    which none occurs gets the generic triple. *)
Theorem site_strategy_first_match (url_path : str) (bs : node)
    (content : option node) (root : str) :
  let triple := strategy_triple url_path bs content root in
  (occurs_in (lit "untools.co") url_path →
   triple = (Untools, UntoolsTransformer, UntoolsRenderer))
  ∧ (¬ occurs_in (lit "untools.co") url_path →
     occurs_in (lit "unintendedconsequenc") url_path →
     triple = (UnintendedConsequences, Transformer, Renderer))
  ∧ (¬ occurs_in (lit "untools.co") url_path →
     ¬ occurs_in (lit "unintendedconsequenc") url_path →
     occurs_in (lit "blog.acolyer.org") url_path →
     triple = (TheMorningPaperExtractor, Transformer, Renderer))
  ∧ (¬ occurs_in (lit "untools.co") url_path →
     ¬ occurs_in (lit "unintendedconsequenc") url_path →
     ¬ occurs_in (lit "blog.acolyer.org") url_path →
     triple = (Extractor, Transformer, Renderer)).
Proof.
  unfold strategy_triple, create_extractor, create_transformer,
    create_renderer.
  repeat split; intros;
    repeat match goal with
           | H : occurs_in _ _ |- _ => apply contains_spec in H; rewrite H
           | H : ¬ occurs_in _ _ |- _ => apply contains_false in H; rewrite H
           end; reflexivity.
Qed.

(** A URL in which two identifiers occur: the first of the list wins. *)
Lemma site_strategy_first_match_witness :
  strategy_triple (lit "https://untools.co/from/blog.acolyer.org")
    (Tag (lit "[document]") ∅ []) None (lit "out")
  = (Untools, UntoolsTransformer, UntoolsRenderer).
Proof.
  apply (site_strategy_first_match
           (lit "https://untools.co/from/blog.acolyer.org")).
  exists (lit "https://"), (lit "/from/blog.acolyer.org"). reflexivity.
Defined.

(** ** Title of the generic extractor *)

(** C9, as the code has it: for a URL in which no site identifier occurs,
    [get_title] of the generic Extractor looks nothing up and returns [None],
    whatever the page holds; it never raises. *)
Theorem generic_get_title_returns_None (url_path : str) (bs : node) :
  ¬ occurs_in (lit "untools.co") url_path →
  ¬ occurs_in (lit "unintendedconsequenc") url_path →
  ¬ occurs_in (lit "blog.acolyer.org") url_path →
  class_of (create_extractor url_path bs) = Extractor
  ∧ get_title (create_extractor url_path bs) = Return None.
Proof.
  intros H1 H2 H3. unfold create_extractor.
  apply contains_false in H1, H2, H3. rewrite H1, H2, H3. done.
Qed.

Lemma generic_get_title_returns_None_witness :
  get_title (create_extractor (lit "https://example.com/a")
                              (Tag (lit "[document]") ∅ []))
  = Return None.
Proof.
  apply (generic_get_title_returns_None (lit "https://example.com/a"));
    apply contains_false; reflexivity.
Defined.

(** C9 as stated fails: on a page without any heading, and a URL of no known
    site, the title lookup of the generic Extractor does not fail. *)
Lemma generic_get_title_no_lookup_error :
  let url_path := lit "https://example.com/a" in
  let bs := Tag (lit "[document]") ∅ [Tag (lit "p") ∅ []] in
  Str.contains (lit "untools.co") url_path = false
  ∧ Str.contains (lit "unintendedconsequenc") url_path = false
  ∧ Str.contains (lit "blog.acolyer.org") url_path = false
  ∧ find (by_name (lit "h1")) bs = None
  ∧ get_title (create_extractor url_path bs) = Return None
  ∧ ∀ e, get_title (create_extractor url_path bs) ≠ Raise e.
Proof. vm_compute. repeat split; done. Qed.

(** ** Renderer *)

Lemma output_app_nothing_l (o : output) : nothing +++ o = o.
Proof. by destruct o. Qed.

Lemma output_app_nothing_r (o : output) : o +++ nothing = o.
Proof. destruct o. unfold output_app. simpl. by rewrite !app_nil_r. Qed.

Lemma output_app_assoc (a b c : output) : (a +++ b) +++ c = a +++ (b +++ c).
Proof. unfold output_app. simpl. by rewrite !app_assoc. Qed.

Lemma output_concat_app (l1 l2 : list output) :
  output_concat (l1 ++ l2) = output_concat l1 +++ output_concat l2.
Proof.
  induction l1 as [|o l1 IH]; simpl.
  - by rewrite output_app_nothing_l.
  - by rewrite IH, output_app_assoc.
Qed.

Section RendererFacts.

Variable tag_str : node → str.
Variable prettify : node → str.

(** The loop of [render_tags] over children listed one after the other. *)
Lemma render_tags_app (self : renderer) (nm : str) (a : gmap str str)
    (before after : list node) :
  render_tags tag_str prettify self (Tag nm a (before ++ after))
  = render_tags tag_str prettify self (Tag nm a before)
    +++ render_tags tag_str prettify self (Tag nm a after).
Proof.
  unfold render_tags. simpl. by rewrite fmap_app, output_concat_app.
Qed.

(** The test [matches is None] never holds: [render_tag_pre] writes the
    blocks of the matches and nothing else. *)
Lemma render_pre_only_matches (tag : node) :
  render_pre tag = output_concat (render_source <$> Re.scan None 0 (text tag)).
Proof.
  unfold render_pre, Re.finditer_code_pattern. simpl.
  by rewrite output_app_nothing_r.
Qed.

End RendererFacts.

(** C2, first half, on the example of the specification: the text
    [[code lang=python]print(1)[/code]] renders to a block that begins
    [[source, python]] and holds [print(1)] between two [----] fences. *)
Lemma render_tag_pre_round_trip :
  render_pre
    (Tag (lit "pre") ∅
       [NavigableString (lit "[code lang=python]print(1)[/code]")])
  = write (lit "[source, python]" ++ nl ++ lit "----" ++ nl
           ++ lit "print(1)" ++ nl ++ lit "----" ++ nl).
Proof. vm_compute. reflexivity. Qed.

(** Two wrappers in one text: the groups are greedy and the dot matches a
    newline, so there is one match, from the first [[code] to the last
    [[/code]], and one block. *)
Lemma render_tag_pre_greedy :
  render_pre
    (Tag (lit "pre") ∅
       [NavigableString (lit "[code lang=a]x[/code]" ++ nl
                         ++ lit "[code lang=b]y[/code]")])
  = write (lit "[source, a]x[/code]" ++ nl ++ lit "[code lang=b]" ++ nl
           ++ lit "----" ++ nl ++ lit "y" ++ nl ++ lit "----" ++ nl).
Proof. vm_compute. reflexivity. Qed.

(** C2, second half, fails on the code: a [pre] block whose text has no
    [[code lang=X]...[/code]] wrapper is not written inside a [[listing]]
    fence; nothing at all is written for it, for [re.finditer] never returns
    [None].  So is it in the loop of [render_tags], with either renderer. *)
Theorem render_tag_pre_drops_unwrapped_text :
  let tag := Tag (lit "pre") ∅ [NavigableString (lit "print(1)")] in
  Re.finditer_code_pattern (text tag) = Some []
  ∧ render_pre tag = nothing
  ∧ render_pre tag ≠ render_listing tag
  ∧ (∀ tag_str prettify self,
       render_tags tag_str prettify self (Tag (lit "div") ∅ [tag]) = nothing)
  ∧ (∀ tag', render_pre tag'
             = output_concat (render_source <$> Re.scan None 0 (text tag'))).
Proof.
  split; [vm_compute; reflexivity|].
  split; [vm_compute; reflexivity|].
  split; [vm_compute; intros [=]|].
  split; [intros; vm_compute; reflexivity|].
  apply render_pre_only_matches.
Qed.

(** C6: a child whose tag name is not in the dispatch table is printed (a
    line of [=] signs, then the tag as [str] shows it) and nothing is written
    for it; a node without a name is skipped; the children before and after
    are rendered as they are without it. *)
Theorem render_tags_unknown_tag (tag_str prettify : node → str)
    (self : renderer) (nm : str) (a : gmap str str)
    (before after : list node) (child : node) :
  let render := render_tags tag_str prettify self in
  (∀ unknown, name child = Some unknown → handlers !! unknown = None →
     render (Tag nm a (before ++ child :: after))
     = render (Tag nm a before)
       +++ Output [] [lit "============="; tag_str child]
       +++ render (Tag nm a after))
  ∧ (name child = None →
     render (Tag nm a (before ++ child :: after))
     = render (Tag nm a (before ++ after))).
Proof.
  simpl. split.
  - intros unknown Hname Hnone. rewrite render_tags_app.
    change (child :: after) with ([child] ++ after).
    rewrite render_tags_app. f_equal. f_equal.
    destruct child as [|nm' a' cs]; [done|]. injection Hname as ->.
    unfold render_tags. simpl. by rewrite Hnone.
  - intros Hname. destruct child as [s|]; [|done].
    rewrite !render_tags_app. f_equal.
Qed.

(** The example of the specification: a tag that was never registered next
    to a paragraph; the paragraph's text is written. *)
Lemma render_tags_unknown_tag_witness :
  render_tags (λ _, lit "<video></video>") (λ _, []) Renderer
    (Tag (lit "div") ∅
       ([] ++ Tag (lit "video") ∅ []
           :: [Tag (lit "p") ∅ [NavigableString (lit "Hello")]]))
  = Output (lit "Hello" ++ nl ++ nl)
           [lit "============="; lit "<video></video>"].
Proof.
  rewrite (proj1 (render_tags_unknown_tag (λ _, lit "<video></video>")
                    (λ _, []) Renderer (lit "div") ∅ []
                    [Tag (lit "p") ∅ [NavigableString (lit "Hello")]]
                    (Tag (lit "video") ∅ [])) (lit "video"));
    reflexivity.
Defined.

(** ** The state monad *)

Lemma bind_Return {A B} (m : M A) (k : A → M B) (σ σ' : state) (a : A) :
  m σ = (Return a, σ') → (m ≫= k) σ = k a σ'.
Proof. intros H. unfold mbind, M_bind, bind. by rewrite H. Qed.


Lemma bind_Raise {A B} (m : M A) (k : A → M B) (σ σ' : state) (e : exception) :
  m σ = (Raise e, σ') → (m ≫= k) σ = (Raise e, σ').
Proof. intros H. unfold mbind, M_bind, bind. by rewrite H. Qed.

(** A computation that returns went through a first part that returned. *)
Lemma bind_Return_inv {A B} (m : M A) (k : A → M B) (σ σ'' : state) (b : B) :
  (m ≫= k) σ = (Return b, σ'') →
  ∃ a σ', m σ = (Return a, σ') ∧ k a σ' = (Return b, σ'').
Proof.
  unfold mbind, M_bind, bind. destruct (m σ) as [[a| |] σ']; [eauto|done..].
Qed.

Lemma lift_eq {A} (r : result A) (σ : state) : lift r σ = (r, σ).
Proof. done. Qed.

Lemma mapM_Return_inv {A B} (f : A → M B) (l : list A) (σ σ' : state)
    (ys : list B) :
  mapM f l σ = (Return ys, σ') →
  length ys = length l
  ∧ ∀ x, x ∈ l → ∃ y σ1 σ2, f x σ1 = (Return y, σ2).
Proof.
  revert σ ys. induction l as [|x l IH]; intros σ ys; simpl.
  - intros [= <- <-]. split; [done|]. intros x Hx. by apply elem_of_nil in Hx.
  - intros H. apply bind_Return_inv in H as (y & σ1 & Hy & H).
    apply bind_Return_inv in H as (ys' & σ2 & Hys & H).
    injection H as <- <-. apply IH in Hys as [Hlen Hall]. split.
    + simpl. by rewrite Hlen.
    + intros x' [->|Hx]%elem_of_cons; eauto.
Qed.

(** ** The image pass *)

Section ImagePassFacts.

Variable http_get : nat → str → option response.
Variable urlparse_path : str → option str.
Variable urljoin : str → str → option str.

Lemma image_fields_alt (img : node) (alt width height src : str) :
  image_fields img = Return (alt, width, height, src) →
  attrs img !! lit "alt" = Some alt ∧ is_Some (attrs img !! lit "src").
Proof.
  unfold image_fields, getitem, mbind, result_mbind, result_bind.
  destruct (attrs img !! lit "alt") as [alt'|]; [|done].
  destruct (attrs img !! lit "src") as [src'|]; [|done].
  destruct (attrs img !! lit "srcset") as [srcset|].
  - destruct (choose_from_srcset _ _ _) as [[[[? ?] ?] ?]| |]; [|done..].
    intros [= -> <- <- <-]. eauto.
  - intros [= -> <- <- <-]. eauto.
Qed.

Lemma transform_img_repl_Return (self : config) (img : node) (σ σ' : state)
    (repl : str) :
  transform_img_repl http_get urlparse_path urljoin self img σ
  = (Return repl, σ') →
  ∃ alt width height src image_name,
    image_fields img = Return (alt, width, height, src)
    ∧ repl = image_macro image_name alt width height.
Proof.
  unfold transform_img_repl. intros H.
  apply bind_Return_inv in H as ([[[alt width] height] src] & σ1 & Hf & H).
  rewrite lift_eq in Hf. injection Hf as Hf <-.
  apply bind_Return_inv in H as (url_path & σ2 & _ & H).
  apply bind_Return_inv in H as (image_name & σ3 & _ & H).
  injection H as <- <-. eauto 10.
Qed.

End ImagePassFacts.

(** C10: in the image pass [alt] and [src] are mandatory and [width],
    [height] and [srcset] are not.  An [img] without [alt] raises [KeyError]
    on ['alt'], one with [alt] and without [src] raises it on ['src'], both
    before anything is fetched; an [img] with only those two gets empty
    [width] and [height]; every replacement text the loop produces is
    [image:<name>[<alt>,<width>,<height>]] with the [alt] of the element;
    and a pass that completes met no [img] without [alt] or [src]. *)
Theorem transform_img_mandatory_attributes
    (http_get : nat → str → option response)
    (urlparse_path : str → option str) (urljoin : str → str → option str)
    (self : config) (img : node) (σ : state) :
  let body := transform_img_repl http_get urlparse_path urljoin self in
  (attrs img !! lit "alt" = None →
   body img σ = (Raise (KeyError (lit "alt")), σ))
  ∧ (is_Some (attrs img !! lit "alt") → attrs img !! lit "src" = None →
     body img σ = (Raise (KeyError (lit "src")), σ))
  ∧ (∀ alt src, attrs img !! lit "alt" = Some alt →
       attrs img !! lit "src" = Some src →
       attrs img !! lit "width" = None → attrs img !! lit "height" = None →
       attrs img !! lit "srcset" = None →
       image_fields img = Return (alt, [], [], src))
  ∧ (∀ repl σ', body img σ = (Return repl, σ') →
       ∃ alt image_name width height,
         attrs img !! lit "alt" = Some alt
         ∧ is_Some (attrs img !! lit "src")
         ∧ repl = image_macro image_name alt width height)
  ∧ (∀ site site' σ',
       transform_img http_get urlparse_path urljoin self site σ
       = (Return site', σ') →
       ∀ i, i ∈ find_all (by_name (lit "img")) site →
         is_Some (attrs i !! lit "alt") ∧ is_Some (attrs i !! lit "src")).
Proof.
  cbv zeta. split; [|split; [|split; [|split]]].
  - intros Halt. unfold transform_img_repl. apply bind_Raise.
    rewrite lift_eq. unfold image_fields, getitem. by rewrite Halt.
  - intros [alt Halt] Hsrc. unfold transform_img_repl. apply bind_Raise.
    rewrite lift_eq. unfold image_fields, getitem. by rewrite Halt, Hsrc.
  - intros alt src Halt Hsrc Hw Hh Hset.
    unfold image_fields, getitem, get. by rewrite Halt, Hsrc, Hw, Hh, Hset.
  - intros repl σ' H.
    apply transform_img_repl_Return in H
      as (alt & width & height & src & image_name & Hf & ->).
    apply image_fields_alt in Hf as [Halt Hsrc]. eauto 10.
  - intros site site' σ' H i Hi. unfold transform_img in H.
    apply bind_Return_inv in H as (repls & σ1 & Hm & _).
    apply mapM_Return_inv in Hm as [_ Hall].
    destruct (Hall i Hi) as (y & σ2 & σ3 & Hy).
    apply transform_img_repl_Return in Hy
      as (alt & width & height & src & image_name & Hf & _).
    apply image_fields_alt in Hf as [Halt Hsrc]. eauto.
Qed.

(** An [img] with a [src] and no [alt]: the body of the loop raises. *)
Lemma transform_img_mandatory_attributes_witness :
  transform_img_repl (λ _ _, None) (λ _, None) (λ _ _, None)
    (Config (lit "https://example.com/a") (lit "out"))
    (Tag (lit "img") {[ lit "src" := lit "a.png" ]} []) (State ∅ [] [])
  = (Raise (KeyError (lit "alt")), State ∅ [] []).
Proof.
  apply (transform_img_mandatory_attributes (λ _ _, None) (λ _, None)
           (λ _ _, None) (Config (lit "https://example.com/a") (lit "out"))
           (Tag (lit "img") {[ lit "src" := lit "a.png" ]} [])
           (State ∅ [] [])).
  vm_compute. reflexivity.
Defined.

(** ** The order of strings and [sorted] *)

Lemma compare_antisym (a b : str) :
  Str.compare b a = CompOpp (Str.compare a b).
Proof.
  revert b. induction a as [|x a IH]; intros [|y b]; simpl; try done.
  rewrite (N.compare_antisym x y). destruct (x ?= y); simpl; auto.
Qed.

Lemma leb_total (a b : str) : Str.leb a b = true ∨ Str.leb b a = true.
Proof.
  unfold Str.leb. rewrite (compare_antisym a b).
  destruct (Str.compare a b); simpl; auto.
Qed.

Lemma compare_Eq (a b : str) : Str.compare a b = Eq → a = b.
Proof.
  revert b. induction a as [|x a IH]; intros [|y b]; simpl; try done.
  destruct (x ?= y) eqn:Hxy; try done.
  apply N.compare_eq in Hxy as ->. intros H. by rewrite (IH b H).
Qed.

Lemma leb_trans (a b c : str) :
  Str.leb a b = true → Str.leb b c = true → Str.leb a c = true.
Proof.
  unfold Str.leb. revert b c.
  induction a as [|x a IH]; intros [|y b] [|z c]; simpl; try done.
  destruct (x ?= y) eqn:Hxy; destruct (y ?= z) eqn:Hyz; try done.
  - apply N.compare_eq in Hxy as ->. rewrite Hyz. apply IH.
  - apply N.compare_eq in Hxy as ->. by rewrite Hyz.
  - apply N.compare_eq in Hyz as <-. by rewrite Hxy.
  - apply N.compare_lt_iff in Hxy. apply N.compare_lt_iff in Hyz.
    assert ((x ?= z) = Lt) as ->; [|done].
    apply N.compare_lt_iff. by etrans.
Qed.

Lemma leb_refl (a : str) : Str.leb a a = true.
Proof. by destruct (leb_total a a). Qed.

(** The first element of [sorted(l)] is an element of [l] below all others. *)
Lemma sorted_head (l : list str) :
  match head (Str.sorted l) with
  | Some m => m ∈ l ∧ ∀ y, y ∈ l → Str.leb m y = true
  | None => l = []
  end.
Proof.
  induction l as [|x l IH]; [done|]. simpl.
  destruct (Str.sorted l) as [|h t]; simpl in *.
  - subst l. split; [apply list_elem_of_here|].
    intros y ->%list_elem_of_singleton. apply leb_refl.
  - destruct IH as [Hh Hmin]. destruct (Str.leb x h) eqn:Hxh; simpl.
    + split; [apply list_elem_of_here|].
      intros y [->|Hy]%elem_of_cons; [apply leb_refl|].
      eapply leb_trans; [exact Hxh|]. by apply Hmin.
    + split; [by apply list_elem_of_further|].
      intros y [->|Hy]%elem_of_cons; [|by apply Hmin].
      destruct (leb_total x h) as [H|H]; [congruence|done].
Qed.

(** ** The responsive source set *)

Lemma add_candidate_Return (imgs : gmap str str) (s url descriptor : str) :
  candidate s = Some (url, descriptor) →
  add_candidate imgs s = Return (<[descriptor := url]> imgs).
Proof.
  unfold candidate, add_candidate.
  destruct (Str.split 32 (Str.strip s)) as [|u [|d ss]]; try done.
  by intros [= -> ->].
Qed.

Lemma add_candidate_Raise (imgs : gmap str str) (s : str) :
  candidate s = None → add_candidate imgs s = Raise IndexError.
Proof.
  unfold candidate, add_candidate.
  by destruct (Str.split 32 (Str.strip s)) as [|u [|d ss]].
Qed.

(** With a descriptor in every entry the dictionary is filled: it holds the
    descriptors of the entries, each with the URL of one of them. *)
Lemma add_candidates_Return (srcs : list str) (imgs : gmap str str) :
  Forall (λ s, is_Some (candidate s)) srcs →
  ∃ imgs',
    add_candidates imgs srcs = Return imgs'
    ∧ (∀ d u, imgs' !! d = Some u →
         imgs !! d = Some u ∨ ∃ s, s ∈ srcs ∧ candidate s = Some (u, d))
    ∧ (∀ d, is_Some (imgs !! d) → is_Some (imgs' !! d))
    ∧ (∀ s u d, s ∈ srcs → candidate s = Some (u, d) → is_Some (imgs' !! d)).
Proof.
  revert imgs. induction srcs as [|s srcs IH]; intros imgs Hall.
  - exists imgs. simpl. repeat split; auto.
    intros s u d Hs. by apply elem_of_nil in Hs.
  - apply Forall_cons in Hall as [[[u0 d0] Hs] Hall].
    destruct (IH (<[d0 := u0]> imgs) Hall) as (imgs' & Hrun & Hfrom & Hkeep & Hin).
    exists imgs'. simpl. rewrite (add_candidate_Return _ _ _ _ Hs).
    split; [exact Hrun|]. split; [|split].
    + intros d u Hd. destruct (Hfrom d u Hd) as [Hd'|(s' & Hs' & Hc)].
      * destruct (decide (d0 = d)) as [->|Hne].
        -- rewrite lookup_insert_eq in Hd'. injection Hd' as ->.
           right. exists s. split; [apply list_elem_of_here|done].
        -- rewrite lookup_insert_ne in Hd' by done. by left.
      * right. exists s'. split; [by apply list_elem_of_further|done].
    + intros d Hd. apply Hkeep.
      destruct (decide (d0 = d)) as [->|Hne].
      * rewrite lookup_insert_eq. eauto.
      * by rewrite lookup_insert_ne.
    + intros s' u d [->|Hs']%elem_of_cons Hc.
      * rewrite Hs in Hc. injection Hc as <- <-.
        apply Hkeep. rewrite lookup_insert_eq. eauto.
      * by eapply Hin.
Qed.

Lemma add_candidates_Raise (srcs : list str) (imgs : gmap str str) :
  Exists (λ s, candidate s = None) srcs →
  add_candidates imgs srcs = Raise IndexError.
Proof.
  revert imgs. induction srcs as [|s srcs IH]; intros imgs Hex.
  - by apply Exists_nil in Hex.
  - simpl. destruct (candidate s) as [[u d]|] eqn:Hs.
    + rewrite (add_candidate_Return _ _ _ _ Hs). simpl. apply IH.
      apply Exists_cons in Hex as [Hex|Hex]; [congruence|done].
    + by rewrite (add_candidate_Raise _ _ Hs).
Qed.

Lemma elem_of_keys (imgs : gmap str str) (d : str) :
  d ∈ keys imgs ↔ is_Some (imgs !! d).
Proof.
  unfold keys. rewrite list_elem_of_fmap. split.
  - intros ([d' u] & -> & H). apply elem_of_map_to_list in H. eauto.
  - intros [u H]. exists (d, u). split; [done|]. by apply elem_of_map_to_list.
Qed.

(** What the block under [if srcset is not None] computes when every entry
    has a descriptor. *)
Lemma choose_from_srcset_Return (srcset width height : str) :
  Forall (λ s, is_Some (candidate s)) (Str.split 44 srcset) →
  ∃ largest src,
    choose_from_srcset srcset width height
    = Return (largest, src,
              if Str.has_char 119 largest
              then Str.remove_char 119 largest else width,
              if Str.has_char 104 largest
              then Str.remove_char 104 largest else height)
    ∧ (∃ s, s ∈ Str.split 44 srcset ∧ candidate s = Some (src, largest))
    ∧ (∀ s u d, s ∈ Str.split 44 srcset → candidate s = Some (u, d) →
         Str.leb largest d = true).
Proof.
  intros Hall. unfold choose_from_srcset.
  destruct (add_candidates_Return _ ∅ Hall) as (imgs & -> & Hfrom & _ & Hin).
  simpl. unfold index. rewrite <- head_lookup.
  pose proof (sorted_head (keys imgs)) as Hhead.
  destruct (head (Str.sorted (keys imgs))) as [largest|] eqn:Hsorted.
  - destruct Hhead as [Hkey Hmin]. apply elem_of_keys in Hkey as [src Hsrc].
    simpl. rewrite Hsrc. simpl. exists largest, src. split; [done|]. split.
    + destruct (Hfrom _ _ Hsrc) as [Hempty|H]; [|done].
      by rewrite lookup_empty in Hempty.
    + intros s u d Hs Hc. apply Hmin, elem_of_keys. by eapply Hin.
  - exfalso. destruct (Str.split 44 srcset) as [|s srcs] eqn:Hsplit.
    + by destruct srcset as [|c srcset]; simpl in Hsplit;
        [|destruct (c =? 44); [|destruct (Str.split 44 srcset)]].
    + apply Forall_cons in Hall as [[[u d] Hs] _].
      assert (is_Some (imgs !! d)) as Hd
        by (eapply Hin; [apply list_elem_of_here|done]).
      apply elem_of_keys in Hd. rewrite Hhead in Hd.
      by apply elem_of_nil in Hd.
Qed.

(** C1, as the code has it: for an image element that has [alt], [src] and a
    [srcset] in which every entry has a descriptor, the image pass takes the
    entry whose descriptor is smallest in the order of strings: [src] becomes
    its URL; a descriptor that holds a [w] gives the width, the descriptor
    without its [w]; one that holds an [h] gives the height, the descriptor
    without its [h]; otherwise the attribute of the element, or the empty
    string, stays.  The replacement text carries these values. *)
Theorem transform_img_srcset_smallest_descriptor
    (img : node) (alt src0 srcset : str) :
  attrs img !! lit "alt" = Some alt →
  attrs img !! lit "src" = Some src0 →
  attrs img !! lit "srcset" = Some srcset →
  Forall (λ s, is_Some (candidate s)) (Str.split 44 srcset) →
  ∃ largest src,
    (∃ s, s ∈ Str.split 44 srcset ∧ candidate s = Some (src, largest))
    ∧ (∀ s u d, s ∈ Str.split 44 srcset → candidate s = Some (u, d) →
         Str.leb largest d = true)
    ∧ let width := if Str.has_char 119 largest
                   then Str.remove_char 119 largest
                   else get img (lit "width") [] in
      let height := if Str.has_char 104 largest
                    then Str.remove_char 104 largest
                    else get img (lit "height") [] in
      image_fields img = Return (alt, width, height, src)
      ∧ ∀ http_get urlparse_path urljoin self σ repl σ',
          transform_img_repl http_get urlparse_path urljoin self img σ
          = (Return repl, σ') →
          ∃ image_name, repl = image_macro image_name alt width height.
Proof.
  intros Halt Hsrc Hset Hall.
  destruct (choose_from_srcset_Return srcset (get img (lit "width") [])
              (get img (lit "height") []) Hall)
    as (largest & src & Hchoose & Hcand & Hmin).
  exists largest, src. split; [done|]. split; [done|]. cbv zeta.
  assert (image_fields img
          = Return (alt,
                    if Str.has_char 119 largest
                    then Str.remove_char 119 largest
                    else get img (lit "width") [],
                    if Str.has_char 104 largest
                    then Str.remove_char 104 largest
                    else get img (lit "height") [], src)) as Hfields.
  { unfold image_fields, getitem. rewrite Halt, Hsrc, Hset. simpl.
    by rewrite Hchoose. }
  split; [done|].
  intros http_get urlparse_path urljoin self σ repl σ' Hrepl.
  apply transform_img_repl_Return in Hrepl
    as (alt' & width' & height' & src' & image_name & Hf & ->).
  rewrite Hfields in Hf. injection Hf as <- <- <- <-. eauto.
Qed.

Lemma transform_img_srcset_smallest_descriptor_witness :
  ∃ largest src,
    (∃ s, s ∈ Str.split 44 (lit "a.png 320w, b.png 640w, c.png 1024w")
          ∧ candidate s = Some (src, largest))
    ∧ (∀ s u d, s ∈ Str.split 44 (lit "a.png 320w, b.png 640w, c.png 1024w") →
         candidate s = Some (u, d) → Str.leb largest d = true)
    ∧ let width := if Str.has_char 119 largest
                   then Str.remove_char 119 largest
                   else get responsive_img (lit "width") [] in
      let height := if Str.has_char 104 largest
                    then Str.remove_char 104 largest
                    else get responsive_img (lit "height") [] in
      image_fields responsive_img = Return (lit "A", width, height, src)
      ∧ ∀ http_get urlparse_path urljoin self σ repl σ',
          transform_img_repl http_get urlparse_path urljoin self
            responsive_img σ = (Return repl, σ') →
          ∃ image_name, repl = image_macro image_name (lit "A") width height.
Proof.
  apply (transform_img_srcset_smallest_descriptor responsive_img (lit "A")
           (lit "s.png") (lit "a.png 320w, b.png 640w, c.png 1024w"));
    [vm_compute; reflexivity..|].
  apply (bool_decide_unpack _). vm_compute. exact I.
Defined.

(** The tie-break of the specification: among [320w], [640w] and [1024w] the
    order of strings puts [1024w] first, and that entry is taken. *)
Lemma srcset_literal_ordering :
  Str.sorted [lit "320w"; lit "640w"; lit "1024w"]
  = [lit "1024w"; lit "320w"; lit "640w"]
  ∧ image_fields responsive_img
    = Return (lit "A", lit "1024", lit "50", lit "c.png").
Proof. split; vm_compute; reflexivity. Qed.

(** C1 as stated fails: a [srcset] is present, with a first entry that has no
    descriptor; the image pass selects no entry, it raises [IndexError]. *)
Lemma transform_img_srcset_without_descriptor :
  let img :=
    Tag (lit "img")
      (list_to_map [ (lit "alt", lit "A"); (lit "src", lit "small.png");
                     (lit "srcset", lit "small.png, large.png 2x") ]) [] in
  attrs img !! lit "srcset" = Some (lit "small.png, large.png 2x")
  ∧ image_fields img = Raise IndexError
  ∧ ∀ http_get urlparse_path urljoin self σ,
      transform_img_repl http_get urlparse_path urljoin self img σ
      = (Raise IndexError, σ).
Proof.
  split; [vm_compute; reflexivity|]. split; [vm_compute; reflexivity|].
  intros. unfold transform_img_repl. apply bind_Raise.
  rewrite lift_eq. f_equal.
Qed.

(** ** Paths *)

Lemma startswith_sep_false (b : str) (c : N) :
  c ≠ Path.sep → Str.startswith [Path.sep] (c :: b) = false.
Proof.
  intros Hc.
  change (Str.startswith [Path.sep] (c :: b)) with ((Path.sep =? c) && true).
  apply andb_false_iff. left. apply N.eqb_neq. congruence.
Qed.

(** A relative component is appended after the directory prefix. *)
Lemma join2_relative (root b : str) :
  Str.startswith [Path.sep] b = false →
  Path.join2 root b = dir_prefix root ++ b.
Proof.
  intros Hb. unfold Path.join2, dir_prefix. rewrite Hb.
  destruct (bool_decide (root = []) || Path.endswith_sep root); [done|].
  by rewrite <- app_assoc.
Qed.

Lemma endswith_sep_snoc (p : str) (c : N) :
  Path.endswith_sep (p ++ [c]) = (c =? Path.sep).
Proof. unfold Path.endswith_sep. by rewrite last_snoc. Qed.

(** ** SHA-256: the shape of a digest *)






(** ** The content cache *)


Section CacheFacts.

Variable http_get : nat → str → option response.
Variable urlparse_path : str → option str.










End CacheFacts.










(** ** Paths of the cache and paths of the output *)

Lemma rfind_from_spec (c : N) (s : str) (i found : Z) :
  ((c ∉ s) ∧ Path.rfind_from c s i found = found)
  ∨ ∃ k, Path.rfind_from c s i found = (i + Z.of_nat k)%Z
         ∧ (k < length s)%nat ∧ c ∉ drop (S k) s.
Proof.
  revert i found. induction s as [|d s IH]; intros i found.
  - left. split; [apply not_elem_of_nil|done].
  - cbn [Path.rfind_from]. destruct (d =? c) eqn:Hd.
    + apply N.eqb_eq in Hd as ->.
      destruct (IH (i + 1)%Z i) as [[Hnot ->]|(k & -> & Hk & Hdrop)].
      * right. exists 0%nat. split; [lia|]. split; [cbn; lia|done].
      * right. exists (S k). split; [lia|]. split; [cbn; lia|done].
    + apply N.eqb_neq in Hd.
      destruct (IH (i + 1)%Z found) as [[Hnot ->]|(k & -> & Hk & Hdrop)].
      * left. split; [|done]. intros [->|H]%elem_of_cons; done.
      * right. exists (S k). split; [lia|]. split; [cbn; lia|done].
Qed.

Lemma basename_no_sep (p : str) : Path.sep ∉ Path.basename p.
Proof.
  unfold Path.basename, Path.rfind.
  destruct (rfind_from_spec Path.sep p 0 (-1)) as [[Hnot ->]|(k & -> & _ & H)].
  - done.
  - by replace (Z.to_nat (0 + Z.of_nat k + 1)) with (S k) by lia.
Qed.

Lemma dir_prefix_cases (root : str) :
  dir_prefix root = root ∨ dir_prefix root = root ++ [Path.sep].
Proof. unfold dir_prefix. destruct (_ || _); auto. Qed.

(** After a directory whose name is not empty and has no separator. *)
Lemma dir_prefix_component (prefix d : str) :
  d ≠ [] → Path.sep ∉ d →
  dir_prefix (prefix ++ d) = prefix ++ d ++ [Path.sep].
Proof.
  intros Hd Hsep. unfold dir_prefix.
  rewrite bool_decide_eq_false_2
    by (intros [_ H]%app_eq_nil; done).
  destruct d as [|c d _] using rev_ind; [done|].
  rewrite app_assoc, endswith_sep_snoc.
  destruct (c =? Path.sep) eqn:Hc.
  - apply N.eqb_eq in Hc as ->. destruct Hsep.
    apply elem_of_app. right. apply list_elem_of_here.
  - cbn [orb]. by rewrite <- !app_assoc.
Qed.

Lemma startswith_sep_no_sep (b : str) :
  Path.sep ∉ b → Str.startswith [Path.sep] b = false.
Proof.
  intros H. destruct b as [|c b]; [done|]. apply startswith_sep_false.
  intros ->. apply H, list_elem_of_here.
Qed.

Lemma join_one (root b : str) :
  Path.sep ∉ b → Path.join root [b] = dir_prefix root ++ b.
Proof.
  intros H. unfold Path.join. cbn [foldl].
  by rewrite join2_relative by by apply startswith_sep_no_sep.
Qed.

Lemma join_two (root b name : str) :
  Path.sep ∉ b → Str.startswith [Path.sep] name = false →
  Path.join root [b; name] = dir_prefix (dir_prefix root ++ b) ++ name.
Proof.
  intros H Hname. unfold Path.join. cbn [foldl].
  rewrite (join2_relative root b) by by apply startswith_sep_no_sep.
  by rewrite join2_relative.
Qed.

Lemma own_path_one (root b : str) :
  Path.sep ∉ b → own_path root (Path.join root [b]).
Proof. intros H. exists b. split; [done|]. left. by apply join_one. Qed.

Lemma own_path_index (root b : str) :
  Path.sep ∉ b →
  own_path root (Path.join (Path.join root [b]) [lit "index.asciidoc"]).
Proof.
  intros H. exists b. split; [done|]. right.
  rewrite (join_one root b H). unfold Path.join. cbn [foldl].
  by rewrite join2_relative by (vm_compute; reflexivity).
Qed.

(** Two texts cut at their first separator. *)
Lemma first_sep_split (x x' y y' : str) :
  Path.sep ∉ x → Path.sep ∉ x' →
  x ++ Path.sep :: y = x' ++ Path.sep :: y' → x = x' ∧ y = y'.
Proof.
  revert x'. induction x as [|c x IH]; intros [|c' x'] Hx Hx' H.
  - by injection H as ->.
  - injection H as <- _. destruct Hx'. apply list_elem_of_here.
  - injection H as -> _. destruct Hx. apply list_elem_of_here.
  - injection H as -> H. apply IH in H as [-> ->]; [done| |].
    + intros ?. apply Hx. by apply list_elem_of_further.
    + intros ?. apply Hx'. by apply list_elem_of_further.
Qed.

(** A file in a directory of one component, whose name starts neither with
    a separator nor with the letter [i], is not a path the run writes. *)
Lemma not_own_path (root d name : str) (c : N) (rest : str) :
  d ≠ [] → Path.sep ∉ d →
  name = c :: rest → c ≠ Path.sep → c ≠ 105 →
  ¬ own_path root (Path.join root [d; name]).
Proof.
  intros Hd Hsep -> Hc Hi (b & Hb & H).
  rewrite join_two in H by (done || by apply startswith_sep_false).
  rewrite dir_prefix_component in H by done.
  rewrite <- !app_assoc in H. destruct H as [H|H].
  - apply app_inv_head in H. subst b. apply Hb.
    apply elem_of_app. right. apply list_elem_of_here.
  - destruct (dir_prefix_cases (dir_prefix root ++ b)) as [Hp|Hp];
      rewrite Hp in H; rewrite <- !app_assoc in H; apply app_inv_head in H.
    + assert (Path.sep ∈ b ++ lit "index.asciidoc") as Hin.
      { rewrite <- H. apply elem_of_app. right. apply list_elem_of_here. }
      apply elem_of_app in Hin as [Hin|Hin]; [done|].
      vm_compute in Hin. by repeat (apply elem_of_cons in Hin as [[=]|Hin]);
        apply elem_of_nil in Hin.
    + cbn [app] in H. apply first_sep_split in H as [_ H]; [|done..].
      injection H as ->. done.
Qed.

(** ** Computations the second run repeats *)

Lemma requests_unchanged (l0 l1 l2 : list str) :
  (l0 ++ l1) ++ l2 = l0 → l1 = [] ∧ l2 = [].
Proof.
  rewrite <- app_assoc. intros H.
  rewrite <- (app_nil_r l0) in H at 2. apply app_inv_head in H.
  by apply app_eq_nil in H.
Qed.

Lemma future_refl (s : state) : future s s.
Proof. by intros path k. Qed.

Section Repeatable.

Variable own : str → Prop.

Lemma repeatable_weaken {A} (pre pre' post post' : str → Prop) (m : M A) :
  (∀ path, pre path → pre' path) → (∀ path, post' path → post path) →
  repeatable own pre post m → repeatable own pre' post' m.
Proof.
  intros Hpre Hpost [Hgrow Hm]. split; [done|].
  intros s a s' Hrun Hreq. destruct (Hm s a s' Hrun Hreq) as (Hk & Hfr & Hp).
  split; [done|]. split; [done|]. intros σ1 t Hfut Hsim Hagree.
  destruct (Hp σ1 t Hfut Hsim) as (t' & Ht & Hreqt & Hsim' & Hagree').
  { intros path H. by apply Hagree, Hpre. }
  exists t'. split; [done|]. split; [done|]. split; [done|].
  intros path H. by apply Hagree', Hpost.
Qed.

(** A computation that leaves the state alone and whose result does not
    depend on it. *)
Lemma repeatable_pure {A} (pre : str → Prop) (r : result A) :
  repeatable own pre pre (lift r).
Proof.
  split.
  - intros s r' s' [= <- <-]. exists []. by rewrite app_nil_r.
  - intros s a s' [= -> <-] _. split; [apply future_refl|]. split; [done|].
    intros σ1 t _ Hsim Hagree. by exists t.
Qed.

Lemma repeatable_ret {A} (pre : str → Prop) (a : A) :
  repeatable own pre pre (mret a).
Proof. apply (repeatable_pure pre (Return a)). Qed.

Lemma repeatable_or_raise {A} (pre : str → Prop) (e : exception)
    (o : option A) :
  repeatable own pre pre (or_raise e o).
Proof.
  destruct o as [a|]; [apply repeatable_ret|].
  apply (repeatable_pure pre (Raise e)).
Qed.

Lemma repeatable_bind {A B} (pre mid post : str → Prop) (m : M A)
    (k : A → M B) :
  repeatable own pre mid m →
  (∀ a, returns m a → repeatable own mid post (k a)) →
  repeatable own pre post (m ≫= k).
Proof.
  intros [Hgrow Hm] Hk. split.
  - intros s r s' Hrun. unfold mbind, M_bind, bind in Hrun.
    destruct (m s) as [[a|code|e] s1] eqn:Hms;
      destruct (Hgrow _ _ _ Hms) as [l1 Hl1].
    + assert (returns m a) as Ha by (by exists s, s1).
      destruct (proj1 (Hk a Ha) _ _ _ Hrun) as [l2 Hl2].
      exists (l1 ++ l2). by rewrite Hl2, Hl1, app_assoc.
    + injection Hrun as <- <-. eauto.
    + injection Hrun as <- <-. eauto.
  - intros s b s'' Hrun Hreq.
    apply bind_Return_inv in Hrun as (a & s1 & Hms & Hks).
    assert (returns m a) as Ha by (by exists s, s1).
    destruct (Hgrow _ _ _ Hms) as [l1 Hl1].
    destruct (proj1 (Hk a Ha) _ _ _ Hks) as [l2 Hl2].
    rewrite Hl2, Hl1 in Hreq. apply requests_unchanged in Hreq as [-> ->].
    rewrite app_nil_r in Hl1, Hl2.
    destruct (Hm _ _ _ Hms Hl1) as (Hk1 & Hfr1 & Hp1).
    destruct (proj2 (Hk a Ha) _ _ _ Hks Hl2) as (Hk2 & Hfr2 & Hp2).
    split; [intros path kd H; by apply Hk2, Hk1|].
    split; [intros path H; by rewrite Hfr2, Hfr1|].
    intros σ1 t Hfut Hsim Hagree.
    destruct (Hp1 σ1 t) as (t1 & Ht1 & Hreq1 & Hsim1 & Hagree1); [|done..|].
    { intros path kd H. by apply Hfut, Hk2. }
    destruct (Hp2 σ1 t1 Hfut Hsim1 Hagree1)
      as (t2 & Ht2 & Hreq2 & Hsim2 & Hagree2).
    exists t2. split; [by erewrite bind_Return|].
    split; [by rewrite Hreq2|done].
Qed.

Lemma repeatable_mapM {A B} (pre : str → Prop) (f : A → M B) (l : list A) :
  (∀ x, repeatable own pre pre (f x)) → repeatable own pre pre (mapM f l).
Proof.
  intros Hf. induction l as [|x l IH]; [apply repeatable_ret|].
  cbn [mapM]. eapply repeatable_bind; [apply Hf|]. intros y _.
  eapply repeatable_bind; [apply IH|]. intros ys _. apply repeatable_ret.
Qed.

Lemma repeatable_put_line (pre : str → Prop) (line : str) :
  repeatable own pre pre (put_line line).
Proof.
  split.
  - intros s r s' [= <- <-]. exists []. by rewrite app_nil_r.
  - intros s a s' [= <- <-] _. split; [by intros path k|]. split; [done|].
    intros σ1 t _ Hsim Hagree. by eexists.
Qed.

End Repeatable.

(** ** The primitives *)

Lemma grows_same {A} (m : M A) :
  (∀ s r s', m s = (r, s') → requests s' = requests s) → grows m.
Proof.
  intros H s r s' Hrun. exists []. rewrite app_nil_r. by eapply H.
Qed.

Lemma grows_bind {A B} (m : M A) (k : A → M B) :
  grows m → (∀ a, grows (k a)) → grows (m ≫= k).
Proof.
  intros Hm Hk s r s' Hrun. unfold mbind, M_bind, bind in Hrun.
  destruct (m s) as [[a|code|e] s1] eqn:Hms;
    destruct (Hm _ _ _ Hms) as [l1 Hl1].
  - destruct (Hk a _ _ _ Hrun) as [l2 Hl2].
    exists (l1 ++ l2). by rewrite Hl2, Hl1, app_assoc.
  - injection Hrun as <- <-. eauto.
  - injection Hrun as <- <-. eauto.
Qed.

Lemma grows_makedirs (path : str) : grows (makedirs path).
Proof.
  apply grows_same. intros s r s'. unfold makedirs.
  destruct (fs s !! path) as [[?|]|]; by intros [= <- <-].
Qed.

Lemma grows_write_file (path content : str) : grows (write_file path content).
Proof.
  apply grows_same. intros s r s'. unfold write_file.
  destruct (fs s !! path) as [[?|]|]; by intros [= <- <-].
Qed.

Lemma grows_append_file (path text : str) : grows (append_file path text).
Proof.
  apply grows_same. intros s r s'. unfold append_file.
  destruct (fs s !! path) as [[?|]|]; by intros [= <- <-].
Qed.

Lemma grows_put_line (line : str) : grows (put_line line).
Proof. apply grows_same. by intros s r s' [= <- <-]. Qed.

Lemma grows_lift {A} (r : result A) : grows (lift r).
Proof. apply grows_same. by intros s r' s' [= <- <-]. Qed.

Lemma kind_at_insert (s : state) (path path' : str) (e : entry)
    (rs out : list str) :
  kind_at (State (<[path := e]> (fs s)) rs out) path'
  = if decide (path = path')
    then Some (match e with File _ => true | Directory => false end)
    else kind_at s path'.
Proof.
  unfold kind_at. cbn [fs]. rewrite lookup_insert.
  destruct (decide (path = path')); [by destruct e|done].
Qed.

Lemma kind_at_Directory (s : state) (path : str) :
  kind_at s path = Some false ↔ fs s !! path = Some Directory.
Proof. unfold kind_at. by destruct (fs s !! path) as [[?|]|]. Qed.

Lemma kind_at_File (s : state) (path : str) :
  kind_at s path = Some true ↔ ∃ content, fs s !! path = Some (File content).
Proof.
  unfold kind_at. destruct (fs s !! path) as [[?|]|]; split; try done; eauto.
  - by intros [? ?].
  - by intros [? ?].
Qed.

Section Primitives.

Variable own : str → Prop.

Lemma repeatable_makedirs (pre : str → Prop) (path : str) :
  own path → repeatable own pre pre (makedirs path).
Proof.
  intros Hown. split; [apply grows_makedirs|].
  intros s [] s' Hrun _. unfold makedirs in Hrun.
  assert ((fs s !! path = None ∨ fs s !! path = Some Directory)
          ∧ s' = State (<[path := Directory]> (fs s)) (requests s) (stdout s))
    as [Hold ->].
  { destruct (fs s !! path) as [[?|]|]; [done|..];
      injection Hrun as <-; auto. }
  clear Hrun. split; [|split].
  - intros p k Hk. rewrite kind_at_insert.
    destruct (decide (path = p)) as [<-|]; [|done].
    unfold kind_at in Hk. by destruct Hold as [H|H]; rewrite H in Hk.
  - intros p Hp. cbn [fs]. rewrite lookup_insert_ne; [done|]. by intros <-.
  - intros σ1 t Hfut Hsim Hagree.
    assert (fs σ1 !! path = Some Directory) as H1.
    { apply kind_at_Directory, Hfut. rewrite kind_at_insert.
      by rewrite decide_True. }
    assert (fs t !! path = None ∨ fs t !! path = Some Directory) as Ht.
    { destruct (Hsim path) as [_ [->| ->]]; auto. }
    exists (State (<[path := Directory]> (fs t)) (requests t) (stdout t)).
    split; [|split; [done|split]].
    + unfold makedirs. by destruct Ht as [->| ->].
    + intros p. cbn [fs]. destruct (decide (path = p)) as [<-|Hne].
      * split; [intros _|left]; by rewrite !lookup_insert_eq.
      * rewrite !lookup_insert_ne by done. apply Hsim.
    + intros p Hp. cbn [fs]. destruct (decide (path = p)) as [<-|Hne].
      * by rewrite !lookup_insert_eq.
      * rewrite !lookup_insert_ne by done. by apply Hagree.
Qed.

Lemma repeatable_write_file (pre : str → Prop) (path content : str) :
  own path →
  repeatable own pre (λ p, pre p ∨ p = path) (write_file path content).
Proof.
  intros Hown. split; [apply grows_write_file|].
  intros s [] s' Hrun _. unfold write_file in Hrun.
  assert (fs s !! path ≠ Some Directory
          ∧ s' = State (<[path := File content]> (fs s))
                       (requests s) (stdout s)) as [Hold ->].
  { destruct (fs s !! path) as [[?|]|]; [|done|];
      injection Hrun as <-; auto. }
  clear Hrun. split; [|split].
  - intros p k Hk. rewrite kind_at_insert.
    destruct (decide (path = p)) as [<-|]; [|done].
    unfold kind_at in Hk. by destruct (fs s !! path) as [[?|]|].
  - intros p Hp. cbn [fs]. rewrite lookup_insert_ne; [done|]. by intros <-.
  - intros σ1 t Hfut Hsim Hagree.
    assert (∃ c1, fs σ1 !! path = Some (File c1)) as [c1 H1].
    { apply kind_at_File, Hfut. rewrite kind_at_insert.
      by rewrite decide_True. }
    assert (fs t !! path ≠ Some Directory) as Ht.
    { destruct (Hsim path) as [_ [->| ->]]; [done|]. by rewrite H1. }
    exists (State (<[path := File content]> (fs t)) (requests t) (stdout t)).
    split; [|split; [done|split]].
    + unfold write_file. by destruct (fs t !! path) as [[?|]|].
    + intros p. cbn [fs]. destruct (decide (path = p)) as [<-|Hne].
      * split; [intros _|left]; by rewrite !lookup_insert_eq.
      * rewrite !lookup_insert_ne by done. apply Hsim.
    + intros p Hp. cbn [fs]. destruct (decide (path = p)) as [<-|Hne].
      * by rewrite !lookup_insert_eq.
      * rewrite !lookup_insert_ne by done.
        destruct Hp as [Hp| ->]; [by apply Hagree|done].
Qed.

Lemma repeatable_append_file (pre : str → Prop) (path text : str) :
  own path → pre path → repeatable own pre pre (append_file path text).
Proof.
  intros Hown Hpre. split; [apply grows_append_file|].
  intros s [] s' Hrun _. unfold append_file in Hrun.
  assert (∃ c0, fs s !! path = Some (File c0)
                ∧ s' = State (<[path := File (c0 ++ text)]> (fs s))
                             (requests s) (stdout s)) as (c0 & Hold & ->).
  { destruct (fs s !! path) as [[c0|]|]; [|done..].
    injection Hrun as <-. eauto. }
  clear Hrun. split; [|split].
  - intros p k Hk. rewrite kind_at_insert.
    destruct (decide (path = p)) as [<-|]; [|done].
    unfold kind_at in Hk. by rewrite Hold in Hk.
  - intros p Hp. cbn [fs]. rewrite lookup_insert_ne; [done|]. by intros <-.
  - intros σ1 t Hfut Hsim Hagree.
    assert (fs t !! path = Some (File c0)) as Ht
      by (by rewrite (Hagree path Hpre)).
    exists (State (<[path := File (c0 ++ text)]> (fs t))
                  (requests t) (stdout t)).
    split; [|split; [done|split]].
    + unfold append_file. by rewrite Ht.
    + intros p. cbn [fs]. destruct (decide (path = p)) as [<-|Hne].
      * split; [intros _|left]; by rewrite !lookup_insert_eq.
      * rewrite !lookup_insert_ne by done. apply Hsim.
    + intros p Hp. cbn [fs]. destruct (decide (path = p)) as [<-|Hne].
      * by rewrite !lookup_insert_eq.
      * rewrite !lookup_insert_ne by done. by apply Hagree.
Qed.

(** At a path the program does not write the second run sees what the first
    saw. *)
Lemma sim_not_own (σ1 s t : state) (path : str) :
  sim own σ1 s t → ¬ own path → fs t !! path = fs s !! path.
Proof. intros Hsim Hown. by apply Hsim. Qed.

Lemma repeatable_path_exists (pre : str → Prop) (path : str) :
  ¬ own path → repeatable own pre pre (path_exists path).
Proof.
  intros Hown. split; [apply grows_same; by intros s r s' [= <- <-]|].
  intros s a s' [= <- <-] _. split; [apply future_refl|]. split; [done|].
  intros σ1 t _ Hsim Hagree. exists t. split; [|done].
  unfold path_exists. by rewrite (sim_not_own _ _ _ _ Hsim Hown).
Qed.

Lemma repeatable_read_file (pre : str → Prop) (path : str) :
  ¬ own path → repeatable own pre pre (read_file path).
Proof.
  intros Hown. split.
  { apply grows_same. intros s r s'. unfold read_file.
    destruct (fs s !! path) as [[?|]|]; by intros [= <- <-]. }
  intros s a s' Hrun _. unfold read_file in Hrun.
  assert (∃ content, fs s !! path = Some (File content)
                     ∧ a = Str.universal_newlines content ∧ s' = s)
    as (content & Hold & -> & ->).
  { destruct (fs s !! path) as [[content|]|]; [|done..].
    injection Hrun as <- <-. by exists content. }
  split; [apply future_refl|]. split; [done|].
  intros σ1 t _ Hsim Hagree. exists t. split; [|done].
  unfold read_file. by rewrite (sim_not_own _ _ _ _ Hsim Hown), Hold.
Qed.

(** A request shows in the log: a computation that starts with one does not
    return with the log as it was. *)
Lemma repeatable_requests_get {A} (pre post : str → Prop)
    (http_get : nat → str → option response) (url_path : str)
    (k : response → M A) :
  (∀ r, grows (k r)) →
  repeatable own pre post (requests_get http_get url_path ≫= k).
Proof.
  intros Hk.
  assert (grows (requests_get http_get url_path)) as Hget.
  { intros s r s' Hrun. unfold requests_get in Hrun. exists [url_path].
    destruct (http_get _ _); by injection Hrun as <- <-. }
  split; [by apply grows_bind|].
  intros s a s' Hrun Hreq. exfalso.
  apply bind_Return_inv in Hrun as (r & s1 & Hr & Hrun).
  destruct (Hk r _ _ _ Hrun) as [l Hl].
  unfold requests_get in Hr.
  destruct (http_get _ _); [|done]. injection Hr as <- <-.
  cbn [requests] in Hl. rewrite Hl in Hreq.
  apply requests_unchanged in Hreq as [[=] _].
Qed.

End Primitives.

(** ** The content cache, run twice *)

Lemma hex_digit_letter (v : N) :
  Sha256.hex_digit (v mod 16) ≠ Path.sep ∧ Sha256.hex_digit (v mod 16) ≠ 105.
Proof.
  assert (v mod 16 < 16) as H by (by apply N.mod_lt).
  generalize dependent (v mod 16). intros d H.
  unfold Sha256.hex_digit, Path.sep. destruct (d <? 10) eqn:Hlt.
  - apply N.ltb_lt in Hlt. split; lia.
  - split; lia.
Qed.

Lemma hexdigest_first (bytes : list N) :
  ∃ c rest, Sha256.hexdigest bytes = c :: rest ∧ c ≠ Path.sep ∧ c ≠ 105.
Proof.
  unfold Sha256.hexdigest. set (h := Sha256.digest_words bytes).
  unfold Sha256.hex_word at 1. cbn [reverse rev_append seq fmap list_fmap app].
  eexists _, _. split; [reflexivity|]. apply hex_digit_letter.
Qed.

Lemma not_own_cache_file (root : str) (bytes : list N) :
  ¬ own_path root
      (Path.join root [lit ".cached"; Sha256.hexdigest bytes ++ lit ".html"]).
Proof.
  destruct (hexdigest_first bytes) as (c & rest & -> & Hc & Hi).
  eapply not_own_path; [done| |reflexivity|done..].
  no_sep.
Qed.

Lemma not_own_image_file (root : str) (bytes : list N) (u_path : str) :
  ¬ own_path root
      (Path.join root [lit "images"; image_name_of bytes u_path]).
Proof.
  unfold image_name_of.
  destruct (hexdigest_first bytes) as (c & rest & -> & Hc & Hi).
  eapply not_own_path; [done| |reflexivity|done..].
  no_sep.
Qed.

Lemma own_cache_dir (root : str) : own_path root (Path.join root [lit ".cached"]).
Proof.
  apply own_path_one. no_sep.
Qed.

Lemma sha256_of_returns (s m : str) :
  returns (sha256_of s) m → ∃ bytes, m = Sha256.hexdigest bytes.
Proof.
  intros (σ & σ' & H). unfold sha256_of in H.
  destruct (encode_utf8 s) as [bytes|]; [|done].
  injection H as <- _. eauto.
Qed.

Section CacheTwice.

Variable http_get : nat → str → option response.
Variable urlparse_path : str → option str.
Variable root : str.
Variable pre : str → Prop.

Lemma grows_after_request (path message content : str) {A} (a : A)
    (r : response) :
  grows (if negb (status_code r =? 200)
         then put_line message;; exit 1
         else write_file path content;; ret a).
Proof.
  destruct (negb _).
  - apply grows_bind; [apply grows_put_line|]. intros _.
    apply grows_same. by intros s r' s' [= <- <-].
  - apply grows_bind; [apply grows_write_file|]. intros _.
    apply grows_same. by intros s r' s' [= <- <-].
Qed.

Lemma repeatable_load_file_content (url_path file_path : str) :
  ¬ own_path root file_path →
  repeatable (own_path root) pre pre
    (load_file_content http_get url_path file_path).
Proof.
  intros Hown. unfold load_file_content.
  eapply repeatable_bind; [by apply repeatable_path_exists|].
  intros [|] _; [by apply repeatable_read_file|].
  apply repeatable_requests_get. intros r. apply grows_after_request.
Qed.

Lemma repeatable_sha256_of (s : str) :
  repeatable (own_path root) pre pre (sha256_of s).
Proof.
  unfold sha256_of. eapply repeatable_bind; [apply repeatable_or_raise|].
  intros bytes _. apply repeatable_ret.
Qed.

Lemma repeatable_compute_image_path (url_path : str) :
  repeatable (own_path root) pre pre
    (compute_image_path urlparse_path url_path root).
Proof.
  unfold compute_image_path.
  eapply repeatable_bind; [apply repeatable_sha256_of|]. intros m _.
  eapply repeatable_bind;
    [apply repeatable_makedirs, own_cache_dir|]. intros _ _.
  eapply repeatable_bind; [apply repeatable_or_raise|]. intros u_path _.
  apply repeatable_ret.
Qed.

Lemma compute_image_path_returns (url_path image_path image_name : str) :
  returns (compute_image_path urlparse_path url_path root)
          (image_path, image_name) →
  ∃ bytes u_path,
    image_path = Path.join root [lit "images"; image_name_of bytes u_path].
Proof.
  intros (σ & σ' & H). unfold compute_image_path in H.
  apply bind_Return_inv in H as (m & σ1 & Hm & H).
  assert (∃ bytes, m = Sha256.hexdigest bytes) as [bytes ->]
    by (eapply sha256_of_returns; by eexists _, _).
  apply bind_Return_inv in H as (_ & σ2 & _ & H).
  apply bind_Return_inv in H as (u_path & σ3 & _ & H).
  injection H as <- <- _. by exists bytes, u_path.
Qed.

Lemma repeatable_download_image (url_path : str) :
  repeatable (own_path root) pre pre
    (download_image http_get urlparse_path url_path root).
Proof.
  unfold download_image.
  eapply repeatable_bind; [apply repeatable_compute_image_path|].
  intros [image_path image_name] Hret.
  apply compute_image_path_returns in Hret as (bytes & u_path & ->).
  eapply repeatable_bind;
    [apply repeatable_path_exists, not_own_image_file|].
  intros [|] _; [apply repeatable_ret|].
  apply repeatable_requests_get. intros r. apply grows_after_request.
Qed.

End CacheTwice.

(** ** The pipeline, run twice *)

Lemma create_transformer_config (url_path : str) (bs : node)
    (content : option node) (root : str) :
  transformer_config (create_transformer url_path bs content root)
  = Config url_path root.
Proof.
  unfold create_transformer. by repeat destruct (Str.contains _ _).
Qed.

Section PipelineTwice.

Variable http_get : nat → str → option response.
Variable urlparse_path : str → option str.
Variable urljoin : str → str → option str.
Variable html_parser : str → node.
Variable tag_str : node → str.
Variable prettify : node → str.
Variable re_sub_root : str → str → option str.
Variable root : str.

Lemma repeatable_transform_img_repl (pre : str → Prop) (self : config)
    (img : node) :
  output_dir self = root →
  repeatable (own_path root) pre pre
    (transform_img_repl http_get urlparse_path urljoin self img).
Proof.
  intros Hroot. unfold transform_img_repl. rewrite Hroot.
  eapply repeatable_bind; [apply repeatable_pure|].
  intros [[[alt width] height] src] _.
  eapply repeatable_bind; [apply repeatable_or_raise|]. intros url_path _.
  eapply repeatable_bind; [apply repeatable_download_image|].
  intros image_name _. apply repeatable_ret.
Qed.

Lemma repeatable_transform_img (pre : str → Prop) (self : config)
    (site : node) :
  output_dir self = root →
  repeatable (own_path root) pre pre
    (transform_img http_get urlparse_path urljoin self site).
Proof.
  intros Hroot. unfold transform_img.
  eapply repeatable_bind;
    [apply repeatable_mapM; intros img;
     by apply repeatable_transform_img_repl|].
  intros repls _. apply repeatable_ret.
Qed.

Lemma repeatable_transform (pre : str → Prop) (self : transformer) :
  output_dir (transformer_config self) = root →
  repeatable (own_path root) pre pre
    (transform http_get urlparse_path urljoin self).
Proof.
  intros Hroot. unfold transform. cbv zeta.
  eapply repeatable_bind; [apply repeatable_or_raise|]. intros site _.
  eapply repeatable_bind; [by apply repeatable_transform_img|].
  intros site' _.
  eapply repeatable_bind; [apply repeatable_pure|]. intros site'' _.
  destruct (transformer_class_of self);
    [apply repeatable_ret|apply repeatable_pure].
Qed.

Lemma repeatable_download_content (pre : str → Prop) (url_path : str) :
  repeatable (own_path root) pre pre
    (download_content http_get urlparse_path urljoin html_parser tag_str
       prettify url_path root).
Proof.
  unfold download_content. cbv zeta.
  eapply repeatable_bind; [apply repeatable_sha256_of|]. intros m Hm.
  apply sha256_of_returns in Hm as [bytes ->].
  eapply repeatable_bind; [apply repeatable_or_raise|]. intros u_path _.
  eapply repeatable_bind;
    [apply repeatable_makedirs, own_path_one, basename_no_sep|].
  intros _ _.
  eapply repeatable_bind; [apply repeatable_put_line|]. intros _ _.
  eapply repeatable_bind;
    [apply repeatable_load_file_content, not_own_cache_file|].
  intros content _.
  set (output_path :=
         Path.join (Path.join root
                      [Path.basename (Str.rstrip_char 47 u_path)])
                   [lit "index.asciidoc"]).
  assert (own_path root output_path) as Hown
    by apply own_path_index, basename_no_sep.
  eapply (repeatable_weaken _ pre pre (λ p, pre p ∨ p = output_path));
    [done|by left|].
  eapply repeatable_bind; [by apply repeatable_write_file|]. intros _ _.
  eapply repeatable_bind; [apply repeatable_pure|]. intros title _.
  eapply repeatable_bind;
    [apply repeatable_append_file; [done|by right]|]. intros _ _.
  eapply repeatable_bind; [apply repeatable_pure|]. intros metadata _.
  eapply repeatable_bind;
    [apply repeatable_append_file; [done|by right]|]. intros _ _.
  eapply repeatable_bind; [apply repeatable_pure|]. intros extractor _.
  eapply repeatable_bind; [apply repeatable_pure|]. intros content' _.
  eapply repeatable_bind;
    [apply repeatable_transform; by rewrite create_transformer_config|].
  intros content'' _.
  eapply repeatable_bind; [apply repeatable_pure|]. intros content3 _.
  eapply repeatable_bind; [apply repeatable_or_raise|]. intros content4 _.
  eapply repeatable_bind;
    [apply repeatable_append_file; [done|by right]|]. intros _ _.
  eapply repeatable_bind;
    [apply repeatable_mapM; intros line; apply repeatable_put_line|].
  intros _ _. apply repeatable_ret.
Qed.

Lemma repeatable_main (pre : str → Prop) (config : Conf.t) :
  Conf.output_dir config = root →
  repeatable (own_path root) pre pre
    (main http_get urlparse_path urljoin html_parser tag_str prettify
       re_sub_root config).
Proof.
  intros Hroot. unfold main, generate_makefile. cbv zeta. rewrite Hroot.
  eapply repeatable_bind;
    [apply repeatable_makedirs, own_path_one; no_sep|]. intros _ _.
  eapply repeatable_bind;
    [apply repeatable_makedirs, own_path_one; no_sep|]. intros _ _.
  eapply (repeatable_weaken _ pre pre
            (λ p, (pre p ∨ p = Path.join root [lit "Makefile"])
                  ∨ p = Path.join root [lit "index.asciidoc"]));
    [done|by left; left|].
  eapply repeatable_bind;
    [apply repeatable_write_file, own_path_one; no_sep|]. intros _ _.
  eapply repeatable_bind.
  { apply repeatable_mapM. intros url_path.
    eapply repeatable_bind; [apply repeatable_download_content|].
    intros output_path _. apply repeatable_or_raise. }
  intros files _. apply repeatable_write_file, own_path_one. no_sep.
Qed.

End PipelineTwice.

(** C7: a run on a populated cache (it returns, and has made no request)
    can be run again: the second run returns too, makes no request, and
    leaves every file as the first run left it, the per-URL output files and
    the index file among them. *)
Theorem main_twice (http_get : nat → str → option response)
    (urlparse_path : str → option str) (urljoin : str → str → option str)
    (html_parser : str → node) (tag_str prettify : node → str)
    (re_sub_root : str → str → option str) (config : Conf.t)
    (σ0 σ1 : state) :
  let run := main http_get urlparse_path urljoin html_parser tag_str
               prettify re_sub_root config in
  run σ0 = (Return (), σ1) →
  requests σ1 = requests σ0 →
  ∃ σ2, run σ1 = (Return (), σ2)
        ∧ requests σ2 = requests σ1
        ∧ fs σ2 = fs σ1.
Proof.
  cbv zeta. intros Hrun Hreq.
  destruct (repeatable_main http_get urlparse_path urljoin html_parser
              tag_str prettify re_sub_root (Conf.output_dir config)
              (λ _, False) config eq_refl) as [_ Hmain].
  destruct (Hmain _ _ _ Hrun Hreq) as (_ & Hframe & Hagain).
  destruct (Hagain σ1 σ1) as (σ2 & Hrun2 & Hreq2 & Hsim & _).
  - apply future_refl.
  - intros path. split; [|by right]. intros Hown. by apply Hframe.
  - by intros path [].
  - exists σ2. split; [done|]. split; [done|].
    apply map_eq. intros path. by destruct (Hsim path) as [_ [H|H]].
Qed.

Lemma main_twice_witness :
  ∃ σ2, example_main (example_main example_cache).2 = (Return (), σ2)
        ∧ requests σ2 = requests (example_main example_cache).2
        ∧ fs σ2 = fs (example_main example_cache).2.
Proof.
  apply (main_twice (λ _ _, None) example_urlparse_path example_urljoin
           example_html_parser example_tag_str example_prettify
           example_re_sub_root example_config example_cache
           (example_main example_cache).2);
    vm_compute; reflexivity.
Defined.

(** The first run of the example: what it writes for the article. *)
Lemma example_main_output :
  (example_main example_cache).1 = Return ()
  ∧ requests (example_main example_cache).2 = []
  ∧ fs (example_main example_cache).2 !! lit "out/article-1/index.asciidoc"
    = Some (File (lit "== Article one" ++ nl ++ nl
                  ++ lit "link:" ++ example_url ++ lit "[original article] "
                  ++ nl ++ nl
                  ++ lit "Hello **world**image:"
                  ++ image_name_of (default [] (encode_utf8 example_photo))
                                   (lit "/images/photo.png")
                  ++ lit "[A photo,,]" ++ nl ++ nl))
  ∧ fs (example_main example_cache).2 !! lit "out/index.asciidoc"
    = Some (File (lit "= A book" ++ nl ++ lit "An author" ++ nl
                  ++ lit "v1.0" ++ nl ++ lit ":toc:" ++ nl
                  ++ lit ":imagesdir: images" ++ nl
                  ++ lit ":homepage: https://example.com" ++ nl ++ nl
                  ++ lit "include::article-1/index.asciidoc[]" ++ nl)).
Proof. vm_compute. repeat split; reflexivity. Qed.

(** ** A fetch that fails *)


Section FetchFailure.

Variable http_get : nat → str → option response.
Variable urlparse_path : str → option str.
Variable urljoin : str → str → option str.
Variable html_parser : str → node.
Variable tag_str : node → str.
Variable prettify : node → str.
Variable re_sub_root : str → str → option str.



End FetchFailure.



(** * Further properties of the code *)

(** ** Splitting *)

Lemma split_no_sep (sep : N) (s : str) : sep ∉ s → Str.split sep s = [s].
Proof.
  induction s as [|c s IH]; [done|]. intros Hs.
  apply not_elem_of_cons in Hs as [Hc Hs]. cbn [Str.split].
  destruct (N.eqb_spec c sep) as [->|_]; [done|]. by rewrite IH.
Qed.

Lemma split_sep (sep : N) (s : str) :
  sep ∈ s → ∃ a b l, Str.split sep s = a :: b :: l.
Proof.
  induction s as [|c s IH]; [by intros ?%elem_of_nil|].
  intros Hs. cbn [Str.split]. destruct (N.eqb_spec c sep) as [->|Hc].
  - destruct (decide (sep ∈ s)) as [Hin|Hout].
    + destruct (IH Hin) as (a & b & l & ->). by eexists _, _, _.
    + rewrite (split_no_sep _ _ Hout). by eexists _, _, _.
  - apply elem_of_cons in Hs as [->|Hs]; [done|].
    destruct (IH Hs) as (a & b & l & ->). by eexists _, _, _.
Qed.

Lemma candidate_None (s : str) : candidate s = None ↔ 32 ∉ Str.strip s.
Proof.
  unfold candidate. split.
  - intros H Hin. apply split_sep in Hin as (a & b & l & Hsplit).
    by rewrite Hsplit in H.
  - intros Hout. by rewrite (split_no_sep _ _ Hout).
Qed.

Lemma split_nonempty (sep : N) (s : str) : Str.split sep s ≠ [].
Proof.
  destruct s as [|c s]; [done|]. cbn [Str.split].
  destruct (c =? sep); [done|]. by destruct (Str.split sep s).
Qed.

Lemma split_join (sep : N) (s : str) :
  Str.join [sep] (Str.split sep s) = s.
Proof.
  induction s as [|c s IH]; [done|]. cbn [Str.split].
  pose proof (split_nonempty sep s) as Hne.
  destruct (Str.split sep s) as [|a l]; [done|].
  destruct (N.eqb_spec c sep) as [->|Hc].
  - cbn [Str.join]. cbn [Str.join] in IH. by rewrite IH.
  - rewrite <- IH. by destruct l.
Qed.

Lemma image_fields_srcset (img : node) (alt src srcset : str) :
  attrs img !! lit "alt" = Some alt →
  attrs img !! lit "src" = Some src →
  attrs img !! lit "srcset" = Some srcset →
  image_fields img
  = ('(_, src, width, height) ←
       choose_from_srcset srcset (get img (lit "width") [])
         (get img (lit "height") []);
     Return (alt, width, height, src)).
Proof.
  intros Halt Hsrc Hset. unfold image_fields, getitem.
  by rewrite Halt, Hsrc, Hset.
Qed.

Lemma split_pieces (sep : N) (s : str) :
  Forall (λ piece, sep ∉ piece) (Str.split sep s).
Proof.
  induction s as [|c s IH]; cbn [Str.split].
  - apply Forall_singleton, not_elem_of_nil.
  - destruct (N.eqb_spec c sep) as [->|Hc].
    + apply Forall_cons. split; [apply not_elem_of_nil|done].
    + destruct (Str.split sep s) as [|piece pieces].
      * apply Forall_singleton. by intros ->%list_elem_of_singleton.
      * apply Forall_cons in IH as [Hpiece Hpieces].
        apply Forall_cons. split; [|done].
        by intros [->|H]%elem_of_cons.
Qed.

Lemma split_length (sep : N) (s : str) :
  length (Str.split sep s) = S (length (filter (λ c, c = sep) s)).
Proof.
  induction s as [|c s IH]; [done|]. cbn [Str.split]. rewrite filter_cons.
  pose proof (split_nonempty sep s) as Hne.
  destruct (N.eqb_spec c sep) as [->|Hc].
  - rewrite decide_True by done. cbn [length]. by rewrite IH.
  - rewrite decide_False by done.
    destruct (Str.split sep s) as [|piece pieces]; [done|]. exact IH.
Qed.

(** X23.  [s.split(sep)] as the image pass uses it: joining the pieces
    with the separator gives [s] back, no piece holds the separator, there
    is one piece more than there are separators in [s], and the empty
    string gives one empty piece. *)
Theorem split_round_trip (sep : N) (s : str) :
  Str.join [sep] (Str.split sep s) = s
  ∧ Forall (λ piece, sep ∉ piece) (Str.split sep s)
  ∧ length (Str.split sep s) = S (length (filter (λ c, c = sep) s))
  ∧ Str.split sep [] = [[]].
Proof.
  split; [apply split_join|]. split; [apply split_pieces|].
  split; [apply split_length|done].
Qed.

Lemma split_snoc_sep (sep : N) (s : str) :
  Str.split sep (s ++ [sep]) = Str.split sep s ++ [[]].
Proof.
  induction s as [|c s IH].
  - cbn [app Str.split]. by rewrite N.eqb_refl.
  - cbn [app Str.split]. rewrite IH. destruct (c =? sep); [done|].
    pose proof (split_nonempty sep s) as Hne.
    by destruct (Str.split sep s).
Qed.

Lemma choose_from_srcset_Raise (srcset width height s : str) :
  s ∈ Str.split 44 srcset → 32 ∉ Str.strip s →
  choose_from_srcset srcset width height = Raise IndexError.
Proof.
  intros Hs Hno. unfold choose_from_srcset.
  rewrite add_candidates_Raise; [done|].
  apply Exists_exists. exists s. split; [done|]. by apply candidate_None.
Qed.

(** X1.  An image element that has [alt], [src] and a [srcset]: the image
    pass raises [IndexError] exactly when some entry of the [srcset], once
    stripped, holds no space (an empty [srcset], an entry without
    descriptor); otherwise it returns, and it raises nothing else.  A
    [srcset] that ends with a comma always raises: its last entry is
    empty. *)
Theorem transform_img_srcset_IndexError (img : node) (alt src srcset : str) :
  attrs img !! lit "alt" = Some alt →
  attrs img !! lit "src" = Some src →
  attrs img !! lit "srcset" = Some srcset →
  (image_fields img = Raise IndexError
   ↔ ∃ s, s ∈ Str.split 44 srcset ∧ 32 ∉ Str.strip s)
  ∧ ((∃ fields, image_fields img = Return fields)
     ∨ image_fields img = Raise IndexError)
  ∧ (∀ s, image_fields
            (Tag (lit "img") (<[lit "srcset" := s ++ lit ","]> (attrs img)) [])
          = Raise IndexError).
Proof.
  intros Halt Hsrc Hset. split; [|split].
  - rewrite (image_fields_srcset _ _ _ _ Halt Hsrc Hset). split.
    + intros Hraise.
      destruct (decide (Exists (λ s, candidate s = None) (Str.split 44 srcset)))
        as [Hex|Hall].
      * apply Exists_exists in Hex as (s & Hs & Hnone). exists s.
        split; [done|]. by apply candidate_None.
      * exfalso. apply not_Exists_Forall in Hall; [|apply _].
        assert (Forall (λ s, is_Some (candidate s)) (Str.split 44 srcset))
          as Hall'.
        { eapply Forall_impl; [exact Hall|]. intros s Hs. simpl in Hs.
          by destruct (candidate s); [eexists|]. }
        destruct (choose_from_srcset_Return srcset (get img (lit "width") [])
                    (get img (lit "height") []) Hall')
          as (largest & src' & Hret & _).
        by rewrite Hret in Hraise.
    + intros (s & Hs & Hno).
      by rewrite (choose_from_srcset_Raise _ _ _ s Hs Hno).
  - rewrite (image_fields_srcset _ _ _ _ Halt Hsrc Hset).
    destruct (decide (Exists (λ s, candidate s = None) (Str.split 44 srcset)))
      as [Hex|Hall].
    + right. apply Exists_exists in Hex as (s & Hs & Hnone).
      apply candidate_None in Hnone.
      by rewrite (choose_from_srcset_Raise _ _ _ s Hs Hnone).
    + left. apply not_Exists_Forall in Hall; [|apply _].
      assert (Forall (λ s, is_Some (candidate s)) (Str.split 44 srcset))
        as Hall'.
      { eapply Forall_impl; [exact Hall|]. intros s Hs. simpl in Hs.
        by destruct (candidate s); [eexists|]. }
      destruct (choose_from_srcset_Return srcset (get img (lit "width") [])
                  (get img (lit "height") []) Hall')
        as (largest & src' & -> & _).
      by eexists.
  - intros s.
    rewrite (image_fields_srcset _ alt src (s ++ lit ",")).
    + rewrite (choose_from_srcset_Raise _ _ _ []); [done| |].
      * change (lit ",") with [44]. rewrite split_snoc_sep.
        apply elem_of_app. right. apply list_elem_of_here.
      * by intros ?%elem_of_nil.
    + cbn [attrs]. by rewrite lookup_insert_ne.
    + cbn [attrs]. by rewrite lookup_insert_ne.
    + cbn [attrs]. by rewrite lookup_insert_eq.
Qed.

(** An image whose [srcset] ends with a comma. *)
Lemma transform_img_srcset_IndexError_witness :
  image_fields
    (Tag (lit "img")
       (<[lit "srcset" := lit "a.png 1x" ++ lit ","]>
          (list_to_map [ (lit "alt", lit "A"); (lit "src", lit "a.png");
                         (lit "srcset", lit "a.png 1x") ])) [])
  = Raise IndexError.
Proof.
  refine (proj2 (proj2 (transform_img_srcset_IndexError
                   (Tag (lit "img")
                      (list_to_map [ (lit "alt", lit "A");
                                     (lit "src", lit "a.png");
                                     (lit "srcset", lit "a.png 1x") ]) [])
                   (lit "A") (lit "a.png") (lit "a.png 1x") _ _ _))
                (lit "a.png 1x"));
    vm_compute; reflexivity.
Defined.

(** ** Extensions and image names *)

Lemma rfind_from_last (c : N) (s : str) (i found : Z) :
  ((c ∉ s) ∧ Path.rfind_from c s i found = found)
  ∨ ∃ k, Path.rfind_from c s i found = (i + Z.of_nat k)%Z
         ∧ s !! k = Some c ∧ c ∉ drop (S k) s.
Proof.
  revert i found. induction s as [|d s IH]; intros i found.
  - left. split; [apply not_elem_of_nil|done].
  - cbn [Path.rfind_from]. destruct (d =? c) eqn:Hd.
    + apply N.eqb_eq in Hd as ->.
      destruct (IH (i + 1)%Z i) as [[Hnot ->]|(k & -> & Hk & Hdrop)].
      * right. exists 0%nat. split; [lia|]. by split.
      * right. exists (S k). split; [lia|]. by split.
    + apply N.eqb_neq in Hd.
      destruct (IH (i + 1)%Z found) as [[Hnot ->]|(k & -> & Hk & Hdrop)].
      * left. split; [|done]. intros [->|H]%elem_of_cons; done.
      * right. exists (S k). split; [lia|]. by split.
Qed.

Lemma slice_existsb (p : str) (i j : Z) (f : N → bool) :
  existsb f (Path.slice p i j) = true → (Z.to_nat i < Z.to_nat j)%nat.
Proof.
  unfold Path.slice. intros H.
  destruct (Z.to_nat j - Z.to_nat i)%nat as [|n] eqn:Hn; [done|lia].
Qed.

(** How [splitext] cuts: not at all, or at the last dot of the path, which
    then lies in the last component and is not its first character. *)
Lemma splitext_cases (p : str) :
  Path.splitext p = (p, [])
  ∨ ∃ k, Path.splitext p = (take k p, drop k p)
         ∧ p !! k = Some Path.extsep
         ∧ (Path.extsep ∉ drop (S k) p)
         ∧ (Path.sep ∉ drop (S k) p)
         ∧ Path.extsep ∈ Path.basename p
         ∧ (0 < k)%nat.
Proof.
  unfold Path.splitext, Path.basename, Path.rfind.
  destruct (rfind_from_last Path.extsep p 0 (-1))
    as [[Hnodot ->]|(k & -> & Hk & Hdot)].
  - left. destruct (rfind_from_last Path.sep p 0 (-1))
      as [[_ ->]|(j & -> & _ & _)]; [done|].
    by assert ((0 + Z.of_nat j <? -1)%Z = false) as ->
      by (apply Z.ltb_ge; lia).
  - replace (Z.to_nat (0 + Z.of_nat k)) with k by lia.
    destruct (rfind_from_last Path.sep p 0 (-1))
      as [[Hnosep ->]|(j & -> & Hj & Hsep)].
    + destruct (_ && _) eqn:Hcond; [right|by left]. exists k.
      apply andb_true_iff in Hcond as [_ Hsome].
      apply slice_existsb in Hsome.
      split; [done|]. split; [done|]. split; [done|].
      split; [|split; [|lia]].
      * intros H. apply Hnosep.
        apply list_elem_of_lookup in H as [i' H].
        rewrite lookup_drop in H. by eapply list_elem_of_lookup_2.
      * replace (Z.to_nat (-1 + 1)) with 0%nat by lia. rewrite drop_0.
        by eapply list_elem_of_lookup_2.
    + destruct (_ && _) eqn:Hcond; [right|by left]. exists k.
      apply andb_true_iff in Hcond as [Hlt _].
      apply Z.ltb_lt in Hlt. assert (j < k)%nat as Hjk by lia.
      split; [done|]. split; [done|]. split; [done|].
      split; [|split; [|lia]].
      * intros H. apply Hsep.
        apply list_elem_of_lookup in H as [i' H].
        rewrite lookup_drop in H.
        apply (list_elem_of_lookup_2 _ (S k + i' - S j)%nat).
        rewrite lookup_drop. rewrite <- H. f_equal. lia.
      * replace (Z.to_nat (0 + Z.of_nat j + 1)) with (S j) by lia.
        apply (list_elem_of_lookup_2 _ (k - S j)%nat).
        rewrite lookup_drop. rewrite <- Hk. f_equal. lia.
Qed.

(** The extension [splitext] gives: none, or a dot and what follows it,
    without a dot or a separator. *)
Lemma splitext_ext (p : str) :
  snd (Path.splitext p) = []
  ∨ ∃ e, snd (Path.splitext p) = Path.extsep :: e
         ∧ (Path.extsep ∉ e) ∧ (Path.sep ∉ e).
Proof.
  destruct (splitext_cases p) as [->|(k & -> & Hk & Hdot & Hsep & _)];
    [by left|right].
  exists (drop (S k) p). cbn [snd]. by rewrite <- (drop_S _ _ _ Hk).
Qed.

(** X2.  [os.path.splitext] as [compute_image_path] uses it: the two parts
    give the path back; the extension is empty, or a dot followed by
    characters that are neither dots nor separators; a last component
    without a dot has no extension; and before an extension the root is not
    empty. *)
Theorem splitext_shape (p : str) :
  fst (Path.splitext p) ++ snd (Path.splitext p) = p
  ∧ (snd (Path.splitext p) = []
     ∨ ∃ e, snd (Path.splitext p) = Path.extsep :: e
            ∧ (Path.extsep ∉ e) ∧ (Path.sep ∉ e))
  ∧ (Path.extsep ∉ Path.basename p → snd (Path.splitext p) = [])
  ∧ (snd (Path.splitext p) ≠ [] → fst (Path.splitext p) ≠ []).
Proof.
  split; [|split; [apply splitext_ext|split]].
  - destruct (splitext_cases p) as [->|(k & -> & _)]; cbn [fst snd].
    + apply app_nil_r.
    + apply take_drop.
  - intros Hbase.
    by destruct (splitext_cases p) as [->|(k & _ & _ & _ & _ & Hin & _)].
  - destruct (splitext_cases p) as [->|(k & -> & Hk & _ & _ & _ & Hpos)];
      cbn [fst snd]; [done|].
    intros _ Hnil. apply (f_equal length) in Hnil.
    apply lookup_lt_Some in Hk. rewrite length_take in Hnil.
    cbn [length] in Hnil. lia.
Qed.

Lemma hex_digit_is_hex (v : N) :
  is_hex_digit (Sha256.hex_digit (v mod 16)) = true.
Proof.
  assert (v mod 16 < 16) as H by (by apply N.mod_lt).
  generalize dependent (v mod 16). intros d H.
  unfold Sha256.hex_digit, is_hex_digit. destruct (d <? 10) eqn:Hlt.
  - apply N.ltb_lt in Hlt. apply orb_true_iff. left.
    apply andb_true_iff. split; apply N.leb_le; lia.
  - apply N.ltb_ge in Hlt. apply orb_true_iff. right.
    apply andb_true_iff. split; apply N.leb_le; lia.
Qed.

Lemma hex_word_shape (w : N) :
  length (Sha256.hex_word w) = 8%nat
  ∧ Forall (λ c, is_hex_digit c = true) (Sha256.hex_word w).
Proof.
  unfold Sha256.hex_word. split; [done|].
  apply Forall_fmap, Forall_forall. intros i _. apply hex_digit_is_hex.
Qed.

Lemma hexdigest_shape (bytes : list N) :
  length (Sha256.hexdigest bytes) = 64%nat
  ∧ Forall (λ c, is_hex_digit c = true) (Sha256.hexdigest bytes).
Proof.
  unfold Sha256.hexdigest. cbv zeta.
  split.
  - rewrite !length_app. by rewrite !(proj1 (hex_word_shape _)).
  - repeat (apply Forall_app; split); apply hex_word_shape.
Qed.

Lemma is_hex_digit_not_sep (cs : str) :
  Forall (λ c, is_hex_digit c = true) cs →
  (Path.sep ∉ cs) ∧ (Path.extsep ∉ cs).
Proof.
  intros Hall. rewrite Forall_forall in Hall.
  split; intros H; by apply Hall in H.
Qed.

Section ImageName.

Variable urlparse_path : str → option str.

(** X3.  The target of an image: when [compute_image_path] returns, the
    file name is the 64 hexadecimal digits of the digest followed by the
    extension of the URL's path, it holds no separator, and the path is
    that name directly below [images] in the root.  Whatever the URL, the
    image is written nowhere else. *)
Theorem compute_image_path_confined (url_path root : str) (σ σ' : state)
    (file_path image_name : str) :
  compute_image_path urlparse_path url_path root σ
  = (Return (file_path, image_name), σ') →
  ∃ digest ext,
    image_name = digest ++ ext
    ∧ length digest = 64%nat
    ∧ Forall (λ c, is_hex_digit c = true) digest
    ∧ (ext = [] ∨ ∃ e, ext = Path.extsep :: e ∧ (Path.extsep ∉ e))
    ∧ (Path.sep ∉ image_name)
    ∧ file_path = dir_prefix root ++ lit "images/" ++ image_name.
Proof.
  intros H. unfold compute_image_path in H.
  apply bind_Return_inv in H as (m & σ1 & Hm & H).
  assert (∃ bytes, m = Sha256.hexdigest bytes) as [bytes ->]
    by (eapply sha256_of_returns; by eexists _, _).
  apply bind_Return_inv in H as (_ & σ2 & _ & H).
  apply bind_Return_inv in H as (u_path & σ3 & _ & H).
  injection H as <- <- _.
  destruct (hexdigest_shape bytes) as [Hlen Hhex].
  pose proof (splitext_ext u_path) as Hext.
  assert (Path.sep ∉ Sha256.hexdigest bytes ++ snd (Path.splitext u_path))
    as Hnosep.
  { intros [Hin|Hin]%elem_of_app.
    - by destruct (is_hex_digit_not_sep _ Hhex).
    - destruct Hext as [Hnil|(e & He & _ & Hsep)].
      + rewrite Hnil in Hin. by apply elem_of_nil in Hin.
      + rewrite He in Hin. by apply elem_of_cons in Hin as [|]. }
  exists (Sha256.hexdigest bytes), (snd (Path.splitext u_path)).
  split; [done|]. split; [done|]. split; [done|]. split.
  { destruct Hext as [Hnil|(e & He & Hdot & _)]; [by left|right; eauto]. }
  split; [done|].
  rewrite join_two; [|no_sep|by apply startswith_sep_no_sep].
  rewrite dir_prefix_component; [|done|no_sep].
  by rewrite <- !app_assoc.
Qed.

End ImageName.

(** The image of the example article. *)
Lemma compute_image_path_confined_witness :
  ∃ digest ext,
    lit "3581d39eca2f2f02c66cf41756fc3225c5d0f33c284d647e9b4703064253d310.png"
    = digest ++ ext
    ∧ length digest = 64%nat
    ∧ Forall (λ c, is_hex_digit c = true) digest
    ∧ (ext = [] ∨ ∃ e, ext = Path.extsep :: e ∧ (Path.extsep ∉ e))
    ∧ (Path.sep ∉
       lit "3581d39eca2f2f02c66cf41756fc3225c5d0f33c284d647e9b4703064253d310.png")
    ∧ lit "out/images/3581d39eca2f2f02c66cf41756fc3225c5d0f33c284d647e9b4703064253d310.png"
      = dir_prefix (lit "out") ++ lit "images/"
        ++ lit "3581d39eca2f2f02c66cf41756fc3225c5d0f33c284d647e9b4703064253d310.png".
Proof.
  apply (compute_image_path_confined example_urlparse_path example_photo
           (lit "out") (State ∅ [] [])
           (State {[ lit "out/.cached" := Directory ]} [] [])).
  vm_compute. reflexivity.
Defined.

Lemma dir_prefix_idemp (root : str) :
  dir_prefix (dir_prefix root) = dir_prefix root.
Proof.
  unfold dir_prefix.
  destruct (bool_decide (root = []) || Path.endswith_sep root) eqn:Hroot.
  - by rewrite Hroot.
  - rewrite endswith_sep_snoc. replace (Path.sep =? Path.sep) with true by done.
    by rewrite orb_true_r.
Qed.

Section OutputPath.

Variable http_get : nat → str → option response.
Variable urlparse_path : str → option str.
Variable urljoin : str → str → option str.
Variable html_parser : str → node.
Variable tag_str : node → str.
Variable prettify : node → str.

Lemma download_content_Return (url_path root : str) (σ σ' : state)
    (output_path : str) :
  download_content http_get urlparse_path urljoin html_parser tag_str
    prettify url_path root σ = (Return output_path, σ') →
  ∃ u_path,
    urlparse_path url_path = Some u_path
    ∧ output_path
      = Path.join (Path.join root [Path.basename (Str.rstrip_char 47 u_path)])
                  [lit "index.asciidoc"].
Proof.
  intros H. unfold download_content in H. cbv zeta in H.
  bind_inv H. bind_inv H.
  destruct (urlparse_path url_path) as [u_path|] eqn:Hurl; [|done].
  injection Ha0 as <- <-.
  repeat bind_inv H.
  injection H as <- _. by exists u_path.
Qed.

(** X4.  The file of an article: when [download_content] returns, its
    result is [index.asciidoc] in the directory named after the last
    component of the URL's path, trailing slashes dropped.  So two URLs
    whose paths end in the same component are written to the same file. *)
Theorem download_content_output_path (url_path root u_path : str)
    (σ σ' : state) (output_path : str) :
  urlparse_path url_path = Some u_path →
  download_content http_get urlparse_path urljoin html_parser tag_str
    prettify url_path root σ = (Return output_path, σ') →
  output_path
  = Path.join (Path.join root [Path.basename (Str.rstrip_char 47 u_path)])
              [lit "index.asciidoc"]
  ∧ ∀ url_path' u_path' σ1 σ1' output_path',
      urlparse_path url_path' = Some u_path' →
      Path.basename (Str.rstrip_char 47 u_path')
      = Path.basename (Str.rstrip_char 47 u_path) →
      download_content http_get urlparse_path urljoin html_parser tag_str
        prettify url_path' root σ1 = (Return output_path', σ1') →
      output_path' = output_path.
Proof.
  intros Hurl H. apply download_content_Return in H as (u & Hu & ->).
  rewrite Hurl in Hu. injection Hu as <-. split; [done|].
  intros url_path' u_path' σ1 σ1' output_path' Hurl' Hsame H'.
  apply download_content_Return in H' as (u' & Hu' & ->).
  rewrite Hurl' in Hu'. injection Hu' as <-. by rewrite Hsame.
Qed.

(** X5.  A URL whose path is empty or made of slashes only: the article
    is written to [index.asciidoc] of the root itself, the path at which
    [main] writes the master index afterwards. *)
Theorem download_content_root_url (url_path root u_path : str)
    (σ σ' : state) (output_path : str) :
  root ≠ [] →
  urlparse_path url_path = Some u_path →
  Forall (λ c, c = Path.sep) u_path →
  download_content http_get urlparse_path urljoin html_parser tag_str
    prettify url_path root σ = (Return output_path, σ') →
  output_path = Path.join root [lit "index.asciidoc"].
Proof.
  intros _ Hurl Hslashes H.
  apply download_content_Return in H as (u & Hu & ->).
  rewrite Hurl in Hu. injection Hu as <-.
  assert (Str.rstrip_char 47 u_path = []) as ->.
  { unfold Str.rstrip_char.
    assert (Str.lstrip_char 47 (reverse u_path) = []) as ->; [|done].
    apply Forall_reverse in Hslashes.
    induction Hslashes as [|c l -> _ IH]; [done|].
    cbn [Str.lstrip_char]. by rewrite N.eqb_refl. }
  change (Path.basename []) with (@nil N).
  rewrite !join_one by no_sep. rewrite app_nil_r.
  by rewrite dir_prefix_idemp.
Qed.

End OutputPath.

(** The article of the example. *)
Lemma download_content_output_path_witness :
  lit "out/article-1/index.asciidoc"
  = Path.join (Path.join (lit "out")
                 [Path.basename (Str.rstrip_char 47 (lit "/post/article-1/"))])
              [lit "index.asciidoc"]
  ∧ ∀ url_path' u_path' σ1 σ1' output_path',
      example_urlparse_path url_path' = Some u_path' →
      Path.basename (Str.rstrip_char 47 u_path')
      = Path.basename (Str.rstrip_char 47 (lit "/post/article-1/")) →
      download_content (λ _ _, None) example_urlparse_path example_urljoin
        example_html_parser example_tag_str example_prettify url_path'
        (lit "out") σ1 = (Return output_path', σ1') →
      output_path' = lit "out/article-1/index.asciidoc".
Proof.
  apply (download_content_output_path (λ _ _, None) example_urlparse_path
           example_urljoin example_html_parser example_tag_str
           example_prettify example_url (lit "out") (lit "/post/article-1/")
           example_cache
           (download_content (λ _ _, None) example_urlparse_path
              example_urljoin example_html_parser example_tag_str
              example_prettify example_url (lit "out") example_cache).2);
    vm_compute; reflexivity.
Defined.

(** The front page of a site: its path is one slash. *)
Lemma download_content_root_url_witness :
  lit "out/index.asciidoc" = Path.join (lit "out") [lit "index.asciidoc"].
Proof.
  apply (download_content_root_url example_http_get
           (example_urlparse_as (lit "/")) example_urljoin
           example_html_parser example_tag_str example_prettify
           (lit "https://unintendedconsequenc.es/") (lit "out") (lit "/")
           example_fresh
           (download_content example_http_get
              (example_urlparse_as (lit "/")) example_urljoin
              example_html_parser example_tag_str example_prettify
              (lit "https://unintendedconsequenc.es/") (lit "out")
              example_fresh).2).
  - by vm_compute.
  - vm_compute. reflexivity.
  - by apply Forall_singleton.
  - vm_compute. reflexivity.
Defined.

(** ** What a run leaves in place *)

Section Keeps.

Variable written : str → Prop.

Lemma keeps_same {A} (m : M A) :
  (∀ s r s', m s = (r, s') → fs s' = fs s) → keeps written m.
Proof.
  intros H s r s' Hrun. apply H in Hrun. split.
  - intros path k. unfold kind_at. by rewrite Hrun.
  - intros path content _. by rewrite Hrun.
Qed.

Lemma keeps_weaken {A} (written' : str → Prop) (m : M A) :
  (∀ path, written' path → written path) →
  keeps written' m → keeps written m.
Proof.
  intros Hsub Hm s r s' Hrun. destruct (Hm _ _ _ Hrun) as [Hfut Hfile].
  split; [done|]. intros path content Hout. apply Hfile. naive_solver.
Qed.

Lemma keeps_lift {A} (r : result A) : keeps written (lift r).
Proof. apply keeps_same. by intros s r' s' [= <- <-]. Qed.

Lemma keeps_ret {A} (a : A) : keeps written (mret a).
Proof. apply (keeps_lift (Return a)). Qed.

Lemma keeps_or_raise {A} (e : exception) (o : option A) :
  keeps written (or_raise e o).
Proof. destruct o as [a|]; [apply keeps_ret|apply (keeps_lift (Raise e))]. Qed.

Lemma keeps_put_line (line : str) : keeps written (put_line line).
Proof. apply keeps_same. by intros s r s' [= <- <-]. Qed.

Lemma keeps_bind {A B} (m : M A) (k : A → M B) :
  keeps written m → (∀ a, returns m a → keeps written (k a)) →
  keeps written (m ≫= k).
Proof.
  intros Hm Hk s r s' Hrun. unfold mbind, M_bind, bind in Hrun.
  destruct (m s) as [[a|code|e] s1] eqn:Hms;
    destruct (Hm _ _ _ Hms) as [Hfut1 Hfile1].
  - assert (returns m a) as Ha by (by exists s, s1).
    destruct (Hk a Ha _ _ _ Hrun) as [Hfut2 Hfile2]. split.
    + intros path kd H. by apply Hfut2, Hfut1.
    + intros path content Hout H. by apply Hfile2, Hfile1.
  - by injection Hrun as <- <-.
  - by injection Hrun as <- <-.
Qed.

Lemma keeps_mapM {A B} (f : A → M B) (l : list A) :
  (∀ x, keeps written (f x)) → keeps written (mapM f l).
Proof.
  intros Hf. induction l as [|x l IH]; [apply keeps_ret|].
  cbn [mapM]. apply keeps_bind; [apply Hf|]. intros y _.
  apply keeps_bind; [apply IH|]. intros ys _. apply keeps_ret.
Qed.

Lemma keeps_makedirs (path : str) : keeps written (makedirs path).
Proof.
  intros s r s'. unfold makedirs.
  destruct (fs s !! path) as [[content|]|] eqn:Hpath; intros [= <- <-].
  - split; [apply future_refl|done].
  - split.
    + intros path' k. rewrite kind_at_insert. destruct (decide _) as [<-|]; [|done].
      unfold kind_at. rewrite Hpath. by intros [= <-].
    + intros path' content _ H. cbn [fs].
      destruct (decide (path = path')) as [<-|]; [congruence|].
      by rewrite lookup_insert_ne.
  - split.
    + intros path' k. rewrite kind_at_insert. destruct (decide _) as [<-|]; [|done].
      unfold kind_at. by rewrite Hpath.
    + intros path' content _ H. cbn [fs].
      destruct (decide (path = path')) as [<-|]; [congruence|].
      by rewrite lookup_insert_ne.
Qed.

Lemma keeps_write_file (path content : str) :
  written path → keeps written (write_file path content).
Proof.
  intros Hw s r s'. unfold write_file.
  destruct (fs s !! path) as [[content0|]|] eqn:Hpath; intros [= <- <-].
  - split.
    + intros path' k. rewrite kind_at_insert. destruct (decide _) as [<-|]; [|done].
      unfold kind_at. rewrite Hpath. by intros [= <-].
    + intros path' content' Hout H. cbn [fs].
      destruct (decide (path = path')) as [<-|]; [done|].
      by rewrite lookup_insert_ne.
  - split; [apply future_refl|done].
  - split.
    + intros path' k. rewrite kind_at_insert. destruct (decide _) as [<-|]; [|done].
      unfold kind_at. by rewrite Hpath.
    + intros path' content' Hout H. cbn [fs].
      destruct (decide (path = path')) as [<-|]; [done|].
      by rewrite lookup_insert_ne.
Qed.

Lemma keeps_append_file (path text : str) :
  written path → keeps written (append_file path text).
Proof.
  intros Hw s r s'. unfold append_file.
  destruct (fs s !! path) as [[content0|]|] eqn:Hpath; intros [= <- <-].
  - split.
    + intros path' k. rewrite kind_at_insert. destruct (decide _) as [<-|]; [|done].
      unfold kind_at. rewrite Hpath. by intros [= <-].
    + intros path' content' Hout H. cbn [fs].
      destruct (decide (path = path')) as [<-|]; [done|].
      by rewrite lookup_insert_ne.
  - split; [apply future_refl|done].
  - split; [apply future_refl|done].
Qed.

Lemma keeps_read_file (path : str) : keeps written (read_file path).
Proof.
  apply keeps_same. intros s r s'. unfold read_file.
  destruct (fs s !! path) as [[?|]|]; by intros [= <- <-].
Qed.

End Keeps.

Section KeepsCache.

Variable http_get : nat → str → option response.
Variable urlparse_path : str → option str.
Variable written : str → Prop.

(** After a request for a path at which nothing stands: the failure is
    printed, or the body is written there. *)
Lemma keeps_after_request {A} (url_path path : str) (a : A) :
  keeps written
    (cached ← path_exists path;
     if cached : bool then mret a
     else req ← requests_get http_get url_path;
          if negb (status_code req =? 200)
          then put_line (cannot_make_request req);; exit 1
          else write_file path (body req);; ret a).
Proof.
  intros s r s' Hrun. unfold mbind, M_bind, bind, path_exists in Hrun.
  destruct (fs s !! path) as [e|] eqn:Hpath.
  - rewrite bool_decide_eq_true_2 in Hrun by eauto.
    injection Hrun as <- <-. split; [apply future_refl|done].
  - rewrite bool_decide_eq_false_2 in Hrun by (by intros [? ?]).
    unfold requests_get in Hrun.
    destruct (http_get _ _) as [req|].
    + destruct (negb _).
      * injection Hrun as <- <-. split; [by intros path' k|done].
      * unfold write_file in Hrun. cbn [fs] in Hrun. rewrite Hpath in Hrun.
        injection Hrun as <- <-. split.
        -- intros path' k. rewrite kind_at_insert.
           destruct (decide _) as [<-|]; [|done].
           unfold kind_at. cbn [fs]. by rewrite Hpath.
        -- intros path' content' _ H. cbn [fs].
           destruct (decide (path = path')) as [<-|]; [congruence|].
           by rewrite lookup_insert_ne.
    + injection Hrun as <- <-. split; [by intros path' k|done].
Qed.

Lemma keeps_load_file_content (url_path file_path : str) :
  keeps written (load_file_content http_get url_path file_path).
Proof.
  intros s r s' Hrun. unfold load_file_content in Hrun.
  unfold mbind, M_bind, bind, path_exists in Hrun.
  destruct (fs s !! file_path) as [e|] eqn:Hpath.
  - rewrite bool_decide_eq_true_2 in Hrun by eauto.
    by apply (keeps_read_file written file_path s r s').
  - rewrite bool_decide_eq_false_2 in Hrun by (by intros [? ?]).
    unfold requests_get in Hrun.
    destruct (http_get _ _) as [req|].
    + destruct (negb _).
      * injection Hrun as <- <-. split; [by intros path' k|done].
      * unfold write_file in Hrun. cbn [fs] in Hrun. rewrite Hpath in Hrun.
        injection Hrun as <- <-. split.
        -- intros path' k. rewrite kind_at_insert.
           destruct (decide _) as [<-|]; [|done].
           unfold kind_at. cbn [fs]. by rewrite Hpath.
        -- intros path' content' _ H. cbn [fs].
           destruct (decide (path' = file_path)) as [->|]; [congruence|].
           by rewrite lookup_insert_ne.
    + injection Hrun as <- <-. split; [by intros path' k|done].
Qed.

Lemma keeps_sha256_of (s : str) : keeps written (sha256_of s).
Proof.
  unfold sha256_of. apply keeps_bind; [apply keeps_or_raise|].
  intros bytes _. apply keeps_ret.
Qed.

Lemma keeps_compute_image_path (url_path root : str) :
  keeps written (compute_image_path urlparse_path url_path root).
Proof.
  unfold compute_image_path.
  apply keeps_bind; [apply keeps_sha256_of|]. intros m _.
  apply keeps_bind; [apply keeps_makedirs|]. intros _ _.
  apply keeps_bind; [apply keeps_or_raise|]. intros u_path _.
  apply keeps_ret.
Qed.

Lemma keeps_download_image (url_path root : str) :
  keeps written (download_image http_get urlparse_path url_path root).
Proof.
  unfold download_image.
  apply keeps_bind; [apply keeps_compute_image_path|].
  intros [image_path image_name] _.
  apply (keeps_after_request url_path image_path image_name).
Qed.

End KeepsCache.

Lemma article_path_own (root path : str) :
  article_path root path → own_path root path.
Proof. intros (b & Hb & ->). by apply own_path_index. Qed.

Section KeepsPipeline.

Variable http_get : nat → str → option response.
Variable urlparse_path : str → option str.
Variable urljoin : str → str → option str.
Variable html_parser : str → node.
Variable tag_str : node → str.
Variable prettify : node → str.
Variable re_sub_root : str → str → option str.

Lemma keeps_transform (written : str → Prop) (self : transformer) :
  keeps written (transform http_get urlparse_path urljoin self).
Proof.
  unfold transform. cbv zeta.
  apply keeps_bind; [apply keeps_or_raise|]. intros site _.
  apply keeps_bind.
  { unfold transform_img. apply keeps_bind; [|intros; apply keeps_ret].
    apply keeps_mapM. intros img. unfold transform_img_repl.
    apply keeps_bind; [apply keeps_lift|].
    intros [[[alt width] height] src] _.
    apply keeps_bind; [apply keeps_or_raise|]. intros url_path _.
    apply keeps_bind; [apply keeps_download_image|].
    intros image_name _. apply keeps_ret. }
  intros site' _.
  apply keeps_bind; [apply keeps_lift|]. intros site'' _.
  destruct (transformer_class_of self); [apply keeps_ret|apply keeps_lift].
Qed.

Lemma keeps_download_content (url_path root : str) :
  keeps (article_path root)
    (download_content http_get urlparse_path urljoin html_parser tag_str
       prettify url_path root).
Proof.
  unfold download_content. cbv zeta.
  apply keeps_bind; [apply keeps_sha256_of|]. intros m _.
  apply keeps_bind; [apply keeps_or_raise|]. intros u_path _.
  apply keeps_bind; [apply keeps_makedirs|]. intros _ _.
  apply keeps_bind; [apply keeps_put_line|]. intros _ _.
  apply keeps_bind; [apply keeps_load_file_content|]. intros content _.
  set (output_path :=
         Path.join (Path.join root
                      [Path.basename (Str.rstrip_char 47 u_path)])
                   [lit "index.asciidoc"]).
  assert (article_path root output_path) as Hw
    by (eexists; split; [apply basename_no_sep|done]).
  apply keeps_bind; [by apply keeps_write_file|]. intros _ _.
  apply keeps_bind; [apply keeps_lift|]. intros title _.
  apply keeps_bind; [by apply keeps_append_file|]. intros _ _.
  apply keeps_bind; [apply keeps_lift|]. intros metadata _.
  apply keeps_bind; [by apply keeps_append_file|]. intros _ _.
  apply keeps_bind; [apply keeps_lift|]. intros extractor _.
  apply keeps_bind; [apply keeps_lift|]. intros content' _.
  apply keeps_bind; [apply keeps_transform|]. intros content'' _.
  apply keeps_bind; [apply keeps_lift|]. intros content3 _.
  apply keeps_bind; [apply keeps_or_raise|]. intros content4 _.
  apply keeps_bind; [by apply keeps_append_file|]. intros _ _.
  apply keeps_bind; [apply keeps_mapM; intros line; apply keeps_put_line|].
  intros _ _. apply keeps_ret.
Qed.

Lemma keeps_main (config : Conf.t) :
  keeps (own_path (Conf.output_dir config))
    (main http_get urlparse_path urljoin html_parser tag_str prettify
       re_sub_root config).
Proof.
  unfold main, generate_makefile. cbv zeta.
  apply keeps_bind; [apply keeps_makedirs|]. intros _ _.
  apply keeps_bind; [apply keeps_makedirs|]. intros _ _.
  apply keeps_bind; [apply keeps_write_file, own_path_one; no_sep|].
  intros _ _.
  apply keeps_bind.
  { apply keeps_mapM. intros url_path.
    apply keeps_bind; [|intros; apply keeps_or_raise].
    eapply keeps_weaken; [|apply keeps_download_content].
    apply article_path_own. }
  intros files _. apply keeps_write_file, own_path_one. no_sep.
Qed.

End KeepsPipeline.

(** X6.  However [main] ends, it removes nothing: a directory of the
    file store is still a directory, a file is still a file, and a cached
    page or a stored image that was there keeps its content. *)
Theorem main_leaves_in_place (http_get : nat → str → option response)
    (urlparse_path : str → option str) (urljoin : str → str → option str)
    (html_parser : str → node) (tag_str prettify : node → str)
    (re_sub_root : str → str → option str) (config : Conf.t)
    (σ : state) :
  let root := Conf.output_dir config in
  let σ' := (main http_get urlparse_path urljoin html_parser tag_str
               prettify re_sub_root config σ).2 in
  (∀ path, fs σ !! path = Some Directory → fs σ' !! path = Some Directory)
  ∧ (∀ path content, fs σ !! path = Some (File content) →
       ∃ content', fs σ' !! path = Some (File content'))
  ∧ (∀ bytes content,
       fs σ !! Path.join root [lit ".cached";
                               Sha256.hexdigest bytes ++ lit ".html"]
       = Some (File content) →
       fs σ' !! Path.join root [lit ".cached";
                                Sha256.hexdigest bytes ++ lit ".html"]
       = Some (File content))
  ∧ (∀ bytes u_path content,
       fs σ !! Path.join root [lit "images"; image_name_of bytes u_path]
       = Some (File content) →
       fs σ' !! Path.join root [lit "images"; image_name_of bytes u_path]
       = Some (File content)).
Proof.
  intros root σ'.
  destruct (main http_get urlparse_path urljoin html_parser tag_str
              prettify re_sub_root config σ) as [r σ1] eqn:Hrun.
  apply keeps_main in Hrun as [Hfut Hfile]. subst σ'. cbn [snd].
  split; [|split; [|split]].
  - intros path H. by apply kind_at_Directory, Hfut, kind_at_Directory.
  - intros path content H. apply kind_at_File, Hfut, kind_at_File. eauto.
  - intros bytes content H. apply Hfile; [|done]. apply not_own_cache_file.
  - intros bytes u_path content H. apply Hfile; [|done].
    apply not_own_image_file.
Qed.

(** ** What a run that returns has made *)

Lemma article_path_inv (root path : str) :
  article_path root path →
  path = dir_prefix root ++ lit "index.asciidoc"
  ∨ ∃ b, b ≠ [] ∧ (Path.sep ∉ b)
         ∧ path = dir_prefix root ++ b ++ Path.sep :: lit "index.asciidoc".
Proof.
  intros (b & Hb & ->). rewrite (join_one _ _ Hb).
  rewrite join_one by no_sep. destruct b as [|c b].
  - left. by rewrite app_nil_r, dir_prefix_idemp.
  - right. exists (c :: b). split; [done|]. split; [done|].
    rewrite dir_prefix_component by done. by rewrite <- !app_assoc.
Qed.

Lemma one_component_not_article (root name : str) :
  Path.sep ∉ name → name ≠ lit "index.asciidoc" →
  ¬ article_path root (Path.join root [name]).
Proof.
  intros Hname Hne [H|(b & _ & _ & H)]%article_path_inv;
    rewrite (join_one _ _ Hname) in H; apply app_inv_head in H.
  - done.
  - apply Hname. rewrite H. apply elem_of_app. right. apply list_elem_of_here.
Qed.

Lemma mapM_Return_each {A B} (written : str → Prop) (f : A → M B)
    (l : list A) (σ σ' : state) (ys : list B) :
  (∀ x, keeps written (f x)) →
  mapM f l σ = (Return ys, σ') →
  length ys = length l
  ∧ ∀ x, x ∈ l → ∃ y s1 s2, f x s1 = (Return y, s2) ∧ future σ' s2.
Proof.
  intros Hf. revert σ ys. induction l as [|x l IH]; intros σ ys H.
  - injection H as <- <-. split; [done|]. by intros x ?%elem_of_nil.
  - cbn [mapM] in H. bind_inv H. bind_inv H. injection H as <- <-.
    destruct (IH _ _ Ha0) as [Hlen Heach].
    split; [cbn [length]; by rewrite Hlen|].
    intros x' [->|Hx']%elem_of_cons.
    + exists a, σ, s. split; [done|].
      by destruct (keeps_mapM written f l Hf _ _ _ Ha0).
    + by apply Heach.
Qed.

Section Layout.

Variable http_get : nat → str → option response.
Variable urlparse_path : str → option str.
Variable urljoin : str → str → option str.
Variable html_parser : str → node.
Variable tag_str : node → str.
Variable prettify : node → str.
Variable re_sub_root : str → str → option str.

Lemma download_content_Return_file (url_path root : str) (σ σ' : state)
    (output_path : str) :
  download_content http_get urlparse_path urljoin html_parser tag_str
    prettify url_path root σ = (Return output_path, σ') →
  ∃ content, fs σ' !! output_path = Some (File content).
Proof.
  intros H. unfold download_content in H. cbv zeta in H.
  repeat bind_inv H. injection H as <- <-.
  match goal with
  | Hp : mapM put_line _ ?s1 = (_, ?s2),
    Ha : append_file _ _ _ = (Return _, ?s1) |- _ =>
      apply (keeps_mapM (λ _, False) put_line _
               (keeps_put_line (λ _, False))) in Hp as [Hfut _];
      unfold append_file in Ha
  end.
  apply kind_at_File, Hfut, kind_at_File.
  match goal with
  | Ha : match fs ?s0 !! ?p with _ => _ end = _ |- _ =>
      destruct (fs s0 !! p) as [[content|]|]; try done;
      injection Ha as _ <-
  end.
  cbn [fs]. rewrite lookup_insert_eq. eauto.
Qed.

(** X7.  What a run of [main] that returns has made, under a root that
    is not empty: the directories [.cached] and [images], the [Makefile]
    with the template, the master index with one entry per configured URL,
    and for every configured URL the file of its article. *)
Theorem main_Return_layout (config : Conf.t) (σ σ' : state) :
  Conf.output_dir config ≠ [] →
  main http_get urlparse_path urljoin html_parser tag_str prettify
    re_sub_root config σ = (Return (), σ') →
  let root := Conf.output_dir config in
  fs σ' !! Path.join root [lit ".cached"] = Some Directory
  ∧ fs σ' !! Path.join root [lit "images"] = Some Directory
  ∧ fs σ' !! Path.join root [lit "Makefile"] = Some (File makefile_template)
  ∧ (∃ files,
       length files = length (Conf.urls config)
       ∧ fs σ' !! Path.join root [lit "index.asciidoc"]
         = Some (File (index_document config files)))
  ∧ ∀ url_path, url_path ∈ Conf.urls config →
      ∃ u_path content,
        urlparse_path url_path = Some u_path
        ∧ fs σ' !! Path.join
                     (Path.join root
                        [Path.basename (Str.rstrip_char 47 u_path)])
                     [lit "index.asciidoc"]
          = Some (File content).
Proof.
  intros _ H root. unfold main, generate_makefile in H. cbv zeta in H.
  fold root in H.
  apply bind_Return_inv in H as ([] & s1 & H1 & H).
  apply bind_Return_inv in H as ([] & s2 & H2 & H).
  apply bind_Return_inv in H as ([] & s3 & H3 & H).
  apply bind_Return_inv in H as (files & s4 & H4 & H5).
  set (step := λ url_path,
         output_path ← download_content http_get urlparse_path urljoin
                         html_parser tag_str prettify url_path root;
         or_raise re_error (re_sub_root root output_path)) in H4.
  assert (∀ x, keeps (article_path root) (step x)) as Hstep.
  { intros x. apply keeps_bind; [apply keeps_download_content|].
    intros; apply keeps_or_raise. }
  assert (fs s1 !! Path.join root [lit ".cached"] = Some Directory) as Hc1.
  { unfold makedirs in H1. destruct (fs σ !! _) as [[?|]|]; try done;
      injection H1 as <-; cbn [fs]; by rewrite lookup_insert_eq. }
  assert (fs s2 !! Path.join root [lit "images"] = Some Directory) as Hi2.
  { unfold makedirs in H2. destruct (fs s1 !! _) as [[?|]|]; try done;
      injection H2 as <-; cbn [fs]; by rewrite lookup_insert_eq. }
  assert (fs s3 !! Path.join root [lit "Makefile"]
          = Some (File makefile_template)) as Hm3.
  { unfold write_file in H3. destruct (fs s2 !! _) as [[?|]|]; try done;
      injection H3 as <-; cbn [fs]; by rewrite lookup_insert_eq. }
  destruct (keeps_makedirs (λ _, False) _ _ _ _ H2) as [Hf2 _].
  destruct (keeps_write_file (own_path root) _ makefile_template
              (own_path_one root (lit "Makefile") ltac:(no_sep)) _ _ _ H3)
    as [Hf3 _].
  destruct (keeps_mapM _ _ _ Hstep _ _ _ H4) as [Hf4 Hfile4].
  destruct (keeps_write_file (own_path root) _ (index_document config files)
              (own_path_one root (lit "index.asciidoc") ltac:(no_sep))
              _ _ _ H5) as [Hf5 _].
  split; [|split; [|split; [|split]]].
  - by apply kind_at_Directory, Hf5, Hf4, Hf3, Hf2, kind_at_Directory.
  - by apply kind_at_Directory, Hf5, Hf4, Hf3, kind_at_Directory.
  - apply Hfile4 in Hm3; [|apply one_component_not_article; [no_sep|done]].
    unfold write_file in H5. destruct (fs s4 !! _) as [[?|]|]; try done;
      injection H5 as <-; cbn [fs]; rewrite lookup_insert_ne; try done;
      rewrite !join_one by no_sep; by intros ?%app_inv_head.
  - exists files. split.
    + by destruct (mapM_Return_each _ _ _ _ _ _ Hstep H4).
    + unfold write_file in H5. destruct (fs s4 !! _) as [[?|]|]; try done;
        injection H5 as <-; cbn [fs]; by rewrite lookup_insert_eq.
  - intros url_path Hurl.
    destruct (mapM_Return_each _ _ _ _ _ _ Hstep H4) as [_ Heach].
    destruct (Heach url_path Hurl) as (y & sa & sb & Hrun & Hfut).
    unfold step in Hrun. apply bind_Return_inv in Hrun as (o & sc & Hdc & Hor).
    assert (sb = sc) as ->.
    { destruct (re_sub_root root o); [by injection Hor|done]. }
    destruct (download_content_Return_file _ _ _ _ _ Hdc) as [content Hfile].
    apply download_content_Return in Hdc as (u_path & Hu & ->).
    exists u_path.
    assert (kind_at σ' (Path.join
                          (Path.join root
                             [Path.basename (Str.rstrip_char 47 u_path)])
                          [lit "index.asciidoc"]) = Some true) as Hkind.
    { apply Hf5, Hfut, kind_at_File. eauto. }
    apply kind_at_File in Hkind as [content' Hkind]. eauto.
Qed.

End Layout.

(** The run of the example from its cache. *)
Lemma main_Return_layout_witness :
  let σ' := (example_main example_cache).2 in
  fs σ' !! Path.join (lit "out") [lit ".cached"] = Some Directory
  ∧ fs σ' !! Path.join (lit "out") [lit "images"] = Some Directory
  ∧ fs σ' !! Path.join (lit "out") [lit "Makefile"]
    = Some (File makefile_template)
  ∧ (∃ files,
       length files = length [example_url]
       ∧ fs σ' !! Path.join (lit "out") [lit "index.asciidoc"]
         = Some (File (index_document example_config files)))
  ∧ ∀ url_path, url_path ∈ [example_url] →
      ∃ u_path content,
        example_urlparse_path url_path = Some u_path
        ∧ fs σ' !! Path.join
                     (Path.join (lit "out")
                        [Path.basename (Str.rstrip_char 47 u_path)])
                     [lit "index.asciidoc"]
          = Some (File content).
Proof.
  apply (main_Return_layout (λ _ _, None) example_urlparse_path
           example_urljoin example_html_parser example_tag_str
           example_prettify example_re_sub_root example_config
           example_cache).
  - by vm_compute.
  - vm_compute. reflexivity.
Defined.

(** ** The tree *)

Lemma node_children_ind (P : node → Prop) :
  (∀ s, P (NavigableString s)) →
  (∀ nm a cs, Forall P cs → P (Tag nm a cs)) →
  ∀ n, P n.
Proof.
  intros Hs Ht. fix IH 1. intros [s|nm a cs]; [apply Hs|].
  apply Ht. induction cs as [|c cs IHcs]; constructor; [apply IH|exact IHcs].
Qed.

Lemma find_all_cons (sel : strainer) (nm : str) (a : gmap str str)
    (c : node) (cs : list node) :
  find_all sel (Tag nm a (c :: cs))
  = (if search_tag sel c then [c] else [])
    ++ find_all sel c ++ find_all sel (Tag nm a cs).
Proof.
  unfold find_all. cbn [descendants fmap list_fmap concat].
  rewrite filter_app. rewrite filter_cons.
  destruct (decide (search_tag sel c = true)) as [->|H].
  - done.
  - by destruct (search_tag sel c).
Qed.

Lemma find_all_string (sel : strainer) (s : str) :
  find_all sel (NavigableString s) = [].
Proof. done. Qed.

(** Surgery below a node leaves the node's own name and attributes. *)
Lemma rewrite_first_root (sel : strainer) (f : node → list node)
    (n n' : node) :
  rewrite_first sel f n = Some n' → search_tag sel n' = search_tag sel n.
Proof.
  destruct n as [s|nm a cs]; [done|]. cbn [rewrite_first].
  destruct ((fix go (cs : list node) : option (list node) := _) cs);
    [|done].
  by intros [= <-].
Qed.

Lemma rewrite_first_cons (sel : strainer) (f : node → list node)
    (nm : str) (a : gmap str str) (c : node) (cs : list node) :
  rewrite_first sel f (Tag nm a (c :: cs))
  = if search_tag sel c then Some (Tag nm a (f c ++ cs))
    else match rewrite_first sel f c with
         | Some c' => Some (Tag nm a (c' :: cs))
         | None =>
             match rewrite_first sel f (Tag nm a cs) with
             | Some n' => Some (Tag nm a (c :: contents n'))
             | None => None
             end
         end.
Proof.
  cbn [rewrite_first]. destruct (search_tag sel c); [done|].
  destruct (rewrite_first sel f c); [done|].
  by destruct ((fix go (cs : list node) : option (list node) := _) cs).
Qed.

(** [find_all] after surgery on the first match [m]: the matches below [m]
    give way to those among the nodes put in its place; the later ones
    stay. *)
Lemma rewrite_first_find_all (sel : strainer) (f : node → list node)
    (n : node) :
  match rewrite_first sel f n with
  | Some n' =>
      ∃ m rest,
        search_tag sel m = true
        ∧ find_all sel n = m :: find_all sel m ++ rest
        ∧ find_all sel n'
          = filter (λ d, search_tag sel d = true) (concat (subtree <$> f m))
            ++ rest
  | None => find_all sel n = []
  end.
Proof.
  induction n as [s|nm a cs IH] using node_children_ind; [done|].
  induction cs as [|c cs IHcs]; [done|].
  apply Forall_cons in IH as [IHc IH]. specialize (IHcs IH).
  rewrite rewrite_first_cons, find_all_cons.
  destruct (search_tag sel c) eqn:Hc.
  - exists c, (find_all sel (Tag nm a cs)). split; [done|]. split; [done|].
    unfold find_all at 1. cbn [descendants]. fold subtree.
    by rewrite fmap_app, concat_app, filter_app.
  - destruct (rewrite_first sel f c) as [c'|] eqn:Hrc.
    + destruct IHc as (m & rest & Hm & Hfa & Hfa').
      exists m, (rest ++ find_all sel (Tag nm a cs)).
      split; [done|]. rewrite Hfa.
      split; [cbn [app]; by rewrite <- app_assoc|].
      rewrite find_all_cons, (rewrite_first_root _ _ _ _ Hrc), Hc, Hfa'.
      by rewrite <- !app_assoc.
    + rewrite IHc. cbn [app].
      destruct (rewrite_first sel f (Tag nm a cs)) as [n'|] eqn:Hrcs.
      * destruct IHcs as (m & rest & Hm & Hfa & Hfa').
        exists m, rest. split; [done|]. split; [done|].
        cbn [rewrite_first] in Hrcs.
        destruct ((fix go (cs : list node) : option (list node) := _) cs)
          as [cs'|]; [|done].
        injection Hrcs as <-. cbn [contents].
        rewrite find_all_cons, Hc, IHc. cbn [app]. exact Hfa'.
      * done.
Qed.

Lemma replace_with_cons (sel : strainer) (nm : str) (a : gmap str str)
    (c : node) (cs : list node) (repls : list str) :
  replace_with sel (Tag nm a (c :: cs)) repls
  = if search_tag sel c then
      match repls with
      | r :: repls0 =>
          let rest := replace_with sel (Tag nm a cs)
                        (drop (length (find_all sel c)) repls0) in
          (Tag nm a (NavigableString r :: contents rest.1), rest.2)
      | [] => (Tag nm a (c :: cs), [])
      end
    else
      let first := replace_with sel c repls in
      let rest := replace_with sel (Tag nm a cs) first.2 in
      (Tag nm a (first.1 :: contents rest.1), rest.2).
Proof.
  cbn [replace_with]. destruct (search_tag sel c).
  - destruct repls as [|r repls0]; [done|].
    by destruct ((fix go (cs : list node) (repls : list str)
                    : list node * list str := _) cs _).
  - destruct (replace_with sel c repls) as [c' repls1]. cbn [fst snd].
    by destruct ((fix go (cs : list node) (repls : list str)
                    : list node * list str := _) cs _).
Qed.

Lemma replace_with_root (sel : strainer) (n : node) (repls : list str) :
  search_tag sel (replace_with sel n repls).1 = search_tag sel n.
Proof.
  destruct n as [s|nm a cs]; [done|]. cbn [replace_with].
  by destruct ((fix go (cs : list node) (repls : list str)
                  : list node * list str := _) cs _).
Qed.

Lemma replace_with_Tag (sel : strainer) (nm : str) (a : gmap str str)
    (cs : list node) (repls : list str) :
  (replace_with sel (Tag nm a cs) repls).1
  = Tag nm a (contents (replace_with sel (Tag nm a cs) repls).1).
Proof.
  cbn [replace_with].
  by destruct ((fix go (cs : list node) (repls : list str)
                  : list node * list str := _) cs _).
Qed.

(** With a text for every match, the loop uses them up in order and leaves
    no match in the tree. *)
Lemma replace_with_all (sel : strainer) (n : node) (repls : list str) :
  (length (find_all sel n) ≤ length repls)%nat →
  (replace_with sel n repls).2 = drop (length (find_all sel n)) repls
  ∧ find_all sel (replace_with sel n repls).1 = [].
Proof.
  revert repls.
  induction n as [s|nm a cs IH] using node_children_ind; intros repls Hlen;
    [done|].
  revert repls Hlen. induction cs as [|c cs IHcs]; intros repls Hlen; [done|].
  apply Forall_cons in IH as [IHc IH]. specialize (IHcs IH).
  rewrite replace_with_cons. rewrite find_all_cons in Hlen |- *.
  destruct (search_tag sel c) eqn:Hc.
  - destruct repls as [|r repls0]; [cbn in Hlen; lia|].
    cbn [app length] in Hlen. rewrite length_app in Hlen.
    cbv zeta. cbn [fst snd].
    destruct (IHcs (drop (length (find_all sel c)) repls0)) as [Hrest Hnone].
    { rewrite length_drop. lia. }
    split.
    + rewrite Hrest, drop_drop. cbn [app length drop].
      by rewrite length_app.
    + rewrite find_all_cons. cbn [search_tag app].
      rewrite find_all_string. cbn [app].
      by rewrite replace_with_Tag in Hnone.
  - cbn [app] in Hlen |- *. rewrite length_app in Hlen. cbv zeta. cbn [fst snd].
    destruct (IHc repls) as [Hfirst Hnone1]; [lia|].
    destruct (IHcs (replace_with sel c repls).2) as [Hrest Hnone2].
    { rewrite Hfirst, length_drop. lia. }
    split.
    + by rewrite Hrest, Hfirst, drop_drop, length_app.
    + rewrite find_all_cons, replace_with_root, Hc, Hnone1. cbn [app].
      by rewrite replace_with_Tag in Hnone2.
Qed.

(** Without a match the loop leaves the tree as it is. *)
Lemma replace_with_none (sel : strainer) (n : node) (repls : list str) :
  find_all sel n = [] → replace_with sel n repls = (n, repls).
Proof.
  revert repls.
  induction n as [s|nm a cs IH] using node_children_ind; intros repls Hnone;
    [done|].
  revert repls Hnone. induction cs as [|c cs IHcs]; intros repls Hnone;
    [done|].
  apply Forall_cons in IH as [IHc IH]. specialize (IHcs IH).
  rewrite replace_with_cons. rewrite find_all_cons in Hnone.
  destruct (search_tag sel c); [done|]. cbn [app] in Hnone.
  apply app_eq_nil in Hnone as [Hc Hcs].
  cbv zeta. rewrite (IHc _ Hc). cbn [fst snd]. by rewrite (IHcs _ Hcs).
Qed.

Lemma find_all_Tag (sel : strainer) (m : node) :
  search_tag sel m = true →
  filter (λ d, search_tag sel d = true) (concat (subtree <$> contents m))
  = find_all sel m.
Proof. by destruct m. Qed.

Lemma text_Tag (m : node) (sel : strainer) :
  search_tag sel m = true → concat (text <$> contents m) = text m.
Proof. by destruct m. Qed.

(** [unwrap] moves text up, it does not change it. *)
Lemma rewrite_first_unwrap_text (sel : strainer) (n n' : node) :
  rewrite_first sel contents n = Some n' → text n' = text n.
Proof.
  revert n'.
  induction n as [s|nm a cs IH] using node_children_ind; intros n' H;
    [done|].
  revert n' H. induction cs as [|c cs IHcs]; intros n' H; [done|].
  apply Forall_cons in IH as [IHc IH]. specialize (IHcs IH).
  rewrite rewrite_first_cons in H. destruct (search_tag sel c) eqn:Hc.
  - injection H as <-. cbn [text]. rewrite fmap_app, concat_app.
    cbn [fmap list_fmap concat]. by rewrite (text_Tag _ _ Hc).
  - destruct (rewrite_first sel contents c) as [c'|] eqn:Hrc.
    + injection H as <-. cbn [text fmap list_fmap concat].
      by rewrite (IHc _ eq_refl).
    + destruct (rewrite_first sel contents (Tag nm a cs)) as [n''|] eqn:Hrcs;
        [|done].
      injection H as <-. specialize (IHcs _ eq_refl).
      cbn [text fmap list_fmap concat]. f_equal.
      destruct n'' as [s|nm' a' cs']; [|exact IHcs].
      cbn [rewrite_first] in Hrcs.
      by destruct ((fix go (cs : list node) : option (list node) := _) cs).
Qed.

(** ** The passes of the transformer *)

Lemma wrap_text_no_match (sel : strainer) (marker : str) (site : node) :
  find_all sel (wrap_text sel marker site) = [].
Proof.
  unfold wrap_text. apply replace_with_all. by rewrite length_fmap.
Qed.

Lemma wrap_text_again (sel : strainer) (marker : str) (site : node) :
  find_all sel site = [] → wrap_text sel marker site = site.
Proof.
  intros H. unfold wrap_text. by rewrite replace_with_none.
Qed.

(** X8.  [transform_strong] and [transform_italic] leave none of their
    tags in the tree, nested ones included; a second run of the pass changes
    nothing, and a tree without the tags is left as it is. *)
Theorem transform_strong_italic_leave_no_match (site : node) :
  find_all strong_tags (transform_strong site) = []
  ∧ find_all italic_tags (transform_italic site) = []
  ∧ transform_strong (transform_strong site) = transform_strong site
  ∧ transform_italic (transform_italic site) = transform_italic site
  ∧ (find_all strong_tags site = [] → transform_strong site = site)
  ∧ (find_all italic_tags site = [] → transform_italic site = site).
Proof.
  unfold transform_strong, transform_italic.
  split; [apply wrap_text_no_match|]. split; [apply wrap_text_no_match|].
  split; [apply wrap_text_again, wrap_text_no_match|].
  split; [apply wrap_text_again, wrap_text_no_match|].
  split; apply wrap_text_again.
Qed.

Lemma mapM_result_outcomes {A B} (f : A → result B) (l : list A)
    (e : exception) :
  (∀ x, (∃ y, f x = Return y) ∨ f x = Raise e) →
  ((∃ ys, mapM f l = Return ys ∧ length ys = length l
          ∧ ∀ x, x ∈ l → ∃ y, f x = Return y)
   ∨ (mapM f l = Raise e ∧ ∃ x, x ∈ l ∧ f x = Raise e)).
Proof.
  intros Hf. induction l as [|x l IH].
  - left. exists []. split; [done|]. split; [done|]. by intros x ?%elem_of_nil.
  - cbn [mapM]. destruct (Hf x) as [[y Hy]|Hx].
    + rewrite Hy. cbn [mbind result_mbind result_bind].
      destruct IH as [(ys & -> & Hlen & Hall)|[-> (x' & Hx' & Hraise)]].
      * left. exists (y :: ys). split; [done|].
        split; [cbn [length]; by rewrite Hlen|].
        intros x' [->|Hx']%elem_of_cons; [eauto|by apply Hall].
      * right. split; [done|]. exists x'. split; [|done].
        by apply list_elem_of_further.
    + rewrite Hx. right. split; [done|]. exists x. split; [|done].
      apply list_elem_of_here.
Qed.

(** X9.  [transform_a]: an anchor without [href] anywhere below the site
    makes the pass raise [KeyError('href')]; when every anchor has one the
    pass returns a tree without anchors; without anchors the tree is
    returned as it is. *)
Theorem transform_a_outcomes (site : node) :
  let anchors := find_all (by_name (lit "a")) site in
  ((∃ a, a ∈ anchors ∧ attrs a !! lit "href" = None) →
   transform_a site = Raise (KeyError (lit "href")))
  ∧ ((∀ a, a ∈ anchors → is_Some (attrs a !! lit "href")) →
     ∃ site', transform_a site = Return site'
              ∧ find_all (by_name (lit "a")) site' = [])
  ∧ (anchors = [] → transform_a site = Return site).
Proof.
  cbv zeta. unfold transform_a. cbv zeta.
  set (f := λ a : node,
         href ← getitem a (lit "href");
         Return (lit "link:" ++ href ++ lit "[" ++ text a ++ lit "]")).
  assert (∀ x, (∃ y, f x = Return y) ∨ f x = Raise (KeyError (lit "href")))
    as Hf.
  { intros x. unfold f, getitem.
    destruct (attrs x !! lit "href"); [left; by eexists|by right]. }
  split; [|split].
  - intros (a & Ha & Hhref).
    destruct (mapM_result_outcomes f (find_all (by_name (lit "a")) site) _ Hf)
      as [(ys & _ & _ & Hall)|[-> _]]; [|done].
    destruct (Hall a Ha) as [y Hy]. unfold f, getitem in Hy.
    by rewrite Hhref in Hy.
  - intros Hall.
    destruct (mapM_result_outcomes f (find_all (by_name (lit "a")) site) _ Hf)
      as [(ys & -> & Hlen & _)|[_ (a & Ha & Hraise)]].
    + eexists. split; [done|]. apply replace_with_all. by rewrite Hlen.
    + destruct (Hall a Ha) as [href Hhref]. unfold f, getitem in Hraise.
      by rewrite Hhref in Hraise.
  - intros Hnone. rewrite Hnone. cbn [mapM].
    cbn [mbind mret result_mbind result_ret result_bind].
    by rewrite replace_with_none.
Qed.

Section ImagePassShape.

Variable http_get : nat → str → option response.
Variable urlparse_path : str → option str.
Variable urljoin : str → str → option str.

Lemma transform_img_no_img (self : config) (site : node) (σ : state) :
  find_all (by_name (lit "img")) site = [] →
  transform_img http_get urlparse_path urljoin self site σ = (Return site, σ).
Proof.
  intros Hnone. unfold transform_img. cbv zeta. rewrite Hnone. cbn [mapM].
  erewrite bind_Return by reflexivity. by rewrite replace_with_none.
Qed.

(** X10.  [transform_img]: on a site without images it returns the site
    and touches nothing (no request, no file, no line printed); when it
    returns, no [img] is left in the tree, and every image of the site had
    [alt] and [src]. *)
Theorem transform_img_outcomes (self : config) (site : node) (σ : state) :
  let run := transform_img http_get urlparse_path urljoin self site σ in
  (find_all (by_name (lit "img")) site = [] → run = (Return site, σ))
  ∧ (∀ site' σ', run = (Return site', σ') →
       find_all (by_name (lit "img")) site' = []
       ∧ ∀ img, img ∈ find_all (by_name (lit "img")) site →
           is_Some (attrs img !! lit "alt")
           ∧ is_Some (attrs img !! lit "src")).
Proof.
  cbv zeta. split; [apply transform_img_no_img|].
  intros site' σ' H. unfold transform_img in H. cbv zeta in H.
  bind_inv H. injection H as <- _.
  apply mapM_Return_inv in Ha as [Hlen Heach]. split.
  - apply replace_with_all. by rewrite Hlen.
  - intros img Himg. destruct (Heach img Himg) as (repl & s1 & s2 & Hrepl).
    apply transform_img_repl_Return in Hrepl
      as (alt & width & height & src & image_name & Hfields & _).
    apply image_fields_alt in Hfields as [Halt Hsrc]. split; [eauto|done].
Qed.

End ImagePassShape.

(** X11.  [transform_sources] of the Untools transformer: without a [div]
    of the sources class it raises [AttributeError], and only then; with
    one, the first is unwrapped: the text of the site is unchanged and there
    is one match less. *)
Theorem transform_sources_outcomes (site : node) :
  let sel := by_class (Some (lit "div"))
               (re_compile (lit "article-module--sources--")) in
  (find sel site = None → transform_sources site = Raise AttributeError)
  ∧ (∀ site', transform_sources site = Return site' →
       text site' = text site
       ∧ length (find_all sel site) = S (length (find_all sel site')))
  ∧ (∀ e, transform_sources site = Raise e → find sel site = None).
Proof.
  cbv zeta. unfold transform_sources. cbv zeta.
  set (sel := by_class (Some (lit "div"))
                (re_compile (lit "article-module--sources--"))).
  pose proof (rewrite_first_find_all sel contents site) as Hfa.
  destruct (rewrite_first sel contents site) as [site'|] eqn:Hrw.
  - destruct Hfa as (m & rest & Hm & Hsite & Hsite').
    split; [|split].
    + unfold find. by rewrite Hsite.
    + intros ? [= <-]. split; [by eapply rewrite_first_unwrap_text|].
      rewrite Hsite, Hsite', (find_all_Tag _ _ Hm). done.
    + done.
  - split; [done|]. split; [done|]. intros e _. unfold find. by rewrite Hfa.
Qed.

Lemma search_tag_shallow (sel : strainer) (n : node) :
  search_tag sel (shallow n) = search_tag sel n.
Proof. by destruct n. Qed.

Lemma outline_cons (d : nat) (nm : str) (a : gmap str str) (c : node)
    (cs : list node) :
  outline d (Tag nm a (c :: cs))
  = (d, Tag nm a []) :: outline (S d) c ++ tail (outline d (Tag nm a cs)).
Proof. done. Qed.

Lemma outline_unmatched (sel : strainer) (n : node) (d : nat) :
  search_tag sel n = false → find_all sel n = [] →
  unmatched sel (outline d n).
Proof.
  revert d. induction n as [s|nm a cs IH] using node_children_ind;
    intros d Hn Hfa.
  { by repeat constructor. }
  constructor; [by rewrite <- Hn|]. cbn [outline]. clear Hn.
  induction cs as [|c cs IHcs]; [constructor|].
  apply Forall_cons in IH as [IHc IH].
  rewrite find_all_cons in Hfa.
  apply app_eq_nil in Hfa as [Hc Hfa]. apply app_eq_nil in Hfa as [Hfc Hfa].
  cbn [fmap list_fmap concat]. apply Forall_app. split.
  - apply IHc; [|done]. by destruct (search_tag sel c).
  - by apply IHcs.
Qed.

Lemma rewrite_first_outline (sel : strainer) (n : node) (d : nat) :
  match rewrite_first sel (λ _, []) n with
  | Some n' =>
      ∃ m before after depth,
        find sel n = Some m
        ∧ outline d n = (d, shallow n) :: before ++ outline depth m ++ after
        ∧ outline d n' = (d, shallow n) :: before ++ after
        ∧ unmatched sel before
  | None => True
  end.
Proof.
  revert d. induction n as [s|nm a cs IH] using node_children_ind;
    intros d; [done|].
  induction cs as [|c cs IHcs]; [done|].
  apply Forall_cons in IH as [IHc IH]. specialize (IHcs IH).
  rewrite rewrite_first_cons. unfold find. rewrite find_all_cons.
  destruct (search_tag sel c) eqn:Hc.
  - exists c, [], (tail (outline d (Tag nm a cs))), (S d).
    split; [done|]. split; [done|]. split; [done|]. constructor.
  - pose proof (rewrite_first_find_all sel (λ _, []) c) as Hfc.
    destruct (rewrite_first sel (λ _, []) c) as [c'|] eqn:Hrc.
    + destruct (IHc (S d)) as (m & before & after & depth & Hm & Ho & Ho'
                                 & Hb).
      exists m, ((S d, shallow c) :: before),
        (after ++ tail (outline d (Tag nm a cs))), depth.
      split.
      { unfold find in Hm. cbn [app].
        destruct (find_all sel c); [done|]. exact Hm. }
      rewrite !outline_cons, Ho, Ho'. cbn [shallow app].
      split; [by rewrite <- !app_assoc|].
      split; [by rewrite <- !app_assoc|].
      constructor; [|done]. cbn [snd]. by rewrite search_tag_shallow.
    + destruct (rewrite_first sel (λ _, []) (Tag nm a cs)) as [n'|] eqn:Hrcs;
        [|done].
      destruct IHcs as (m & before & after & depth & Hm & Ho & Ho' & Hb).
      exists m, (outline (S d) c ++ before), after, depth.
      rewrite Hfc. cbn [app]. split; [exact Hm|].
      cbn [rewrite_first] in Hrcs.
      destruct ((fix go (cs : list node) : option (list node) := _) cs)
        as [cs'|]; [|done].
      injection Hrcs as <-. cbn [contents].
      rewrite !outline_cons, Ho, Ho'. cbn [shallow tail].
      split; [by rewrite <- !app_assoc|].
      split; [by rewrite <- !app_assoc|].
      apply Forall_app. split; [|done]. by apply outline_unmatched.
Qed.

Lemma closes_children (d : nat) (cs : list node) (rest : list (nat * node)) :
  closes d rest → closes (S d) (concat (outline (S d) <$> cs) ++ rest).
Proof.
  intros H. destruct cs as [|c cs].
  - destruct rest as [|x rest]; [done|]. unfold closes in *.
    cbn [fmap list_fmap concat app]. lia.
  - unfold closes. destruct c; cbn [fmap list_fmap concat outline app fst]; lia.
Qed.

(** An outline determines the tree. *)
Lemma outline_inj_app (n n' : node) (d : nat)
    (rest rest' : list (nat * node)) :
  outline d n ++ rest = outline d n' ++ rest' →
  closes d rest → closes d rest' →
  n = n' ∧ rest = rest'.
Proof.
  revert n' d rest rest'.
  induction n as [s|nm a cs IH] using node_children_ind;
    intros n' d rest rest' H Hr Hr'.
  { destruct n' as [s'|nm' a' cs']; [|done]. by injection H as -> ->. }
  destruct n' as [s'|nm' a' cs']; [done|].
  cbn [outline shallow app] in H. injection H as -> -> H.
  enough (cs = cs' ∧ rest = rest') as [-> ->] by done.
  revert cs' H. induction cs as [|c cs IHcs]; intros cs' H.
  - destruct cs' as [|c' cs']; [done|].
    cbn [fmap list_fmap concat app] in H. subst rest.
    destruct c'; cbn in Hr; lia.
  - apply Forall_cons in IH as [IHc IH].
    destruct cs' as [|c' cs'].
    { cbn [fmap list_fmap concat app] in H. subst rest'.
      destruct c; cbn in Hr'; lia. }
    cbn [fmap list_fmap concat] in H. rewrite <- !app_assoc in H.
    apply IHc in H as [-> H]; [|by apply closes_children..].
    apply (IHcs IH) in H as [-> ->]. done.
Qed.

(** X12.  [remove_tag] takes out the first match in document order with
    what lies below it, and only that.  Written out in document order, node
    by node with its depth (an outline, which determines the tree), the
    site is the root, some nodes [before], the outline of the first match
    and some nodes [after]; what [remove_tag] leaves is the root, [before]
    and [after], where no node of [before] is a match.  So the matches of
    the site are the first one, the matches below it, and the matches still
    there afterwards.  Without a match the site is left as it is and
    nothing is raised. *)
Theorem remove_tag_first_match (site : node) (sel : strainer) :
  (find sel site = None → remove_tag site sel = site)
  ∧ (∀ m, find sel site = Some m →
       find_all sel site
       = m :: find_all sel m ++ find_all sel (remove_tag site sel)
       ∧ ∃ before after depth,
           outline 0 site
           = (0%nat, shallow site) :: before ++ outline depth m ++ after
           ∧ outline 0 (remove_tag site sel)
             = (0%nat, shallow site) :: before ++ after
           ∧ unmatched sel before)
  ∧ (∀ n n', outline 0 n = outline 0 n' → n = n').
Proof.
  split; [|split].
  - unfold remove_tag, find.
    pose proof (rewrite_first_find_all sel (λ _, []) site) as Hfa.
    destruct (rewrite_first sel (λ _, []) site) as [site'|]; [|done].
    destruct Hfa as (m & rest & Hm & -> & _). done.
  - intros m Hfind. unfold remove_tag.
    pose proof (rewrite_first_find_all sel (λ _, []) site) as Hfa.
    pose proof (rewrite_first_outline sel site 0) as Ho.
    unfold find in Hfind.
    destruct (rewrite_first sel (λ _, []) site) as [site'|].
    + destruct Hfa as (m' & rest & Hm & Hsite & Hsite').
      rewrite Hsite in Hfind. injection Hfind as ->.
      split; [by rewrite Hsite, Hsite'|].
      destruct Ho as (m' & before & after & depth & Hm' & Ho & Ho' & Hb).
      unfold find in Hm'. rewrite Hsite in Hm'. injection Hm' as <-.
      by exists before, after, depth.
    + by rewrite Hfa in Hfind.
  - intros n n' H.
    apply (outline_inj_app n n' 0 [] []); [|done..].
    by rewrite !app_nil_r.
Qed.

(** ** A URL of no known site *)





Section Generic.

Variable http_get : nat → str → option response.
Variable urlparse_path : str → option str.
Variable urljoin : str → str → option str.
Variable html_parser : str → node.
Variable tag_str : node → str.
Variable prettify : node → str.



End Generic.


(** ** Titles of the site extractors *)

(** X14.  The lookups of the extractors: [get_title], [get_metadata],
    [cleanup] and [get_content] raise [AttributeError] and nothing else, and
    never leave through [exit]; the [get_title] of a site extractor never
    returns [None]; it raises when the heading it looks for is not
    there. *)
Theorem extractor_failures (self : extractor) :
  (∀ e, get_title self = Raise e ∨ get_metadata self = Raise e
        ∨ cleanup self = Raise e ∨ get_content self = Raise e →
        e = AttributeError)
  ∧ (∀ code, get_title self ≠ Exit code ∧ get_metadata self ≠ Exit code
             ∧ cleanup self ≠ Exit code ∧ get_content self ≠ Exit code)
  ∧ (class_of self ≠ Extractor → get_title self ≠ Return None)
  ∧ (class_of self = UnintendedConsequences →
     find (by_name (lit "h1")) (bs self) = None →
     get_title self = Raise AttributeError)
  ∧ (class_of self = Untools →
     (find article_top (bs self) = None
      ∨ ∃ header, find article_top (bs self) = Some header
                  ∧ find (by_name (lit "h2")) header = None) →
     get_title self = Raise AttributeError).
Proof.
  split; [|split; [|split; [|split]]].
  - intros e H.
    unfold get_title, get_metadata, cleanup, base_cleanup, get_content in H.
    cbn [site class_of bs] in H.
    destruct H as [H|[H|[H|H]]]; destruct (class_of self);
      repeat match type of H with
             | context [on_tag ?o _] =>
                 destruct o; cbn [on_tag mbind result_mbind result_bind] in H
             end; congruence.
  - intros code.
    unfold get_title, get_metadata, cleanup, base_cleanup, get_content.
    cbn [site class_of bs].
    repeat split; destruct (class_of self);
      repeat match goal with
             | |- context [on_tag ?o _] =>
                 destruct o; cbn [on_tag mbind result_mbind result_bind]
             end; done.
  - intros Hclass. unfold get_title. destruct (class_of self); [done| | |].
    + destruct (find article_top (bs self)) as [header|]; [|done].
      cbn [on_tag mbind result_mbind result_bind].
      by destruct (find (by_name (lit "h2")) header).
    + by destruct (find (by_name (lit "h1")) (bs self)).
    + by destruct (find _ (bs self)).
  - unfold get_title. intros -> Hh1. by rewrite Hh1.
  - unfold get_title. intros -> [->|(header & -> & Hh2)]; [done|].
    cbn [on_tag mbind result_mbind result_bind]. by rewrite Hh2.
Qed.

(** ** Blocks of the renderer *)

Section RendererBlocks.

Variable tag_str : node → str.
Variable prettify : node → str.

Lemma render_tags_child (self : renderer) (nm : str) (a : gmap str str)
    (before after : list node) (child : node) :
  render_tags tag_str prettify self (Tag nm a (before ++ child :: after))
  = render_tags tag_str prettify self (Tag nm a before)
    +++ render_child tag_str prettify self child
    +++ render_tags tag_str prettify self (Tag nm a after).
Proof.
  unfold render_tags. cbn [contents].
  rewrite fmap_app, output_concat_app. by cbn [fmap list_fmap output_concat foldr].
Qed.

(** X15.  [render_tag_div]: the base renderer renders the children of a
    [div] as if they stood in its place; the Untools renderer writes the
    text of the [div] and an empty line instead. *)
Theorem render_tag_div_nesting (nm : str) (a a' : gmap str str)
    (before after cs : list node) :
  let div := Tag (lit "div") a' cs in
  render_tags tag_str prettify Renderer (Tag nm a (before ++ div :: after))
  = render_tags tag_str prettify Renderer (Tag nm a (before ++ cs ++ after))
  ∧ render_tags tag_str prettify UntoolsRenderer
      (Tag nm a (before ++ div :: after))
    = render_tags tag_str prettify UntoolsRenderer (Tag nm a before)
      +++ write (text div ++ nl ++ nl)
      +++ render_tags tag_str prettify UntoolsRenderer (Tag nm a after).
Proof.
  assert (handlers !! lit "div" = Some render_tag_div) as Hdiv
    by (vm_compute; reflexivity).
  cbv zeta. rewrite !render_tags_child. cbn [render_child]. rewrite Hdiv.
  split.
  - unfold render_tags. cbn [contents].
    by rewrite !fmap_app, !output_concat_app.
  - done.
Qed.

(** X16.  Headings: [h1] and [h2] are both written with [===], [h3] with
    [====], [h4] with [=====]; the title is [tag.string], so a heading that
    has no child or several (text next to an element a pass has replaced)
    is written as the word [None]. *)
Theorem render_heading_string (self : renderer) (a : gmap str str)
    (cs : list node) :
  let render := λ nm, render_child tag_str prettify self (Tag (lit nm) a cs) in
  let line := λ marker title, write (lit marker ++ lit " " ++ title ++ nl ++ nl) in
  (length cs ≠ 1%nat →
   render "h1" = line "===" (lit "None") ∧ render "h2" = line "===" (lit "None")
   ∧ render "h3" = line "====" (lit "None")
   ∧ render "h4" = line "=====" (lit "None"))
  ∧ (∀ title, cs = [NavigableString title] →
       render "h1" = line "===" title ∧ render "h2" = line "===" title
       ∧ render "h3" = line "====" title ∧ render "h4" = line "=====" title)
  ∧ render "h1" = render "h2".
Proof.
  assert (handlers !! lit "h1" = Some render_tag_h1) as H1
    by (vm_compute; reflexivity).
  assert (handlers !! lit "h2" = Some render_tag_h2) as H2
    by (vm_compute; reflexivity).
  assert (handlers !! lit "h3" = Some render_tag_h3) as H3
    by (vm_compute; reflexivity).
  assert (handlers !! lit "h4" = Some render_tag_h4) as H4
    by (vm_compute; reflexivity).
  cbv zeta. cbn [render_child]. rewrite H1, H2, H3, H4.
  unfold render_heading. split; [|split; [|done]].
  - intros Hlen.
    assert (∀ nm, string (Tag nm a cs) = None) as Hnone.
    { intros nm. by destruct cs as [|c [|c' cs]]. }
    by rewrite !Hnone.
  - by intros title ->.
Qed.

End RendererBlocks.

(** ** The matcher of [render_tag_pre] *)

Lemma literal_spec (p s rest : str) :
  Re.literal p s = Some rest ↔ s = p ++ rest.
Proof.
  revert s. induction p as [|a p IH]; intros s.
  - cbn [Re.literal app]. split; [by intros [= ->]|by intros ->].
  - destruct s as [|b s]; cbn [Re.literal app]; [done|].
    destruct (N.eqb_spec a b) as [->|Hab].
    + rewrite IH. split; [by intros ->|by intros [= ->]].
    + split; [done|]. by intros [= -> _].
Qed.

Lemma greedy_splits_spec (s x y : str) :
  (x, y) ∈ Re.greedy_splits s ↔ s = x ++ y.
Proof.
  revert x. induction s as [|c s IH]; intros x; cbn [Re.greedy_splits].
  - rewrite list_elem_of_singleton. split.
    + by intros [= -> ->].
    + intros H. symmetry in H. by apply app_eq_nil in H as [-> ->].
  - rewrite elem_of_app, list_elem_of_fmap, list_elem_of_singleton. split.
    + intros [([x' y'] & [= -> ->] & H)|[= -> ->]]; [|done].
      apply IH in H. by rewrite H.
    + destruct x as [|c' x]; cbn [app].
      * intros <-. by right.
      * intros [= <- H]. left. exists (x, y). split; [done|]. by apply IH.
Qed.

Lemma greedy_spaces_spec (s x y : str) :
  (x, y) ∈ Re.greedy_spaces s →
  s = x ++ y ∧ x ≠ [] ∧ Forall (λ c, Str.isspace c = true) x.
Proof.
  revert x. induction s as [|c s IH]; intros x; cbn [Re.greedy_spaces].
  - by intros ?%elem_of_nil.
  - destruct (Str.isspace c) eqn:Hc; [|by intros ?%elem_of_nil].
    rewrite elem_of_app, list_elem_of_fmap, list_elem_of_singleton.
    intros [([x' y'] & [= -> ->] & H)|[= -> ->]].
    + apply IH in H as (-> & _ & Hall). split; [done|]. split; [done|].
      by constructor.
    + split; [done|]. split; [done|]. by repeat constructor.
Qed.

Lemma first_success_Some {A B} (k : A → option B) (l : list A) (r : B) :
  Re.first_success k l = Some r → ∃ x, x ∈ l ∧ k x = Some r.
Proof.
  induction l as [|x l IH]; [done|]. cbn [Re.first_success].
  destruct (k x) as [r'|] eqn:Hk.
  - intros [= <-]. exists x. split; [apply list_elem_of_here|done].
  - intros (x' & Hx' & Hr)%IH. exists x'.
    split; [by apply list_elem_of_further|done].
Qed.

Lemma match_content_Some (s content rest : str) :
  Re.match_content s = Some (content, rest) →
  s = content ++ lit "[/code]" ++ rest ∧ Re.at_line_end rest = true.
Proof.
  unfold Re.match_content.
  intros ([x y] & Hsplit & Hk)%first_success_Some.
  apply greedy_splits_spec in Hsplit as ->.
  destruct (Re.literal (lit "[/code]") y) as [rest'|] eqn:Hlit; [|done].
  cbn [mbind option_bind] in Hk.
  destruct (Re.at_line_end rest') eqn:Hend; [|done].
  injection Hk as <- <-. apply literal_spec in Hlit as ->. done.
Qed.

Lemma match_lang_Some (s lang content rest : str) :
  Re.match_lang s = Some (lang, content, rest) →
  s = lang ++ lit "]" ++ content ++ lit "[/code]" ++ rest
  ∧ Re.at_line_end rest = true.
Proof.
  unfold Re.match_lang.
  intros ([x y] & Hsplit & Hk)%first_success_Some.
  apply greedy_splits_spec in Hsplit as ->.
  destruct (Re.literal (lit "]") y) as [rest'|] eqn:Hlit; [|done].
  cbn [mbind option_bind] in Hk.
  destruct (Re.match_content rest') as [[content' rest'']|] eqn:Hcontent;
    [|done].
  cbn [mbind option_bind] in Hk. injection Hk as <- <- <-.
  apply literal_spec in Hlit as ->.
  by apply match_content_Some in Hcontent as [-> Hend].
Qed.

Lemma match_at_Some (prev : option N) (s : str) (m : Re.match_object) :
  Re.match_at prev s = Some m →
  Re.at_line_start prev = true
  ∧ ∃ ws rest,
      s = wrapper ws (Re.group_lang m) (Re.group_content m) ++ rest
      ∧ ws ≠ [] ∧ Forall (λ c, Str.isspace c = true) ws
      ∧ Re.at_line_end rest = true
      ∧ Re.match_length m
        = length (wrapper ws (Re.group_lang m) (Re.group_content m)).
Proof.
  unfold Re.match_at. destruct (Re.at_line_start prev); [|done].
  remember (length s) as n eqn:Hn.
  destruct (Re.literal (lit "[code") s) as [rest0|] eqn:Hlit; [|done].
  cbn [mbind option_bind]. apply literal_spec in Hlit as ->.
  intros ([ws y] & Hsplit & Hk)%first_success_Some.
  apply greedy_spaces_spec in Hsplit as (-> & Hws & Hspace).
  destruct (Re.literal (lit "lang=") y) as [rest1|] eqn:Hlit; [|done].
  cbn [mbind option_bind] in Hk. apply literal_spec in Hlit as ->.
  destruct (Re.match_lang rest1) as [[[lang content] rest]|] eqn:Hlang;
    [|done].
  cbn [mbind option_bind] in Hk. injection Hk as <-.
  apply match_lang_Some in Hlang as [-> Hend].
  split; [done|]. exists ws, rest.
  cbn [Re.group_lang Re.group_content Re.match_length].
  assert (lit "[code" ++ ws ++ lit "lang=" ++ lang ++ lit "]" ++ content
          ++ lit "[/code]" ++ rest = wrapper ws lang content ++ rest) as Heq.
  { unfold wrapper. by rewrite <- !app_assoc. }
  split; [done|]. split; [done|]. split; [done|]. split; [done|].
  rewrite Hn, Heq, length_app. lia.
Qed.

Lemma scan_sound (s : str) (prev : option N) (skip : nat)
    (m : Re.match_object) :
  m ∈ Re.scan prev skip s →
  ∃ before ws after,
    s = before ++ wrapper ws (Re.group_lang m) (Re.group_content m) ++ after
    ∧ ws ≠ [] ∧ Forall (λ c, Str.isspace c = true) ws
    ∧ match last before with
      | Some c => c = 10
      | None => Re.at_line_start prev = true
      end
    ∧ Re.at_line_end after = true.
Proof.
  revert prev skip. induction s as [|c s IH]; intros prev skip.
  - destruct skip as [|skip]; cbn [Re.scan]; [|by intros ?%elem_of_nil].
    destruct (Re.match_at prev []) as [m'|] eqn:Hat;
      [|by intros ?%elem_of_nil].
    intros ->%list_elem_of_singleton.
    apply match_at_Some in Hat as (Hstart & ws & rest & Hs & Hws & Hsp & Hend & _).
    by exists [], ws, rest.
  - assert (∀ skip', m ∈ Re.scan (Some c) skip' s →
              ∃ before ws after,
                c :: s = before ++ wrapper ws (Re.group_lang m)
                                     (Re.group_content m) ++ after
                ∧ ws ≠ [] ∧ Forall (λ c, Str.isspace c = true) ws
                ∧ match last before with
                  | Some c => c = 10
                  | None => Re.at_line_start prev = true
                  end
                ∧ Re.at_line_end after = true) as Hlater.
    { intros skip' (before & ws & after & -> & Hws & Hsp & Hstart & Hend)%IH.
      exists (c :: before), ws, after. split; [done|]. split; [done|].
      split; [done|]. split; [|done].
      destruct before as [|b before].
      - cbn [last Re.at_line_start] in Hstart |- *. by apply N.eqb_eq.
      - change (last (c :: b :: before)) with (last (b :: before)).
        destruct (last (b :: before)) eqn:Hlast; [done|].
        by apply last_None in Hlast. }
    destruct skip as [|skip]; cbn [Re.scan]; [|apply Hlater].
    destruct (Re.match_at prev (c :: s)) as [m'|] eqn:Hat; [|apply Hlater].
    intros [->|Hin]%elem_of_cons; [|by eapply Hlater].
    apply match_at_Some in Hat as (Hstart & ws & rest & Hs & Hws & Hsp & Hend & _).
    by exists [], ws, rest.
Qed.

Section Blocks.

Variable tag_str : node → str.
Variable prettify : node → str.

(** X17.  [render_tag_pre] writes one [source] block per match of the
    pattern and prints nothing; every match is an occurrence in the text of
    the opening [code], white space, [lang=], the language, a closing
    bracket, the content and the closing [/code], which starts at the start
    of a line and ends at the end of one. *)
Theorem render_tag_pre_blocks (tag : node) :
  let matches := Re.scan None 0 (text tag) in
  render_pre tag = output_concat (render_source <$> matches)
  ∧ printed (render_pre tag) = []
  ∧ ∀ m, m ∈ matches →
      ∃ before ws after,
        text tag
        = before ++ wrapper ws (Re.group_lang m) (Re.group_content m)
          ++ after
        ∧ ws ≠ [] ∧ Forall (λ c, Str.isspace c = true) ws
        ∧ (before = [] ∨ last before = Some 10)
        ∧ (after = [] ∨ head after = Some 10).
Proof.
  cbv zeta. split; [|split].
  - unfold render_pre, Re.finditer_code_pattern. cbv zeta.
    cbn [default]. rewrite decide_False by done. apply output_app_nothing_r.
  - unfold render_pre, Re.finditer_code_pattern. cbv zeta.
    cbn [default]. rewrite decide_False by done.
    cbn [printed output_app nothing]. rewrite app_nil_r.
    induction (Re.scan None 0 (text tag)) as [|m ms IH]; [done|].
    cbn [fmap list_fmap output_concat foldr output_app printed render_source
           write]. exact IH.
  - intros m (before & ws & after & Htext & Hws & Hsp & Hstart & Hend)%scan_sound.
    exists before, ws, after. split; [done|]. split; [done|]. split; [done|].
    split.
    + destruct (last before) as [c|] eqn:Hlast; [right; by rewrite Hstart|].
      left. by apply last_None.
    + destruct after as [|c after]; [by left|right].
      cbn [Re.at_line_end] in Hend. apply N.eqb_eq in Hend as ->. done.
Qed.

(** X18.  A [pre] block whose text holds no opening [code] or no closing
    [/code] is rendered as nothing at all: in the output of [render_tags] it
    is as if the block were not there. *)
Theorem render_tag_pre_without_wrapper (a' : gmap str str) (cs : list node) :
  let tag := Tag (lit "pre") a' cs in
  ¬ occurs_in (lit "[code") (text tag)
  ∨ ¬ occurs_in (lit "[/code]") (text tag) →
  render_pre tag = nothing
  ∧ ∀ self nm a before after,
      render_tags tag_str prettify self (Tag nm a (before ++ tag :: after))
      = render_tags tag_str prettify self (Tag nm a (before ++ after)).
Proof.
  intros tag Hno.
  assert (Re.scan None 0 (text tag) = []) as Hscan.
  { destruct (Re.scan None 0 (text tag)) as [|m ms] eqn:Hscan; [done|].
    exfalso.
    destruct (scan_sound (text tag) None 0 m)
      as (before & ws & after & Htext & _).
    { rewrite Hscan. apply list_elem_of_here. }
    unfold wrapper in Htext. destruct Hno as [Hno|Hno]; apply Hno.
    - exists before. eexists. rewrite Htext. by rewrite <- !app_assoc.
    - exists (before ++ lit "[code" ++ ws ++ lit "lang=" ++ Re.group_lang m
              ++ lit "]" ++ Re.group_content m), after.
      rewrite Htext. by rewrite <- !app_assoc. }
  assert (render_pre tag = nothing) as Hpre.
  { unfold render_pre, Re.finditer_code_pattern. cbv zeta.
    cbn [default]. rewrite decide_False by done. by rewrite Hscan. }
  split; [done|]. intros self nm a before after.
  assert (handlers !! lit "pre" = Some render_tag_pre) as Hh
    by (vm_compute; reflexivity).
  rewrite render_tags_child, render_tags_app. unfold tag at 1.
  cbn [render_child]. rewrite Hh. fold tag. rewrite Hpre.
  by rewrite output_app_nothing_l.
Qed.

End Blocks.

(** The block of C2: code without a wrapper. *)
Lemma render_tag_pre_without_wrapper_witness :
  render_pre (Tag (lit "pre") ∅ [NavigableString (lit "print(1)")]) = nothing
  ∧ ∀ self nm a before after,
      render_tags example_tag_str example_prettify self
        (Tag nm a
           (before
            ++ Tag (lit "pre") ∅ [NavigableString (lit "print(1)")] :: after))
      = render_tags example_tag_str example_prettify self
          (Tag nm a (before ++ after)).
Proof.
  apply (render_tag_pre_without_wrapper example_tag_str example_prettify ∅
           [NavigableString (lit "print(1)")]).
  left. apply contains_false. vm_compute. reflexivity.
Defined.

(** ** A wrapper alone in its block *)

Lemma first_success_app_Some {A B} (k : A → option B) (l1 l2 : list A)
    (r : B) :
  Re.first_success k l1 = Some r → Re.first_success k (l1 ++ l2) = Some r.
Proof.
  induction l1 as [|x l1 IH]; [done|]. cbn [Re.first_success app].
  by destruct (k x).
Qed.

Lemma first_success_app_None {A B} (k : A → option B) (l1 l2 : list A) :
  (∀ x, x ∈ l1 → k x = None) →
  Re.first_success k (l1 ++ l2) = Re.first_success k l2.
Proof.
  induction l1 as [|x l1 IH]; [done|]. intros Hnone.
  cbn [Re.first_success app]. rewrite (Hnone x) by apply list_elem_of_here.
  apply IH. intros x' Hx'. apply Hnone. by apply list_elem_of_further.
Qed.

Lemma first_success_fmap {A B C} (k : A → option B) (g : C → A)
    (l : list C) :
  Re.first_success k (g <$> l) = Re.first_success (k ∘ g) l.
Proof.
  induction l as [|x l IH]; [done|].
  cbn [Re.first_success fmap list_fmap compose]. by rewrite IH.
Qed.

(** A greedy group takes the longest text after which the rest of the
    pattern matches. *)
Lemma first_success_greedy {B} (k : str * str → option B) (x y : str)
    (r : B) :
  k (x, y) = Some r →
  (∀ x' y', x ++ y = x' ++ y' → (length x < length x')%nat →
     k (x', y') = None) →
  Re.first_success k (Re.greedy_splits (x ++ y)) = Some r.
Proof.
  revert k. induction x as [|c x IH]; intros k Hk Hlonger.
  - cbn [app]. destruct y as [|c y]; cbn [Re.greedy_splits].
    + cbn [Re.first_success]. by rewrite Hk.
    + rewrite first_success_app_None.
      * cbn [Re.first_success]. by rewrite Hk.
      * intros [x' y'] ([x0 y0] & [= -> ->] & Hin)%list_elem_of_fmap.
        apply greedy_splits_spec in Hin. apply Hlonger.
        -- cbn [app]. by rewrite Hin.
        -- cbn [length]. lia.
  - cbn [app Re.greedy_splits]. apply first_success_app_Some.
    rewrite first_success_fmap. apply IH.
    + exact Hk.
    + intros x' y' Hsplit Hlen. cbn [compose prod_map fst snd id].
      apply Hlonger; [cbn [app]; by rewrite Hsplit|cbn [length]; lia].
Qed.

Lemma literal_short (p s : str) :
  (length s < length p)%nat → Re.literal p s = None.
Proof.
  intros Hlen. destruct (Re.literal p s) as [rest|] eqn:H; [|done].
  apply literal_spec in H as ->. rewrite length_app in Hlen. lia.
Qed.

Lemma match_content_alone (content : str) :
  Re.match_content (content ++ lit "[/code]") = Some (content, []).
Proof.
  unfold Re.match_content. apply first_success_greedy.
  - by rewrite (proj2 (literal_spec (lit "[/code]") (lit "[/code]") []) eq_refl).
  - intros x' y' Hsplit Hlen. rewrite literal_short; [done|].
    apply (f_equal length) in Hsplit. rewrite !length_app in Hsplit. lia.
Qed.

Lemma match_content_nil : Re.match_content [] = None.
Proof. done. Qed.

Lemma match_lang_alone (lang content : str) :
  93 ∉ content →
  Re.match_lang (lang ++ lit "]" ++ content ++ lit "[/code]")
  = Some (lang, content, []).
Proof.
  intros Hcontent. unfold Re.match_lang. apply first_success_greedy.
  - rewrite (proj2 (literal_spec (lit "]") _ _) eq_refl).
    cbn [mbind option_bind]. by rewrite match_content_alone.
  - intros x' y' Hsplit Hlen.
    destruct (Re.literal (lit "]") y') as [rest|] eqn:Hlit; [|done].
    apply literal_spec in Hlit as ->. cbn [mbind option_bind].
    assert (rest = []) as ->; [|by rewrite match_content_nil].
    (* the bracket that ends [x'] is the last character of the text *)
    assert (∃ z, x' = lang ++ z ∧ z ++ lit "]" ++ rest
                 = lit "]" ++ content ++ lit "[/code]") as (z & -> & Hz).
    { exists (drop (length lang) x').
      assert (take (length lang) x' = lang) as Htake.
      { apply (f_equal (take (length lang))) in Hsplit.
        rewrite take_app_length in Hsplit.
        rewrite take_app_le in Hsplit by lia. done. }
      split; [by rewrite <- Htake at 1; rewrite take_drop|].
      rewrite <- (take_drop (length lang) x'), Htake in Hsplit.
      rewrite <- app_assoc in Hsplit. by apply app_inv_head in Hsplit. }
    destruct z as [|c z]; [rewrite length_app in Hlen; cbn in Hlen; lia|].
    change (lit "]") with [93] in Hz. cbn [app] in Hz.
    injection Hz as -> Hz.
    destruct (decide (rest = [])) as [|Hrest]; [done|]. exfalso.
    (* otherwise that bracket would lie in the content *)
    assert (length (z ++ 93 :: rest) = length (content ++ lit "[/code]"))
      as Hlen' by (by rewrite Hz).
    rewrite !length_app in Hlen'. cbn [length] in Hlen'.
    change (length (lit "[/code]")) with 7%nat in Hlen'. 
    apply Hcontent.
    assert (content !! length z = Some 93) as Hat.
    { assert ((z ++ 93 :: rest) !! length z = Some 93) as H
        by (by rewrite list_lookup_middle).
      rewrite Hz in H. rewrite lookup_app_l in H; [done|].
      destruct (decide (length z < length content)%nat) as [|Hge]; [done|].
      exfalso.
      (* the bracket lies in the closing tag, and is not its last one *)
      rewrite lookup_app_r in H by lia.
      assert (length rest ≠ 0%nat) by (by destruct rest).
      assert (length z - length content < 6)%nat as Hpos by lia.
      change (lit "[/code]") with [91; 47; 99; 111; 100; 101; 93] in H.
      remember (length z - length content)%nat as n eqn:Hn. clear Hn.
      do 6 (destruct n as [|n]; [done|]). lia. }
    by eapply list_elem_of_lookup_2.
Qed.

Lemma greedy_spaces_head (ws rest : str) :
  ws ≠ [] → Forall (λ c, Str.isspace c = true) ws →
  Re.greedy_spaces rest = [] →
  ∃ l, Re.greedy_spaces (ws ++ rest) = (ws, rest) :: l.
Proof.
  intros Hws Hsp Hrest. induction Hsp as [|c ws Hc Hsp IH]; [done|].
  cbn [app Re.greedy_spaces]. rewrite Hc.
  destruct ws as [|c' ws].
  - cbn [app]. rewrite Hrest. by eexists.
  - destruct (IH ltac:(done)) as [l ->]. by eexists.
Qed.

Lemma match_at_alone (ws lang content : str) :
  ws ≠ [] → Forall (λ c, Str.isspace c = true) ws → 93 ∉ content →
  Re.match_at None (wrapper ws lang content)
  = Some (Re.Match lang content (length (wrapper ws lang content))).
Proof.
  intros Hws Hsp Hcontent. unfold Re.match_at, wrapper.
  cbn [Re.at_line_start].
  rewrite (proj2 (literal_spec (lit "[code") _ _) eq_refl).
  cbn [mbind option_bind].
  destruct (greedy_spaces_head ws
              (lit "lang=" ++ lang ++ lit "]" ++ content ++ lit "[/code]")
              Hws Hsp eq_refl) as [l ->].
  cbn [Re.first_success].
  rewrite (proj2 (literal_spec (lit "lang=") _ _) eq_refl).
  cbn [mbind option_bind]. rewrite (match_lang_alone _ _ Hcontent).
  cbn [mbind option_bind length]. by rewrite Nat.sub_0_r.
Qed.

Lemma scan_skip_all (s : str) (prev : option N) :
  Re.scan prev (length s) s = [].
Proof.
  revert prev. induction s as [|c s IH]; intros prev; [|apply IH].
  cbn [length Re.scan]. unfold Re.match_at.
  by destruct (Re.at_line_start prev).
Qed.

(** X19.  A wrapper alone in its block is rendered as the [source] block
    of its language with the content between fences, when the content holds
    no closing bracket.  The language may hold any character: its group is
    greedy and runs to the last closing bracket before the closing
    [/code]. *)
Theorem render_tag_pre_wrapper (a : gmap str str) (ws lang content : str) :
  ws ≠ [] → Forall (λ c, Str.isspace c = true) ws → 93 ∉ content →
  render_pre (Tag (lit "pre") a [NavigableString (wrapper ws lang content)])
  = write (lit "[source, " ++ lang ++ lit "]" ++ nl
           ++ lit "----" ++ nl ++ content ++ nl ++ lit "----" ++ nl).
Proof.
  intros Hws Hsp Hcontent.
  unfold render_pre, Re.finditer_code_pattern. cbv zeta.
  cbn [default text fmap list_fmap concat]. rewrite app_nil_r.
  rewrite decide_False by done.
  assert (Re.scan None 0 (wrapper ws lang content)
          = [Re.Match lang content (length (wrapper ws lang content))])
    as ->.
  { pose proof (match_at_alone ws lang content Hws Hsp Hcontent) as Hat.
    remember (wrapper ws lang content) as s eqn:Hs.
    destruct s as [|c s]; [by unfold wrapper in Hs|].
    cbn [Re.scan]. rewrite Hat. cbn [Re.match_length].
    replace (length (c :: s) - 1)%nat with (length s) by (cbn [length]; lia).
    by rewrite scan_skip_all. }
  cbn [id fmap list_fmap output_concat foldr render_source Re.group_lang
         Re.group_content].
  by rewrite !output_app_nothing_r.
Qed.

(** The round trip of the specification. *)
Lemma render_tag_pre_wrapper_witness :
  render_pre
    (Tag (lit "pre") ∅
       [NavigableString (wrapper (lit " ") (lit "python") (lit "print(1)"))])
  = write (lit "[source, " ++ lit "python" ++ lit "]" ++ nl
           ++ lit "----" ++ nl ++ lit "print(1)" ++ nl ++ lit "----" ++ nl).
Proof.
  apply (render_tag_pre_wrapper ∅ (lit " ") (lit "python") (lit "print(1)")).
  - done.
  - by apply Forall_singleton.
  - no_sep.
Defined.

(** A closing bracket in the code: the text up to the last one is taken for
    the language. *)
Lemma render_tag_pre_bracket :
  render_pre
    (Tag (lit "pre") ∅ [NavigableString (lit "[code lang=py]a[0][/code]")])
  = write (lit "[source, py]a[0]" ++ nl ++ lit "----" ++ nl ++ nl
           ++ lit "----" ++ nl).
Proof. vm_compute. reflexivity. Qed.

(** ** The order of the passes *)

Lemma kept_cons (sel : strainer) (nm : str) (a : gmap str str) (c : node)
    (cs : list node) :
  kept sel (Tag nm a (c :: cs))
  = (if search_tag sel c then [] else c :: kept sel c)
    ++ kept sel (Tag nm a cs).
Proof. done. Qed.

Lemma kept_descendants (sel : strainer) (n d : node) :
  d ∈ kept sel n → d ∈ descendants n.
Proof.
  induction n as [s|nm a cs IH] using node_children_ind;
    [by intros ?%elem_of_nil|].
  induction cs as [|c cs IHcs]; [by intros ?%elem_of_nil|].
  apply Forall_cons in IH as [IHc IH]. specialize (IHcs IH).
  rewrite kept_cons. cbn [descendants fmap list_fmap concat].
  intros [Hin|Hin]%elem_of_app.
  - destruct (search_tag sel c); [by apply elem_of_nil in Hin|].
    apply elem_of_cons in Hin as [->|Hin].
    + apply list_elem_of_here.
    + apply list_elem_of_further, elem_of_app. left. by apply IHc.
  - apply list_elem_of_further, elem_of_app. right. by apply IHcs.
Qed.

Lemma replace_with_any_root (sel sel' : strainer) (n : node)
    (repls : list str) :
  search_tag sel' (replace_with sel n repls).1 = search_tag sel' n.
Proof.
  destruct n as [s|nm a cs]; [done|]. cbn [replace_with].
  by destruct ((fix go (cs : list node) (repls : list str)
                  : list node * list str := _) cs _).
Qed.

(** After the loop over the matches of [sel], the matches of another
    selector are those among the nodes the loop kept. *)
Lemma replace_with_kept (sel sel' : strainer) (n : node) (repls : list str) :
  (length (find_all sel n) ≤ length repls)%nat →
  length (find_all sel' (replace_with sel n repls).1)
  = length (filter (λ d, search_tag sel' d = true) (kept sel n)).
Proof.
  revert repls.
  induction n as [s|nm a cs IH] using node_children_ind; intros repls Hlen;
    [done|].
  revert repls Hlen. induction cs as [|c cs IHcs]; intros repls Hlen; [done|].
  apply Forall_cons in IH as [IHc IH]. specialize (IHcs IH).
  rewrite replace_with_cons, kept_cons, filter_app, length_app.
  rewrite find_all_cons in Hlen.
  destruct (search_tag sel c) eqn:Hc.
  - destruct repls as [|r repls0]; [cbn in Hlen; lia|].
    cbn [app length] in Hlen. rewrite length_app in Hlen.
    cbv zeta. cbn [fst snd]. rewrite find_all_cons.
    cbn [search_tag app]. rewrite find_all_string. cbn [app length].
    rewrite <- replace_with_Tag. rewrite IHcs; [done|].
    rewrite length_drop. lia.
  - cbn [app] in Hlen. rewrite length_app in Hlen. cbv zeta. cbn [fst snd].
    rewrite find_all_cons, replace_with_any_root, !length_app.
    rewrite <- replace_with_Tag.
    destruct (replace_with_all sel c repls) as [Hfirst _]; [lia|].
    rewrite (IHc repls) by lia. rewrite IHcs.
    2:{ rewrite Hfirst, length_drop. lia. }
    rewrite filter_cons. destruct (search_tag sel' c) eqn:Hc'.
    + rewrite decide_True by done. cbn [length]. lia.
    + rewrite decide_False by done. cbn [length]. lia.
Qed.

Lemma wrap_text_keeps_none (sel sel' : strainer) (marker : str)
    (site : node) :
  filter (λ d, search_tag sel' d = true) (kept sel site) = [] →
  find_all sel' (wrap_text sel marker site) = [].
Proof.
  intros Hnone. apply length_zero_iff_nil. unfold wrap_text.
  rewrite replace_with_kept by (by rewrite length_fmap).
  by rewrite Hnone.
Qed.

Lemma kept_none (sel sel' : strainer) (site : node) :
  find_all sel' site = [] →
  filter (λ d, search_tag sel' d = true) (kept sel site) = [].
Proof.
  intros Hnone.
  destruct (filter _ (kept sel site)) as [|d l] eqn:Hfilter; [done|].
  assert (d ∈ filter (λ d, search_tag sel' d = true) (kept sel site)) as Hd
    by (rewrite Hfilter; apply list_elem_of_here).
  apply list_elem_of_filter in Hd as [Hmatch Hd].
  apply kept_descendants in Hd.
  assert (d ∈ find_all sel' site) as Hin
    by (by apply list_elem_of_filter).
  rewrite Hnone in Hin. by apply elem_of_nil in Hin.
Qed.

Section PassOrder.

Variable http_get : nat → str → option response.
Variable urlparse_path : str → option str.
Variable urljoin : str → str → option str.

(** X20.  The passes run in order, bold first: when every image of the
    site lies below a [strong] or [b] element, the bold pass takes them out
    with the element, the image pass finds none, and [transform] leaves the
    state as it was: no image is requested or stored. *)
Theorem transform_images_in_bold (self : transformer) (site : node)
    (σ : state) :
  transformer_site self = Some site →
  filter (λ d, search_tag (by_name (lit "img")) d = true)
         (kept strong_tags site) = [] →
  find_all (by_name (lit "img")) (transform_strong site) = []
  ∧ ∃ r, transform http_get urlparse_path urljoin self σ = (r, σ).
Proof.
  intros Hsite Hnone.
  assert (find_all (by_name (lit "img")) (transform_strong site) = [])
    as Hstrong by (by apply wrap_text_keeps_none).
  split; [done|].
  assert (find_all (by_name (lit "img"))
            (transform_italic (transform_strong site)) = []) as Hitalic
    by (by apply wrap_text_keeps_none, kept_none).
  unfold transform. rewrite Hsite. cbv zeta.
  erewrite bind_Return by reflexivity.
  erewrite bind_Return.
  2:{ by apply transform_img_no_img. }
  unfold mbind, M_bind, bind, lift.
  destruct (transform_a _) as [site'|code|e]; [|by eexists..].
  destruct (transformer_class_of self); [by eexists|].
  by eexists.
Qed.

End PassOrder.

(** A photo set in bold type. *)
Lemma transform_images_in_bold_witness :
  let site :=
    Tag (lit "div") ∅
      [Tag (lit "p") ∅
         [Tag (lit "b") ∅
            [Tag (lit "img")
               (list_to_map [ (lit "alt", lit "A photo");
                              (lit "src", example_photo) ]) []]]] in
  find_all (by_name (lit "img")) (transform_strong site) = []
  ∧ ∃ r, transform example_http_get example_urlparse_path example_urljoin
           (MkTransformer Transformer
              (Config example_url (lit "out")) site (Some site))
           example_fresh
         = (r, example_fresh).
Proof.
  apply (transform_images_in_bold example_http_get example_urlparse_path
           example_urljoin
           (MkTransformer Transformer (Config example_url (lit "out")) _ _)).
  - reflexivity.
  - vm_compute. reflexivity.
Defined.

(** ** The order of strings, once more *)

Lemma leb_antisym (a b : str) :
  Str.leb a b = true → Str.leb b a = true → a = b.
Proof.
  unfold Str.leb. rewrite (compare_antisym a b).
  destruct (Str.compare a b) eqn:Hc; try done.
  intros _ _. by apply compare_Eq.
Qed.

Lemma add_candidates_keep (srcs : list str) (imgs : gmap str str) (d : str) :
  Forall (λ s, is_Some (candidate s)) srcs →
  (∀ s' u' d', s' ∈ srcs → candidate s' = Some (u', d') → d' ≠ d) →
  ∃ imgs', add_candidates imgs srcs = Return imgs' ∧ imgs' !! d = imgs !! d.
Proof.
  revert imgs. induction srcs as [|s srcs IH]; intros imgs Hall Hother.
  - by exists imgs.
  - apply Forall_cons in Hall as [[[u0 d0] Hs] Hall].
    cbn [add_candidates]. rewrite (add_candidate_Return _ _ _ _ Hs).
    cbn [mbind result_mbind result_bind].
    destruct (IH (<[d0 := u0]> imgs) Hall) as (imgs' & -> & Hd).
    { intros s' u' d' Hin. apply Hother. by apply list_elem_of_further. }
    exists imgs'. split; [done|]. rewrite Hd. apply lookup_insert_ne.
    eapply Hother; [apply list_elem_of_here|done].
Qed.

Lemma add_candidates_last (before after : list str) (imgs : gmap str str)
    (s u d : str) :
  Forall (λ s, is_Some (candidate s)) (before ++ s :: after) →
  candidate s = Some (u, d) →
  (∀ s' u' d', s' ∈ after → candidate s' = Some (u', d') → d' ≠ d) →
  ∃ imgs', add_candidates imgs (before ++ s :: after) = Return imgs'
           ∧ imgs' !! d = Some u.
Proof.
  revert imgs. induction before as [|s0 before IH]; intros imgs Hall Hs Hother.
  - apply Forall_cons in Hall as [_ Hall]. cbn [app add_candidates].
    rewrite (add_candidate_Return _ _ _ _ Hs).
    cbn [mbind result_mbind result_bind].
    destruct (add_candidates_keep after (<[d := u]> imgs) d Hall Hother)
      as (imgs' & -> & Hd).
    exists imgs'. split; [done|]. by rewrite Hd, lookup_insert_eq.
  - apply Forall_cons in Hall as [[[u0 d0] Hs0] Hall].
    cbn [app add_candidates]. rewrite (add_candidate_Return _ _ _ _ Hs0).
    cbn [mbind result_mbind result_bind]. by apply IH.
Qed.

(** X21.  Entries of a [srcset] with the same descriptor: when that
    descriptor is the smallest, the URL of the last such entry is taken
    (the dictionary keeps the last value stored under a key). *)
Theorem srcset_duplicate_descriptor (srcset width height : str)
    (before after : list str) (s u d : str) :
  Forall (λ s, is_Some (candidate s)) (Str.split 44 srcset) →
  Str.split 44 srcset = before ++ s :: after →
  candidate s = Some (u, d) →
  (∀ s' u' d', s' ∈ after → candidate s' = Some (u', d') → d' ≠ d) →
  (∀ s' u' d', s' ∈ Str.split 44 srcset → candidate s' = Some (u', d') →
     Str.leb d d' = true) →
  ∃ width' height',
    choose_from_srcset srcset width height = Return (d, u, width', height').
Proof.
  intros Hall Hsplit Hs Hother Hmin. unfold choose_from_srcset. cbv zeta.
  destruct (add_candidates_Return _ ∅ Hall) as (imgs & Hrun & Hfrom & _ & _).
  rewrite Hsplit in Hall.
  destruct (add_candidates_last before after ∅ s u d Hall Hs Hother)
    as (imgs' & Hrun' & Hd).
  rewrite <- Hsplit in Hrun'. rewrite Hrun in Hrun'. injection Hrun' as <-.
  rewrite Hrun. cbn [mbind result_mbind result_bind].
  unfold index. rewrite <- head_lookup.
  pose proof (sorted_head (keys imgs)) as Hhead.
  destruct (head (Str.sorted (keys imgs))) as [largest|].
  - destruct Hhead as [Hkey Hleast].
    assert (largest = d) as ->.
    { apply leb_antisym.
      - apply Hleast, elem_of_keys. eauto.
      - apply elem_of_keys in Hkey as [u' Hu'].
        destruct (Hfrom _ _ Hu') as [Hempty|(s' & Hs' & Hc)];
          [by rewrite lookup_empty in Hempty|].
        by eapply Hmin. }
    cbn [mbind result_mbind result_bind]. rewrite Hd.
    cbn [mbind result_mbind result_bind]. by eexists _, _.
  - exfalso. assert (d ∈ keys imgs) as Hin by (apply elem_of_keys; eauto).
    rewrite Hhead in Hin. by apply elem_of_nil in Hin.
Qed.

(** Two entries of one density: the later URL is taken. *)
Lemma srcset_duplicate_descriptor_witness :
  ∃ width' height',
    choose_from_srcset (lit "a.png 1x, b.png 1x, c.png 2x") [] []
    = Return (lit "1x", lit "b.png", width', height').
Proof.
  apply (srcset_duplicate_descriptor (lit "a.png 1x, b.png 1x, c.png 2x")
           [] [] [lit "a.png 1x"] [lit " c.png 2x"] (lit " b.png 1x")).
  - apply (bool_decide_unpack _). vm_compute. exact I.
  - vm_compute. reflexivity.
  - vm_compute. reflexivity.
  - intros s' u' d' ->%list_elem_of_singleton [= <- <-]. by vm_compute.
  - intros s' u' d' Hin Hc. vm_compute in Hin.
    repeat (apply elem_of_cons in Hin as [->|Hin]);
      [..|by apply elem_of_nil in Hin];
      vm_compute in Hc; injection Hc as <- <-; vm_compute; reflexivity.
Defined.

(** ** A URL that cannot be encoded *)

Lemma encode_utf8_surrogate (s : str) (c : N) :
  c ∈ s → 0xD800 ≤ c → c ≤ 0xDFFF → encode_utf8 s = None.
Proof.
  intros Hin Hlo Hhi. unfold encode_utf8.
  assert (mapM utf8_char s = None) as ->; [|done].
  apply mapM_None, Exists_exists. exists c. split; [done|].
  unfold utf8_char.
  assert ((c <? 0x80) = false) as -> by (apply N.ltb_ge; lia).
  assert ((c <? 0x800) = false) as -> by (apply N.ltb_ge; lia).
  assert ((0xD800 <=? c) = true) as -> by (apply N.leb_le; lia).
  assert ((c <=? 0xDFFF) = true) as -> by (apply N.leb_le; lia).
  done.
Qed.

Section Surrogate.

Variable http_get : nat → str → option response.
Variable urlparse_path : str → option str.
Variable urljoin : str → str → option str.
Variable html_parser : str → node.
Variable tag_str : node → str.
Variable prettify : node → str.

(** X22.  A URL that holds a surrogate code point cannot be encoded:
    [download_content], [compute_image_path] and [download_image] raise
    [UnicodeEncodeError] and leave the state untouched. *)
Theorem surrogate_url (url_path root : str) (c : N) (σ : state) :
  c ∈ url_path → 0xD800 ≤ c → c ≤ 0xDFFF →
  download_content http_get urlparse_path urljoin html_parser tag_str
    prettify url_path root σ = (Raise UnicodeEncodeError, σ)
  ∧ compute_image_path urlparse_path url_path root σ
    = (Raise UnicodeEncodeError, σ)
  ∧ download_image http_get urlparse_path url_path root σ
    = (Raise UnicodeEncodeError, σ).
Proof.
  intros Hin Hlo Hhi.
  assert (sha256_of url_path σ = (Raise UnicodeEncodeError, σ)) as Hsha.
  { unfold sha256_of. by rewrite (encode_utf8_surrogate _ _ Hin Hlo Hhi). }
  split; [|split].
  - unfold download_content. by apply bind_Raise.
  - unfold compute_image_path. by apply bind_Raise.
  - unfold download_image, compute_image_path.
    apply bind_Raise. by apply bind_Raise.
Qed.

End Surrogate.

(** A URL with a lone surrogate, as a JSON escape can give one. *)
Lemma surrogate_url_witness :
  download_content (λ _ _, None) (λ _, None) (λ _ _, None)
    example_html_parser example_tag_str example_prettify
    (lit "https://example.com/" ++ [0xD800]) (lit "out") example_fresh
  = (Raise UnicodeEncodeError, example_fresh)
  ∧ compute_image_path (λ _, None) (lit "https://example.com/" ++ [0xD800])
      (lit "out") example_fresh
    = (Raise UnicodeEncodeError, example_fresh)
  ∧ download_image (λ _ _, None) (λ _, None)
      (lit "https://example.com/" ++ [0xD800]) (lit "out") example_fresh
    = (Raise UnicodeEncodeError, example_fresh).
Proof.
  apply (surrogate_url (λ _ _, None) (λ _, None) (λ _ _, None)
           example_html_parser example_tag_str example_prettify
           (lit "https://example.com/" ++ [0xD800]) (lit "out") 0xD800).
  - apply elem_of_app. right. apply list_elem_of_here.
  - done.
  - done.
Defined.

(** ** Lists and the file of an article *)

Section Lists.

Variable tag_str : node → str.
Variable prettify : node → str.

Lemma render_items_written (bullet : str) (nm : str) (a : gmap str str)
    (cs : list node) :
  render_items bullet (Tag nm a cs)
  = write (concat (item_line bullet <$> filter (λ c, is_li c = true) cs)
           ++ nl ++ nl).
Proof.
  unfold render_items. cbn [contents].
  assert (∀ tail,
            output_concat
              ((λ li, if decide (name li = Some (lit "li"))
                      then write (bullet ++ lit " " ++ text li ++ nl)
                      else nothing) <$> cs) +++ write tail
            = write (concat (item_line bullet
                               <$> filter (λ c, is_li c = true) cs)
                     ++ tail)) as H; [|apply H].
  intros tail. induction cs as [|c cs IH]; [done|].
  cbn [fmap list_fmap].
  match goal with
  | |- output_concat (?x :: ?l) +++ _ = _ =>
      change (output_concat (x :: l)) with (x +++ output_concat l)
  end.
  rewrite output_app_assoc, IH.
  destruct (decide (name c = Some (lit "li"))) as [Hli|Hli].
  - rewrite filter_cons_True
      by (unfold is_li; by rewrite bool_decide_eq_true_2).
    cbn [fmap list_fmap concat]. unfold item_line, write, output_app.
    cbn [written printed app]. by rewrite <- !app_assoc.
  - rewrite filter_cons_False
      by (unfold is_li; by rewrite bool_decide_eq_false_2).
    apply output_app_nothing_l.
Qed.

(** X24.  [render_tag_ul] and [render_tag_ol] write one line for every
    child that is an [li], a dash (a star) and its text, in order, then two
    newlines; what else stands in the list, text or other elements, is
    passed over, so a list without items is two newlines. *)
Theorem render_lists (self : renderer) (a : gmap str str) (cs : list node) :
  let items := filter (λ c, is_li c = true) cs in
  render_child tag_str prettify self (Tag (lit "ul") a cs)
  = write (concat (item_line (lit "-") <$> items) ++ nl ++ nl)
  ∧ render_child tag_str prettify self (Tag (lit "ol") a cs)
    = write (concat (item_line (lit "*") <$> items) ++ nl ++ nl)
  ∧ (items = [] →
     render_child tag_str prettify self (Tag (lit "ul") a cs)
     = write (nl ++ nl)).
Proof.
  assert (handlers !! lit "ul" = Some render_tag_ul) as Hul
    by (vm_compute; reflexivity).
  assert (handlers !! lit "ol" = Some render_tag_ol) as Hol
    by (vm_compute; reflexivity).
  cbv zeta. cbn [render_child]. rewrite Hul, Hol.
  rewrite !render_items_written. split; [done|]. split; [done|].
  by intros ->.
Qed.

End Lists.

Lemma lift_Return {A} (r : result A) (a : A) (s s' : state) :
  lift r s = (Return a, s') → r = Return a ∧ s' = s.
Proof. by intros [= -> ->]. Qed.

Lemma write_file_written (path content : str) (s s' : state) (u : ()) :
  write_file path content s = (Return u, s') →
  fs s' !! path = Some (File content).
Proof.
  unfold write_file. destruct (fs s !! path) as [[?|]|]; [|done|];
    intros [= _ <-]; cbn [fs]; apply lookup_insert_eq.
Qed.

Lemma append_file_written (path text content : str) (s s' : state)
    (u : ()) :
  fs s !! path = Some (File content) →
  append_file path text s = (Return u, s') →
  fs s' !! path = Some (File (content ++ text)).
Proof.
  unfold append_file. intros ->. intros [= _ <-]. cbn [fs].
  apply lookup_insert_eq.
Qed.

(** [load_file_content] when it returns: the text is what text mode reads
    from the cache file, or else the body of an answer with status 200. *)
Lemma load_file_content_Return_inv (http_get : nat → str → option response)
    (url_path file_path page : str) (s s' : state) :
  load_file_content http_get url_path file_path s = (Return page, s') →
  match fs s !! file_path with
  | Some (File cached) => page = Str.universal_newlines cached
  | Some Directory => False
  | None => http_get (length (requests s)) url_path = Some (Response 200 page)
  end.
Proof.
  intros H. unfold load_file_content in H. bind_inv H.
  unfold path_exists in Ha. injection Ha as <- <-.
  destruct (fs s !! file_path) as [[cached|]|] eqn:Hfile.
  - rewrite bool_decide_eq_true_2 in H by eauto.
    unfold read_file in H. rewrite Hfile in H. by injection H as <- _.
  - rewrite bool_decide_eq_true_2 in H by eauto.
    unfold read_file in H. by rewrite Hfile in H.
  - rewrite bool_decide_eq_false_2 in H by (by intros [? ?]).
    bind_inv H. unfold requests_get in Ha.
    destruct (http_get (length (requests s)) url_path) as [[code text]|];
      [|done].
    injection Ha as <- <-. cbn [status_code body] in H.
    destruct (N.eqb_spec code 200) as [->|_]; cbn [negb] in H.
    + bind_inv H. by injection H as <- _.
    + bind_inv H. done.
Qed.

Section Article.

Variable http_get : nat → str → option response.
Variable urlparse_path : str → option str.
Variable urljoin : str → str → option str.
Variable html_parser : str → node.
Variable tag_str : node → str.
Variable prettify : node → str.

(** X25.  The file of an article: when [download_content] returns, the
    page is what the cache file held when the call began, read in text
    mode, or, without a cache file, the body of the answer to the one
    request, whose status is 200; the URL is one of a known site and the
    extractor made of the parsed page has given a title and the metadata;
    the content is what [get_content] gives once [cleanup] has run and the
    transformer has worked on the content of the cleaned page; and the
    output file holds the heading with that title, the line that links to
    the original (with the date when the page gives one), the metadata, and
    what the renderer wrote for that content, in this order and nothing
    else. *)
Theorem download_content_article (url_path root : str) (σ σ' : state)
    (output_path : str) :
  download_content http_get urlparse_path urljoin html_parser tag_str
    prettify url_path root σ = (Return output_path, σ') →
  ∃ bytes page title metadata cleaned selected transformed content,
    let file_path :=
      Path.join root [lit ".cached"; Sha256.hexdigest bytes ++ lit ".html"] in
    let bs := html_parser page in
    let extractor := create_extractor url_path bs in
    encode_utf8 url_path = Some bytes
    ∧ match fs σ !! file_path with
      | Some (File cached) => page = Str.universal_newlines cached
      | Some Directory => False
      | None =>
          http_get (length (requests σ)) url_path = Some (Response 200 page)
      end
    ∧ class_of extractor ≠ Extractor
    ∧ get_title extractor = Return (Some title)
    ∧ get_metadata extractor = Return metadata
    ∧ cleanup extractor = Return cleaned
    ∧ get_content cleaned = Return selected
    ∧ returns (transform http_get urlparse_path urljoin
                 (create_transformer url_path bs selected root))
              transformed
    ∧ get_content (set_content cleaned transformed) = Return (Some content)
    ∧ fs σ' !! output_path
      = Some (File
                ((lit "== " ++ title ++ nl ++ nl)
                 ++ (lit "link:" ++ url_path ++ lit "[original article] "
                     ++ match get_published extractor with
                        | Some t => lit "published on " ++ t
                        | None => []
                        end
                     ++ nl ++ nl ++ metadata)
                 ++ written (render_tags tag_str prettify
                               (create_renderer url_path) content))).
Proof.
  intros H. unfold download_content in H. cbv zeta in H.
  repeat bind_inv H. injection H as <- <-.
  assert (∃ bytes, encode_utf8 url_path = Some bytes
                   ∧ a = Sha256.hexdigest bytes ∧ s = σ)
    as (bytes & Henc & -> & ->).
  { unfold sha256_of in Ha. destruct (encode_utf8 url_path) as [bytes|];
      [|done]. injection Ha as <- <-. by exists bytes. }
  assert (s0 = σ) as ->.
  { destruct (urlparse_path url_path); [|done]. by injection Ha0 as _ <-. }
  apply load_file_content_Return_inv in Ha3 as Hpage.
  assert (fs s2 !! Path.join root [lit ".cached";
                                   Sha256.hexdigest bytes ++ lit ".html"]
          = fs σ !! Path.join root [lit ".cached";
                                    Sha256.hexdigest bytes ++ lit ".html"]
          ∧ requests s2 = requests σ) as [Hfs Hreq].
  { unfold put_line in Ha2. injection Ha2 as _ <-. cbn [fs requests].
    unfold makedirs in Ha1.
    destruct (fs σ !! Path.join root [Path.basename (Str.rstrip_char 47 a0)])
      as [[?|]|]; [done| |]; injection Ha1 as _ <-; cbn [fs requests];
      (split; [|done]); apply lookup_insert_ne; intros Heq;
      apply (not_own_cache_file root bytes); rewrite <- Heq;
      apply own_path_one, basename_no_sep. }
  rewrite Hfs, Hreq in Hpage.
  apply write_file_written in Ha4.
  apply lift_Return in Ha5 as [Htitle ->].
  apply (append_file_written _ _ _ _ _ _ Ha4) in Ha6.
  apply lift_Return in Ha7 as [Hmeta ->].
  apply (append_file_written _ _ _ _ _ _ Ha6) in Ha8.
  apply lift_Return in Ha9 as [Hclean ->].
  apply lift_Return in Ha10 as [Hselected ->].
  pose proof Ha11 as Htransform.
  apply (keeps_transform _ _ _ (λ _, False)) in Ha11 as [_ Hkeep].
  apply Hkeep in Ha8; [|tauto].
  apply lift_Return in Ha12 as [Hcontent ->].
  destruct a12 as [content|]; [|done]. injection Ha13 as -> ->.
  apply (append_file_written _ _ _ _ _ _ Ha8) in Ha14.
  apply (keeps_mapM (λ _, False) put_line _ (keeps_put_line (λ _, False)))
    in Ha15 as [_ Hkeep'].
  apply Hkeep' in Ha14; [|tauto].
  assert (class_of (create_extractor url_path (html_parser a3)) ≠ Extractor)
    as Hclass.
  { intros Hclass. unfold cleanup, base_cleanup in Hclean.
    rewrite Hclass in Hclean. unfold create_extractor in Hclean.
    by repeat destruct (Str.contains _ _). }
  destruct a5 as [title|].
  2:{ exfalso. unfold get_title in Htitle.
      destruct (class_of (create_extractor url_path (html_parser a3)));
        [done| | |];
        repeat match type of Htitle with
               | context [on_tag ?o _] =>
                   destruct o;
                   cbn [on_tag mbind result_mbind result_bind] in Htitle
               end; done. }
  exists bytes, a3, title, a7, a9, a10, a11, a13. cbv zeta.
  split; [done|]. split; [done|]. split; [done|]. split; [done|].
  split; [done|]. split; [done|]. split; [done|].
  split; [by eexists _, _|]. split; [done|].
  rewrite Ha14. cbn [format_optional].
  by rewrite app_nil_l, <- !app_assoc.
Qed.

End Article.

(** The article of the example, from its cache. *)
Lemma download_content_article_witness :
  ∃ bytes page title metadata cleaned selected transformed content,
    let file_path :=
      Path.join (lit "out")
        [lit ".cached"; Sha256.hexdigest bytes ++ lit ".html"] in
    let bs := example_html_parser page in
    let extractor := create_extractor example_url bs in
    encode_utf8 example_url = Some bytes
    ∧ match fs example_cache !! file_path with
      | Some (File cached) => page = Str.universal_newlines cached
      | Some Directory => False
      | None => (λ _ _, None) (length (requests example_cache)) example_url
                = Some (Response 200 page)
      end
    ∧ class_of extractor ≠ Extractor
    ∧ get_title extractor = Return (Some title)
    ∧ get_metadata extractor = Return metadata
    ∧ cleanup extractor = Return cleaned
    ∧ get_content cleaned = Return selected
    ∧ returns (transform (λ _ _, None) example_urlparse_path example_urljoin
                 (create_transformer example_url bs selected (lit "out")))
              transformed
    ∧ get_content (set_content cleaned transformed) = Return (Some content)
    ∧ fs (download_content (λ _ _, None) example_urlparse_path
            example_urljoin example_html_parser example_tag_str
            example_prettify example_url (lit "out") example_cache).2
      !! lit "out/article-1/index.asciidoc"
      = Some (File
                ((lit "== " ++ title ++ nl ++ nl)
                 ++ (lit "link:" ++ example_url ++ lit "[original article] "
                     ++ match get_published extractor with
                        | Some t => lit "published on " ++ t
                        | None => []
                        end
                     ++ nl ++ nl ++ metadata)
                 ++ written (render_tags example_tag_str example_prettify
                               (create_renderer example_url) content))).
Proof.
  apply (download_content_article (λ _ _, None) example_urlparse_path
           example_urljoin example_html_parser example_tag_str
           example_prettify example_url (lit "out") example_cache).
  vm_compute. reflexivity.
Defined.
